(** * Mezmerize B1 controller: the attenuation-step mapping

    A shallow embedding of [getAttenuation] (src/src/main.cpp, lines 458-477)
    and of its caller [setVolume], with the arithmetic the target performs:
    the arguments are [uint8_t], every intermediate value is a [float]
    (IEEE-754 binary32, round to nearest even; on the AVR target [double] is
    the same 32-bit format, so the literals [2.0] and [0.5] do not widen
    anything), and the result is converted back to [uint8_t].

    Conventions of the embedding
    - a [uint8_t] is a [Z] in [0, 255];
    - a [float] is a [spec_float] of the Standard Library at precision 24 and
      maximal exponent 128; [+ - * /] are [SFadd], [SFsub], [SFmul], [SFdiv]
      and the comparisons are [SFltb], [SFleb];
    - [pow] (libm) and the macros [round], [min], [max] (Arduino.h) are not
      part of the repository: the value of
      [round(pow(2.0, att_dB / steps) - 0.5)] is taken at the mathematical
      value of the power, i.e. the largest integer [k] with
      [k ^ steps <= 2 ^ att_dB] (see [round_pow2] and [round_pow2_spec]);
    - the conversion [float -> uint8_t] truncates toward zero and keeps the low
      eight bits;
    - [steps = 0] divides by zero in [att_dB / steps] and is left out: every
      statement below has [1 <= steps].

    The development has three layers: the program on binary32 floats, the
    derived profile and the formula of the specification in exact rational
    arithmetic, and the link between the two.  The link is exact whenever the
    quotient [numberOfSmallSteps] is representable; it is not when the coarse
    step is 3 and the range is not a multiple of 3, and there the truncating
    conversion can return one unit less than the formula.

    What the body of [getAttenuation] reads and writes is shown on its
    statements, kept as syntax in the module [Body]. *)

From Stdlib Require Import ZArith Bool List Lia QArith Qminmax Lqa.
From Stdlib Require Import Floats.SpecFloat.
From Stdlib Require String.

Local Open Scope Z_scope.

(** ** Bounded quantification over integer intervals, by evaluation *)

Module Interval.

Fixpoint upto (lo : Z) (n : nat) : list Z :=
  match n with
  | O => nil
  | S k => lo :: upto (lo + 1) k
  end.

Definition all (lo hi : Z) (P : Z -> bool) : bool :=
  forallb P (upto lo (Z.to_nat (hi - lo + 1))).

End Interval.

(** ** IEEE-754 binary32 *)

Module B32.

Definition prec : Z := 24.
Definition emax : Z := 128.

Definition float : Type := spec_float.

(** Conversion of a C integer to [float]. *)
Definition of_Z (z : Z) : float := binary_normalize prec emax z 0 false.

(** The float of value [h / 2]. *)
Definition half (h : Z) : float := binary_normalize prec emax h (-1) false.

Definition add : float -> float -> float := SFadd prec emax.
Definition sub : float -> float -> float := SFsub prec emax.
Definition mul : float -> float -> float := SFmul prec emax.
Definition div : float -> float -> float := SFdiv prec emax.
Definition ltb : float -> float -> bool := SFltb.
Definition leb : float -> float -> bool := SFleb.

(** Integer part, toward zero (the C conversion to an integer type). *)
Definition trunc (x : float) : Z :=
  match x with
  | S754_finite s m e =>
      let a := match e with
               | Zneg p => Z.shiftr (Zpos m) (Zpos p)
               | _ => Z.shiftl (Zpos m) e
               end in
      if s then - a else a
  | _ => 0
  end.

(** Conversion to [uint8_t]: integer part, low eight bits. *)
Definition to_uint8 (x : float) : Z := trunc x mod 256.

(** Exact value of a finite float. *)
Definition to_Q (x : float) : Q :=
  match x with
  | S754_finite s m e =>
      let v := match e with
               | Zneg p => Qmake (Zpos m) (2 ^ p)
               | _ => inject_Z (Zpos m * 2 ^ e)
               end in
      if s then Qopp v else v
  | _ => 0%Q
  end.

(** Number of binary digits of a mantissa, and the normal form of the float
    [(-1)^s * p * 2^e] when [p] has at most [prec] digits: the mantissa
    shifted up to [prec] digits. *)
Definition digits (p : positive) : Z := Zpos (digits2_pos p).

Definition normal (s : bool) (p : positive) (e : Z) : float :=
  S754_finite s (Pos.shiftl p (Z.to_N (prec - digits p))) (e + digits p - prec).

(** Numerators of the halves that add, subtract and compare exactly. *)
Definition small (h : Z) : Prop := 0 <= h < 16777216.

(** Boolean equality, for checking tables of float identities. *)
Definition eqb (x y : float) : bool :=
  match x, y with
  | S754_zero s1, S754_zero s2 => Bool.eqb s1 s2
  | S754_infinity s1, S754_infinity s2 => Bool.eqb s1 s2
  | S754_nan, S754_nan => true
  | S754_finite s1 m1 e1, S754_finite s2 m2 e2 =>
      Bool.eqb s1 s2 && Pos.eqb m1 m2 && Z.eqb e1 e2
  | _, _ => false
  end.

End B32.

(** ** The value of [round(pow(2.0, att_dB / steps) - 0.5)] *)

(** The integer [s]-th root of [N], found bit by bit from bit [i] down,
    starting from [k]. *)
Fixpoint root_bits (s N : Z) (i : nat) (k : Z) : Z :=
  let k' := k + 2 ^ Z.of_nat i in
  let k1 := if k' ^ s <=? N then k' else k in
  match i with
  | O => k1
  | S j => root_bits s N j k1
  end.

(** Modelled from the spec: [pow] of libm and the [round] macro of Arduino.h
    are missing from the sources; the specification has
    [coarseStepSize = round(2^(rangeDb/steps) - 0.5)].  Arduino's [round(x)]
    is [(long)(x + 0.5)] for [x >= 0], so for a power [p >= 1] the expression
    [round(p - 0.5)] is the integer part of [p], and the integer part of
    [2 ^ (att / steps)] is the integer [steps]-th root of [2 ^ att].  For a
    negative [att] the power lies in (0, 1) and the expression is 0. *)
Definition round_pow2 (att steps : Z) : Z :=
  if att <? 0 then 0 else root_bits steps (2 ^ att) (Z.to_nat (att / steps)) 0.

(** ** The program *)

Definition uint8 (z : Z) : Prop := 0 <= z <= 255.

(** Modelled from the spec: [min] and [max] of Arduino.h are missing from the
    sources; they are the macros [((a)<(b)?(a):(b))] and [((a)>(b)?(a):(b))],
    used here with one [float] operand, hence at type [float]. *)
Definition arduino_min (a b : B32.float) : B32.float := if B32.ltb a b then a else b.
Definition arduino_max (a b : B32.float) : B32.float := if B32.ltb b a then a else b.

(** [float att_dB = max_dB - min_dB;] the subtraction is done on [int]. *)
Definition att_dB (min_dB max_dB : Z) : B32.float := B32.of_Z (max_dB - min_dB).

(** [float sizeOfLargeSteps = round(pow(2.0, att_dB / steps) - 0.5);] *)
Definition sizeOfLargeSteps (steps min_dB max_dB : Z) : B32.float :=
  B32.of_Z (round_pow2 (max_dB - min_dB) steps).

(** [float numberOfSmallSteps =
      (sizeOfLargeSteps * steps - att_dB) / (sizeOfLargeSteps / 2);] *)
Definition numberOfSmallSteps (steps min_dB max_dB : Z) : B32.float :=
  let sz := sizeOfLargeSteps steps min_dB max_dB in
  B32.div (B32.sub (B32.mul sz (B32.of_Z steps)) (att_dB min_dB max_dB))
          (B32.div sz (B32.of_Z 2)).

(** The condition of the [if]. *)
Definition attenuationPossible (steps selStep min_dB max_dB : Z) : bool :=
  B32.leb (numberOfSmallSteps steps min_dB max_dB) (B32.of_Z steps)
  && (selStep <=? steps)
  && B32.leb (sizeOfLargeSteps steps min_dB max_dB) (B32.of_Z 4).

(** The float returned by the first branch, before its conversion. *)
Definition attenuationFloat (steps selStep min_dB max_dB : Z) : B32.float :=
  let sz := sizeOfLargeSteps steps min_dB max_dB in
  let ns := numberOfSmallSteps steps min_dB max_dB in
  B32.mul
    (B32.sub (B32.of_Z max_dB)
       (B32.add
          (B32.mul (arduino_min (B32.of_Z selStep) ns) (B32.div sz (B32.of_Z 2)))
          (B32.mul (arduino_max (B32.sub (B32.of_Z selStep) ns) (B32.of_Z 0)) sz)))
    (B32.of_Z 2).

Definition MUTE : Z := 223.

Definition getAttenuation (steps selStep min_dB max_dB : Z) : Z :=
  if attenuationPossible steps selStep min_dB max_dB
  then B32.to_uint8 (attenuationFloat steps selStep min_dB max_dB)
  else MUTE.

(** ** The caller and the controller's globals

    [getAttenuation] takes its four arguments by value and has no other
    input; [setVolume] reads the settings and stores the code.  Programs are
    state transformers over the globals they can reach. *)

Record Settings : Type := {
  VolumeSteps : Z;
  MinAttenuation : Z;
  MaxAttenuation : Z
}.

Record RuntimeSettings : Type := {
  CurrentVolume : Z;
  CurrentAttenuation : Z
}.

Record Globals : Type := {
  CurrentSettings : Settings;
  CurrentRuntimeSettings : RuntimeSettings
}.

Definition Prog (A : Type) : Type := Globals -> A * Globals.

Definition ret {A : Type} (a : A) : Prog A := fun g => (a, g).

Definition bind {A B : Type} (m : Prog A) (f : A -> Prog B) : Prog B :=
  fun g => let (a, g') := m g in f a g'.

Definition read : Prog Globals := fun g => (g, g).

Definition write_CurrentAttenuation (a : Z) : Prog unit :=
  fun g =>
    (tt, {| CurrentSettings := CurrentSettings g;
            CurrentRuntimeSettings :=
              {| CurrentVolume := CurrentVolume (CurrentRuntimeSettings g);
                 CurrentAttenuation := a |} |}).

Notation "x <- m ;; k" := (bind m (fun x => k))
  (at level 61, m at next level, right associativity).

(** The body of [getAttenuation] names its parameters and locals only. *)
Definition getAttenuation_prog (steps selStep min_dB max_dB : Z) : Prog Z :=
  ret (getAttenuation steps selStep min_dB max_dB).

Definition setVolume : Prog unit :=
  g <- read ;;
  a <- getAttenuation_prog (VolumeSteps (CurrentSettings g))
                           (CurrentVolume (CurrentRuntimeSettings g))
                           (MinAttenuation (CurrentSettings g))
                           (MaxAttenuation (CurrentSettings g)) ;;
  write_CurrentAttenuation a.

(** ** The body of [getAttenuation], statement by statement

    What a function reads and writes cannot be asked of a Rocq function.
    The body is therefore also kept as syntax, in a small language of C
    statements whose identifiers name a parameter or a local when one is in
    scope and a member of the globals otherwise, and whose assignments reach
    the globals in the same way. *)

Module Body.

Import String.
Local Open Scope string_scope.
Local Open Scope Z_scope.

(** The values of the body: [int] (the promoted [uint8_t]) and [float]. *)
Inductive value : Type :=
| Int (z : Z)
| Float (f : B32.float).

(** Expressions: an identifier, an integer literal, [+ - * /], [<= >= &&],
    the macros [min] and [max], and [round(pow(2.0, x / s) - 0.5)], which is
    kept whole because [pow] and [round] are not part of the repository (its
    value is that of [round_pow2], as in [sizeOfLargeSteps]).  The
    expressions of the body have no side effects. *)
Inductive expr : Type :=
| Id (x : string)
| Lit (z : Z)
| Add (a b : expr)
| Sub (a b : expr)
| Mul (a b : expr)
| Div (a b : expr)
| Le (a b : expr)
| Ge (a b : expr)
| And (a b : expr)
| Min (a b : expr)
| Max (a b : expr)
| RoundPow2 (x s : expr).

(** Statements: [float x = e;], [x = e;], [if (c) s1 else s2],
    [return e;] and one statement after the other. *)
Inductive stmt : Type :=
| FloatDecl (x : string) (e : expr)
| Assign (x : string) (e : expr)
| IfElse (c : expr) (s1 s2 : stmt)
| Return (e : expr)
| Seq (s1 s2 : stmt).

(** A function with [uint8_t] parameters and result. *)
Record function : Type := {
  parameters : list string;
  body : stmt
}.

(** [getAttenuation], lines 458-477. *)
Definition getAttenuation_def : function :=
  {| parameters := "steps" :: "selStep" :: "min_dB" :: "max_dB" :: nil;
     body :=
       Seq (FloatDecl "att_dB" (Sub (Id "max_dB") (Id "min_dB")))
      (Seq (FloatDecl "sizeOfLargeSteps" (RoundPow2 (Id "att_dB") (Id "steps")))
      (Seq (FloatDecl "numberOfSmallSteps"
              (Div (Sub (Mul (Id "sizeOfLargeSteps") (Id "steps")) (Id "att_dB"))
                   (Div (Id "sizeOfLargeSteps") (Lit 2))))
           (IfElse
              (And (And (Ge (Id "steps") (Id "numberOfSmallSteps"))
                        (Le (Id "selStep") (Id "steps")))
                   (Le (Id "sizeOfLargeSteps") (Lit 4)))
              (Return
                 (Mul (Sub (Id "max_dB")
                         (Add (Mul (Min (Id "selStep") (Id "numberOfSmallSteps"))
                                   (Div (Id "sizeOfLargeSteps") (Lit 2)))
                              (Mul (Max (Sub (Id "selStep") (Id "numberOfSmallSteps"))
                                        (Lit 0))
                                   (Id "sizeOfLargeSteps"))))
                      (Lit 2)))
              (Return (Lit 223))))) |}.

(** The members of the globals, by name. *)
Definition member (x : string) (g : Globals) : option Z :=
  if String.eqb x "CurrentSettings.VolumeSteps"
  then Some (VolumeSteps (CurrentSettings g))
  else if String.eqb x "CurrentSettings.MinAttenuation"
  then Some (MinAttenuation (CurrentSettings g))
  else if String.eqb x "CurrentSettings.MaxAttenuation"
  then Some (MaxAttenuation (CurrentSettings g))
  else if String.eqb x "CurrentRuntimeSettings.CurrentVolume"
  then Some (CurrentVolume (CurrentRuntimeSettings g))
  else if String.eqb x "CurrentRuntimeSettings.CurrentAttenuation"
  then Some (CurrentAttenuation (CurrentRuntimeSettings g))
  else None.

Definition set_member (x : string) (z : Z) (g : Globals) : option Globals :=
  let s := CurrentSettings g in
  let r := CurrentRuntimeSettings g in
  if String.eqb x "CurrentSettings.VolumeSteps"
  then Some {| CurrentSettings :=
                 {| VolumeSteps := z; MinAttenuation := MinAttenuation s;
                    MaxAttenuation := MaxAttenuation s |};
               CurrentRuntimeSettings := r |}
  else if String.eqb x "CurrentSettings.MinAttenuation"
  then Some {| CurrentSettings :=
                 {| VolumeSteps := VolumeSteps s; MinAttenuation := z;
                    MaxAttenuation := MaxAttenuation s |};
               CurrentRuntimeSettings := r |}
  else if String.eqb x "CurrentSettings.MaxAttenuation"
  then Some {| CurrentSettings :=
                 {| VolumeSteps := VolumeSteps s; MinAttenuation := MinAttenuation s;
                    MaxAttenuation := z |};
               CurrentRuntimeSettings := r |}
  else if String.eqb x "CurrentRuntimeSettings.CurrentVolume"
  then Some {| CurrentSettings := s;
               CurrentRuntimeSettings :=
                 {| CurrentVolume := z; CurrentAttenuation := CurrentAttenuation r |} |}
  else if String.eqb x "CurrentRuntimeSettings.CurrentAttenuation"
  then Some {| CurrentSettings := s;
               CurrentRuntimeSettings :=
                 {| CurrentVolume := CurrentVolume r; CurrentAttenuation := z |} |}
  else None.

(** The parameters and locals in scope, innermost first. *)
Definition locals : Type := list (string * value).

Fixpoint local (l : locals) (x : string) : option value :=
  match l with
  | nil => None
  | (y, v) :: l' => if String.eqb x y then Some v else local l' x
  end.

Fixpoint set_local (l : locals) (x : string) (v : value) : option locals :=
  match l with
  | nil => None
  | (y, w) :: l' =>
      if String.eqb x y then Some ((y, v) :: l')
      else match set_local l' x v with
           | Some l'' => Some ((y, w) :: l'')
           | None => None
           end
  end.

(** The conversions of C. *)
Definition to_float (v : value) : B32.float :=
  match v with
  | Int z => B32.of_Z z
  | Float f => f
  end.

Definition to_byte (v : value) : Z :=
  match v with
  | Int z => z mod 256
  | Float f => B32.to_uint8 f
  end.

Definition to_long (v : value) : Z :=
  match v with
  | Int z => z
  | Float f => B32.trunc f
  end.

Definition truth (v : value) : bool :=
  match v with
  | Int z => negb (z =? 0)
  | Float f => negb (SFeqb f (B32.of_Z 0))
  end.

Definition of_bool (b : bool) : value := Int (if b then 1 else 0).

(** An [int] of the AVR has 16 bits; a result outside is undefined. *)
Definition int (z : Z) : option value :=
  if (-32768 <=? z) && (z <=? 32767) then Some (Int z) else None.

(** The usual arithmetic conversions: on two [int]s the operation is that of
    [int], otherwise that of [float]. *)
Definition arith (fi : Z -> Z -> option Z)
    (ff : B32.float -> B32.float -> B32.float) (a b : value) : option value :=
  match a, b with
  | Int x, Int y =>
      match fi x y with
      | Some z => int z
      | None => None
      end
  | _, _ => Some (Float (ff (to_float a) (to_float b)))
  end.

Definition compare (fi : Z -> Z -> bool)
    (ff : B32.float -> B32.float -> bool) (a b : value) : value :=
  match a, b with
  | Int x, Int y => of_bool (fi x y)
  | _, _ => of_bool (ff (to_float a) (to_float b))
  end.

(** [((a)<(b)?(a):(b))] and [((a)>(b)?(a):(b))] *)
Definition minimum (a b : value) : value :=
  match a, b with
  | Int x, Int y => Int (if x <? y then x else y)
  | _, _ => Float (arduino_min (to_float a) (to_float b))
  end.

Definition maximum (a b : value) : value :=
  match a, b with
  | Int x, Int y => Int (if y <? x then x else y)
  | _, _ => Float (arduino_max (to_float a) (to_float b))
  end.

Definition both {A : Type} (a b : option value) (f : value -> value -> option A)
    : option A :=
  match a, b with
  | Some x, Some y => f x y
  | _, _ => None
  end.

Fixpoint eval (l : locals) (g : Globals) (e : expr) : option value :=
  match e with
  | Id x =>
      match local l x with
      | Some v => Some v
      | None => option_map Int (member x g)
      end
  | Lit z => Some (Int z)
  | Add a b =>
      both (eval l g a) (eval l g b) (arith (fun x y => Some (x + y)) B32.add)
  | Sub a b =>
      both (eval l g a) (eval l g b) (arith (fun x y => Some (x - y)) B32.sub)
  | Mul a b =>
      both (eval l g a) (eval l g b) (arith (fun x y => Some (x * y)) B32.mul)
  | Div a b =>
      both (eval l g a) (eval l g b)
        (arith (fun x y => if y =? 0 then None else Some (Z.quot x y)) B32.div)
  | Le a b =>
      both (eval l g a) (eval l g b)
        (fun x y => Some (compare Z.leb B32.leb x y))
  | Ge a b =>
      both (eval l g a) (eval l g b)
        (fun x y => Some (compare Z.leb B32.leb y x))
  | And a b =>
      match eval l g a with
      | Some x =>
          if truth x
          then match eval l g b with
               | Some y => Some (of_bool (truth y))
               | None => None
               end
          else Some (of_bool false)
      | None => None
      end
  | Min a b =>
      both (eval l g a) (eval l g b) (fun x y => Some (minimum x y))
  | Max a b =>
      both (eval l g a) (eval l g b) (fun x y => Some (maximum x y))
  | RoundPow2 x s =>
      both (eval l g x) (eval l g s)
        (fun x s => Some (Int (round_pow2 (to_long x) (to_long s))))
  end.

(** A statement goes on to the next one, or returns. *)
Inductive flow : Type :=
| Next (l : locals) (g : Globals)
| Returned (v : value) (g : Globals).

(** The end of a block: the locals declared in it go out of scope. *)
Definition leave (l : locals) (r : option flow) : option flow :=
  match r with
  | Some (Next l' g') =>
      Some (Next (skipn (List.length l' - List.length l) l') g')
  | _ => r
  end.

Fixpoint exec (s : stmt) (l : locals) (g : Globals) : option flow :=
  match s with
  | FloatDecl x e =>
      match eval l g e with
      | Some v => Some (Next ((x, Float (to_float v)) :: l) g)
      | None => None
      end
  | Assign x e =>
      match eval l g e with
      | Some v =>
          match local l x with
          | Some (Int _) =>
              option_map (fun l' => Next l' g) (set_local l x (Int (to_byte v)))
          | Some (Float _) =>
              option_map (fun l' => Next l' g) (set_local l x (Float (to_float v)))
          | None => option_map (Next l) (set_member x (to_byte v) g)
          end
      | None => None
      end
  | IfElse c s1 s2 =>
      match eval l g c with
      | Some v => leave l (if truth v then exec s1 l g else exec s2 l g)
      | None => None
      end
  | Return e =>
      match eval l g e with
      | Some v => Some (Returned v g)
      | None => None
      end
  | Seq s1 s2 =>
      match exec s1 l g with
      | Some (Next l' g') => exec s2 l' g'
      | r => r
      end
  end.

(** A call: the arguments are bound to the parameters, the body runs, and
    the value returned is converted to [uint8_t].  A body that ends without
    [return] has no result. *)
Definition call (f : function) (args : list Z) (g : Globals)
    : option (Z * Globals) :=
  if (List.length args =? List.length (parameters f))%nat then
    match exec (body f) (combine (parameters f) (map Int args)) g with
    | Some (Returned v g') => Some (to_byte v, g')
    | _ => None
    end
  else None.

(** The identifiers of a statement that name no parameter or local in
    scope: the globals it reads or writes. *)
Fixpoint free_expr (bound : list string) (e : expr) : list string :=
  match e with
  | Id x => if existsb (String.eqb x) bound then nil else x :: nil
  | Lit _ => nil
  | Add a b | Sub a b | Mul a b | Div a b | Le a b | Ge a b | And a b
  | Min a b | Max a b | RoundPow2 a b =>
      (free_expr bound a ++ free_expr bound b)%list
  end.

Fixpoint free (bound : list string) (s : stmt) : list string * list string :=
  match s with
  | FloatDecl x e => (free_expr bound e, x :: bound)
  | Assign x e =>
      (((if existsb (String.eqb x) bound then nil else x :: nil)
          ++ free_expr bound e)%list, bound)
  | IfElse c s1 s2 =>
      ((free_expr bound c ++ fst (free bound s1) ++ fst (free bound s2))%list, bound)
  | Return e => (free_expr bound e, bound)
  | Seq s1 s2 =>
      let (f1, b1) := free bound s1 in
      let (f2, b2) := free b1 s2 in
      ((f1 ++ f2)%list, b2)
  end.

Definition globals_named (f : function) : list string :=
  fst (free (parameters f) (body f)).

(** Two runs of a statement from the locals [l] and the globals [g1] and
    [g2] agree: they end in the same way, with the same locals or the same
    value, each with its globals as they were; [bound'] are the names in
    scope afterwards. *)
Definition names (l : locals) : list string := map fst l.

Definition agree (l : locals) (bound' : list string) (g1 g2 : Globals)
    (r1 r2 : option flow) : Prop :=
  match r1, r2 with
  | Some (Next l1 h1), Some (Next l2 h2) =>
      l1 = l2 /\ h1 = g1 /\ h2 = g2
      /\ (exists new, names l1 = (new ++ names l)%list)
      /\ incl bound' (names l1)
  | Some (Returned v1 h1), Some (Returned v2 h2) =>
      v1 = v2 /\ h1 = g1 /\ h2 = g2
  | None, None => True
  | _, _ => False
  end.

(** [setVolume], lines 479-483, with the call of [getAttenuation] replaced
    by its result [a]: the one statement is an assignment to a member of the
    globals. *)
Definition setVolume_body (a : Z) : stmt :=
  Assign "CurrentRuntimeSettings.CurrentAttenuation" (Lit a).

End Body.

(** ** The derived profile and the transfer function, in exact arithmetic

    These follow the specification: the coarse step size is the value of
    [round(2^(rangeDb/steps) - 0.5)], the fine step count and the attenuation
    are rational numbers. *)

Definition coarseStepSize (steps rangeDb : Z) : Z := round_pow2 rangeDb steps.

Definition fineCount (c k : Z) : Q := (inject_Z k / (inject_Z c / 2))%Q.

Definition fineStepCount (steps rangeDb : Z) : Q :=
  let c := coarseStepSize steps rangeDb in
  fineCount c (c * steps - rangeDb).

Definition feasible (steps selStep rangeDb : Z) : Prop :=
  (fineStepCount steps rangeDb <= inject_Z steps)%Q
  /\ selStep <= steps
  /\ coarseStepSize steps rangeDb <= 4.

Definition formula (c k selStep maxDb : Z) : Q :=
  ((inject_Z maxDb
    - (Qmin (inject_Z selStep) (fineCount c k) * (inject_Z c / 2)
       + Qmax (inject_Z selStep - fineCount c k) 0 * inject_Z c)) * 2)%Q.

Definition attenuationFormula (steps selStep minDb maxDb : Z) : Q :=
  let c := coarseStepSize steps (maxDb - minDb) in
  formula c (c * steps - (maxDb - minDb)) selStep maxDb.

(** The same value as an integer: below the fine step count every step takes
    [c] half-dB units off [2 * maxDb], above it [2 * c]. *)
Definition exactCode (c k selStep maxDb : Z) : Z :=
  if c * selStep <=? 2 * k
  then 2 * maxDb - c * selStep
  else 2 * maxDb - (2 * c * selStep - 2 * k).

(** A profile together with its derived integers: [c] is the coarse step
    size and [k = c * steps - rangeDb]. *)
Definition derived (steps min_dB max_dB c k : Z) : Prop :=
  uint8 steps /\ uint8 min_dB /\ uint8 max_dB /\ 1 <= steps /\ min_dB <= max_dB
  /\ round_pow2 (max_dB - min_dB) steps = c /\ 1 <= c <= 4
  /\ k = c * steps - (max_dB - min_dB).

(** ** Recurring sub-expressions

    Every operand of [getAttenuation] is a small multiple of one half, or the
    quotient of a small integer by 1.5. *)

Module Tables.
Import B32.

(** The quotient [k / (c / 2)] as the program computes it. *)
Definition quot (k c : Z) : float := div (of_Z k) (half c).

(** Above the fine step count the program subtracts [slip_sum n sel] from
    [max_dB], doubles and converts: [slip_code e mx] is the integer part of
    that float.  With coarse step 3 the quotient [n] may be inexact. *)
Definition slip_sum (n : float) (sel : Z) : float :=
  add (mul n (half 3)) (mul (sub (of_Z sel) n) (of_Z 3)).

Definition slip_code (e : float) (mx : Z) : Z :=
  trunc (mul (sub (of_Z mx) e) (of_Z 2)).

End Tables.

(** * The rest of the controller

    The remaining sections embed the code around [getAttenuation]: the relay
    controller of src/lib/RelayController, and from src/src/main.cpp the
    decoding of the user's input in [getUserInput], the value editors of the
    menu, the key handling of [loop] in normal mode, the menu commands that
    edit the volume and input settings, the supply-voltage test, the
    temperature bar, the EEPROM addresses, the display helpers [padc] and
    [rpad] and the editor of input names.

    Conventions
    - a [byte] is a [Z] in [0, 255]; [++] and [--] on a byte reduce modulo 256
      (see [Controller.byte]);
    - an array is a list; an index outside the array is an access outside the
      object in C and ends the run ([OutOfBounds], [Invalid], [Overflow],
      [None]);
    - a [while] loop whose number of iterations is not bounded by the code takes
      a fuel argument and ends with [OutOfFuel] when it is used up;
    - the display ([oled]), the serial port and [delay] have no effect on the
      variables of the program and are left out;
    - a function that waits for the user ([editNumericValue],
      [editOptionValue], [editInputName]) reads the successive results of
      [getUserInput] from a list and is [Waiting] when the list ends before
      the function returns;
    - what a library outside the repository provides (the port expander, the
      EEPROM, [string.h], [String], [map]) is a parameter or is written out
      where it is used, with a note. *)

(** ** The relay controller (src/lib/RelayController/RelayController.cpp) *)

Module Relay.

(** The driver of the port expander, [Adafruit_MCP23008], is not part of the
    repository and is taken as a parameter: a device with eight output latches,
    pins 0 to 7, on which [digitalWrite] sets the latch it addresses and no
    other, and on which setting the direction of a pin changes no latch. *)
Class Expander : Type := {
  port : Type;
  begin_port : port -> port;
  pinMode : Z -> Z -> port -> port;
  digitalWrite : Z -> bool -> port -> port;
  digitalRead : port -> Z -> bool;
  digitalWrite_same :
    forall p v s, 0 <= p <= 7 -> digitalRead (digitalWrite p v s) p = v;
  digitalWrite_other :
    forall p q v s, p <> q -> digitalRead (digitalWrite p v s) q = digitalRead s q;
  pinMode_level :
    forall p m q s, digitalRead (pinMode p m s) q = digitalRead s q
}.

Definition OUTPUT : Z := 1.
Definition HIGH : bool := true.
Definition LOW : bool := false.

(** A device of the class: the registers IODIR and GPIO of the MCP23008, a
    write being a read-modify-write of GPIO that ignores pins above 7. *)
Record Registers : Type := {
  IODIR : Z;
  GPIO : Z
}.

Definition registers_begin (r : Registers) : Registers :=
  {| IODIR := 255; GPIO := 0 |}.

Definition registers_pinMode (p m : Z) (r : Registers) : Registers :=
  if 7 <? p then r
  else {| IODIR := if m =? OUTPUT then Z.ldiff (IODIR r) (Z.shiftl 1 p)
                   else Z.lor (IODIR r) (Z.shiftl 1 p);
          GPIO := GPIO r |}.

Definition registers_digitalWrite (p : Z) (d : bool) (r : Registers) : Registers :=
  if 7 <? p then r
  else {| IODIR := IODIR r;
          GPIO := if d then Z.lor (GPIO r) (Z.shiftl 1 p)
                  else Z.ldiff (GPIO r) (Z.shiftl 1 p) |}.

Definition registers_digitalRead (r : Registers) (p : Z) : bool :=
  Z.testbit (GPIO r) p.

Section Controller.
Context {E : Expander}.

(** The members of the class that the methods use. *)
Record RelayController : Type := {
  mcp : port;
  selectedInput : Z;
  standardTrigger : bool
}.

Definition with_mcp (s : port) (rc : RelayController) : RelayController :=
  {| mcp := s;
     selectedInput := selectedInput rc;
     standardTrigger := standardTrigger rc |}.

(** [void RelayController::setStandardTrigger()] *)
Definition setStandardTrigger (rc : RelayController) : RelayController :=
  {| mcp := mcp rc;
     selectedInput := selectedInput rc;
     standardTrigger := true |}.

(** The constructor, with the initialiser [selectedInput = 9] of the header. *)
Definition RelayController_new (s : port) : RelayController :=
  setStandardTrigger {| mcp := s; selectedInput := 9; standardTrigger := false |}.

(** [void RelayController::begin()]: the loop runs over pins 0 to 7. *)
Definition begin (rc : RelayController) : RelayController :=
  with_mcp
    (fold_left (fun s pin => digitalWrite pin LOW (pinMode pin OUTPUT s))
               (Interval.upto 0 8) (begin_port (mcp rc)))
    rc.

(** [void RelayController::setRelayOn(uint8_t Nmbr)] *)
Definition setRelayOn (Nmbr : Z) (rc : RelayController) : RelayController :=
  with_mcp (digitalWrite Nmbr HIGH (mcp rc)) rc.

(** [void RelayController::setRelayOff(uint8_t Nmbr)] *)
Definition setRelayOff (Nmbr : Z) (rc : RelayController) : RelayController :=
  with_mcp (digitalWrite Nmbr LOW (mcp rc)) rc.

(** [void RelayController::setInput(uint8_t inputNmbr)] *)
Definition setInput (inputNmbr : Z) (rc : RelayController) : RelayController :=
  let pin_sel := inputNmbr in
  let pin_unsel := selectedInput rc in
  {| mcp := digitalWrite pin_sel HIGH (digitalWrite pin_unsel LOW (mcp rc));
     selectedInput := pin_sel;
     standardTrigger := standardTrigger rc |}.

(** [void RelayController::setTriggerOn()]: the body is commented out. *)
Definition setTriggerOn (rc : RelayController) : RelayController := rc.

(** [void RelayController::SetTriggerOff()] *)
Definition SetTriggerOff (rc : RelayController) : RelayController :=
  with_mcp (digitalWrite 7 LOW (digitalWrite 6 LOW (mcp rc))) rc.

(** [void RelayController::mute(boolean on)]: the level written is
    [on == false]. *)
Definition mute (on : bool) (rc : RelayController) : RelayController :=
  with_mcp (digitalWrite (selectedInput rc) (Bool.eqb on false) (mcp rc)) rc.

(** A sequence of calls of the methods that switch inputs and triggers. *)
Inductive call : Type :=
| CallSetInput (inputNmbr : Z)
| CallMute (on : bool)
| CallSetStandardTrigger
| CallSetTriggerOn
| CallSetTriggerOff.

Definition perform (rc : RelayController) (c : call) : RelayController :=
  match c with
  | CallSetInput n => setInput n rc
  | CallMute on => mute on rc
  | CallSetStandardTrigger => setStandardTrigger rc
  | CallSetTriggerOn => setTriggerOn rc
  | CallSetTriggerOff => SetTriggerOff rc
  end.

Definition performAll (calls : list call) (rc : RelayController) : RelayController :=
  fold_left perform calls rc.

(** The header has pins 0 to 5 for the input relays and 6, 7 for the
    triggers. *)
Definition input_call (c : call) : Prop :=
  match c with
  | CallSetInput n => 0 <= n <= 5
  | _ => True
  end.

(** The calls that select and mute inputs. *)
Definition selection_call (c : call) : Prop :=
  match c with
  | CallSetInput n => 0 <= n <= 5
  | CallSetTriggerOff => False
  | _ => True
  end.

Definition closed (rc : RelayController) (pin : Z) : Prop :=
  digitalRead (mcp rc) pin = true.

(** At most one input relay is closed, the selected one. *)
Definition inputs_exclusive (rc : RelayController) : Prop :=
  forall pin, 0 <= pin <= 5 -> closed rc pin -> pin = selectedInput rc.

End Controller.

End Relay.

(** ** The controller (src/src/main.cpp) *)

Module Controller.

(** The five globals that [setVolume] reaches, in the records of the first
    part. *)
Definition attenuationGlobals (steps minAtt maxAtt vol att : Z) : Globals :=
  {| CurrentSettings :=
       {| VolumeSteps := steps; MinAttenuation := minAtt; MaxAttenuation := maxAtt |};
     CurrentRuntimeSettings :=
       {| CurrentVolume := vol; CurrentAttenuation := att |} |}.

(** [setVolume] of the first part, as a function on these globals. *)
Definition storeAttenuation (g : Globals) : Globals := snd (setVolume g).

(** Conversion to [byte]. *)
Definition byte (z : Z) : Z := z mod 256.

(** Conversion to [int16_t]. *)
Definition int16 (z : Z) : Z := (z + 32768) mod 65536 - 32768.

(** How a piece of code ends. *)
Inductive outcome (A : Type) : Type :=
| Done (a : A)
| OutOfBounds
| OutOfFuel.

Arguments Done {A} a.
Arguments OutOfBounds {A}.
Arguments OutOfFuel {A}.

(** Arrays. *)
Definition lookup {A : Type} (l : list A) (i : Z) : option A :=
  if i <? 0 then None else nth_error l (Z.to_nat i).

Fixpoint store_at {A : Type} (l : list A) (n : nat) (v : A) : option (list A) :=
  match l, n with
  | nil, _ => None
  | _ :: t, O => Some (v :: t)
  | h :: t, S m =>
      match store_at t m v with
      | Some t' => Some (h :: t')
      | None => None
      end
  end.

Definition store {A : Type} (l : list A) (i : Z) (v : A) : option (list A) :=
  if i <? 0 then None else store_at l (Z.to_nat i) v.

(** *** Types and globals *)

(** [struct InputSettings]; the member [Name] is left out, no function below
    reads or writes it. *)
Record InputSettings : Type := {
  Active : Z;
  MaxVol : Z;
  MinVol : Z
}.

(** The members of [Settings] that the functions below use: the volume
    settings and the six inputs.  The IR codes are in [IRCodes]; the trigger
    and display members are left out. *)
Record Settings : Type := {
  VolumeSteps : Z;
  MinAttenuation : Z;
  MaxAttenuation : Z;
  MaxStartVolume : Z;
  MuteLevel : Z;
  RecallSetLevel : Z;
  Input : list InputSettings
}.

(** [RuntimeSettings], without [Version]. *)
Record RuntimeSettings : Type := {
  CurrentInput : Z;
  CurrentVolume : Z;
  CurrentAttenuation : Z;
  Muted : bool;
  InputLastVol : list Z;
  PrevSelectedInput : Z
}.

Inductive AppModeValues : Type :=
| APP_NORMAL_MODE
| APP_MENU_MODE
| APP_PROCESS_MENU_CMD
| APP_STANDBY_MODE
| APP_POWERLOSS_STATE.

(** The three images that the program keeps in the EEPROM: the settings at
    address 0, the runtime settings behind them and the user's settings behind
    those (see [Eeprom] below for the addresses). *)
Record Stored : Type := {
  storedSettings : Settings;
  storedRuntimeSettings : RuntimeSettings;
  storedUserSettings : Settings
}.

Record State : Type := {
  CurrentSettings : Settings;
  CurrentRuntimeSettings : RuntimeSettings;
  eeprom : Stored;
  appMode : AppModeValues;
  menuIndex : Z
}.

(** Assignments to one member. *)
Definition set_Active (v : Z) (i : InputSettings) : InputSettings :=
  {| Active := v; MaxVol := MaxVol i; MinVol := MinVol i |}.

Definition set_MaxVol (v : Z) (i : InputSettings) : InputSettings :=
  {| Active := Active i; MaxVol := v; MinVol := MinVol i |}.

Definition set_MinVol (v : Z) (i : InputSettings) : InputSettings :=
  {| Active := Active i; MaxVol := MaxVol i; MinVol := v |}.

Definition set_VolumeSteps (v : Z) (s : Settings) : Settings :=
  {| VolumeSteps := v; MinAttenuation := MinAttenuation s;
     MaxAttenuation := MaxAttenuation s; MaxStartVolume := MaxStartVolume s;
     MuteLevel := MuteLevel s; RecallSetLevel := RecallSetLevel s; Input := Input s |}.

Definition set_MinAttenuation (v : Z) (s : Settings) : Settings :=
  {| VolumeSteps := VolumeSteps s; MinAttenuation := v;
     MaxAttenuation := MaxAttenuation s; MaxStartVolume := MaxStartVolume s;
     MuteLevel := MuteLevel s; RecallSetLevel := RecallSetLevel s; Input := Input s |}.

Definition set_MaxAttenuation (v : Z) (s : Settings) : Settings :=
  {| VolumeSteps := VolumeSteps s; MinAttenuation := MinAttenuation s;
     MaxAttenuation := v; MaxStartVolume := MaxStartVolume s;
     MuteLevel := MuteLevel s; RecallSetLevel := RecallSetLevel s; Input := Input s |}.

Definition set_MaxStartVolume (v : Z) (s : Settings) : Settings :=
  {| VolumeSteps := VolumeSteps s; MinAttenuation := MinAttenuation s;
     MaxAttenuation := MaxAttenuation s; MaxStartVolume := v;
     MuteLevel := MuteLevel s; RecallSetLevel := RecallSetLevel s; Input := Input s |}.

Definition set_MuteLevel (v : Z) (s : Settings) : Settings :=
  {| VolumeSteps := VolumeSteps s; MinAttenuation := MinAttenuation s;
     MaxAttenuation := MaxAttenuation s; MaxStartVolume := MaxStartVolume s;
     MuteLevel := v; RecallSetLevel := RecallSetLevel s; Input := Input s |}.

Definition set_RecallSetLevel (v : Z) (s : Settings) : Settings :=
  {| VolumeSteps := VolumeSteps s; MinAttenuation := MinAttenuation s;
     MaxAttenuation := MaxAttenuation s; MaxStartVolume := MaxStartVolume s;
     MuteLevel := MuteLevel s; RecallSetLevel := v; Input := Input s |}.

Definition set_Input (v : list InputSettings) (s : Settings) : Settings :=
  {| VolumeSteps := VolumeSteps s; MinAttenuation := MinAttenuation s;
     MaxAttenuation := MaxAttenuation s; MaxStartVolume := MaxStartVolume s;
     MuteLevel := MuteLevel s; RecallSetLevel := RecallSetLevel s; Input := v |}.

Definition set_CurrentInput (v : Z) (r : RuntimeSettings) : RuntimeSettings :=
  {| CurrentInput := v; CurrentVolume := CurrentVolume r;
     CurrentAttenuation := CurrentAttenuation r; Muted := Muted r;
     InputLastVol := InputLastVol r; PrevSelectedInput := PrevSelectedInput r |}.

Definition set_CurrentVolume (v : Z) (r : RuntimeSettings) : RuntimeSettings :=
  {| CurrentInput := CurrentInput r; CurrentVolume := v;
     CurrentAttenuation := CurrentAttenuation r; Muted := Muted r;
     InputLastVol := InputLastVol r; PrevSelectedInput := PrevSelectedInput r |}.

Definition set_CurrentAttenuation (v : Z) (r : RuntimeSettings) : RuntimeSettings :=
  {| CurrentInput := CurrentInput r; CurrentVolume := CurrentVolume r;
     CurrentAttenuation := v; Muted := Muted r;
     InputLastVol := InputLastVol r; PrevSelectedInput := PrevSelectedInput r |}.

Definition set_Muted (v : bool) (r : RuntimeSettings) : RuntimeSettings :=
  {| CurrentInput := CurrentInput r; CurrentVolume := CurrentVolume r;
     CurrentAttenuation := CurrentAttenuation r; Muted := v;
     InputLastVol := InputLastVol r; PrevSelectedInput := PrevSelectedInput r |}.

Definition set_InputLastVol (v : list Z) (r : RuntimeSettings) : RuntimeSettings :=
  {| CurrentInput := CurrentInput r; CurrentVolume := CurrentVolume r;
     CurrentAttenuation := CurrentAttenuation r; Muted := Muted r;
     InputLastVol := v; PrevSelectedInput := PrevSelectedInput r |}.

Definition set_PrevSelectedInput (v : Z) (r : RuntimeSettings) : RuntimeSettings :=
  {| CurrentInput := CurrentInput r; CurrentVolume := CurrentVolume r;
     CurrentAttenuation := CurrentAttenuation r; Muted := Muted r;
     InputLastVol := InputLastVol r; PrevSelectedInput := v |}.

Definition set_settings (v : Settings) (st : State) : State :=
  {| CurrentSettings := v; CurrentRuntimeSettings := CurrentRuntimeSettings st;
     eeprom := eeprom st; appMode := appMode st; menuIndex := menuIndex st |}.

Definition set_runtime (v : RuntimeSettings) (st : State) : State :=
  {| CurrentSettings := CurrentSettings st; CurrentRuntimeSettings := v;
     eeprom := eeprom st; appMode := appMode st; menuIndex := menuIndex st |}.

Definition set_eeprom (v : Stored) (st : State) : State :=
  {| CurrentSettings := CurrentSettings st;
     CurrentRuntimeSettings := CurrentRuntimeSettings st;
     eeprom := v; appMode := appMode st; menuIndex := menuIndex st |}.

(** *** The input of the user *)

Inductive UserInput : Type :=
| KEY_NONE
| KEY_UP
| KEY_DOWN
| KEY_REPEAT
| KEY_SELECT
| KEY_RIGHT
| KEY_LEFT
| KEY_BACK
| KEY_1
| KEY_2
| KEY_3
| KEY_4
| KEY_5
| KEY_6
| KEY_MUTE
| KEY_ONOFF
| KEY_PREVIOUS.

(** The libraries ClickEncoder and IRLremote are not part of the repository.
    Of the first the code uses the values [Clicked] and [DoubleClicked] of the
    button, of the second the members [address] and [command] of the data. *)
Inductive Button : Type :=
| Open
| Closed
| Pressed
| Held
| Released
| Clicked
| DoubleClicked.

Record HashIR_data_t : Type := {
  address : Z;
  command : Z
}.

(** The members [IR_...] of [Settings]. *)
Record IRCodes : Type := {
  IR_ONOFF : HashIR_data_t;
  IR_UP : HashIR_data_t;
  IR_DOWN : HashIR_data_t;
  IR_REPEAT : HashIR_data_t;
  IR_LEFT : HashIR_data_t;
  IR_RIGHT : HashIR_data_t;
  IR_SELECT : HashIR_data_t;
  IR_BACK : HashIR_data_t;
  IR_MUTE : HashIR_data_t;
  IR_PREVIOUS : HashIR_data_t;
  IR_1 : HashIR_data_t;
  IR_2 : HashIR_data_t;
  IR_3 : HashIR_data_t;
  IR_4 : HashIR_data_t;
  IR_5 : HashIR_data_t;
  IR_6 : HashIR_data_t
}.

(** What one call of [getUserInput] finds: the two encoder movements, the two
    buttons, and the IR data when [IRLremote.available()]. *)
Record Poll : Type := {
  value1 : Z;
  button1 : Button;
  value2 : Z;
  button2 : Button;
  irData : option HashIR_data_t
}.

(** The globals of [getUserInput] up to the IR block. *)
Record InputState : Type := {
  e1value : Z;
  e1last : Z;
  e2value : Z;
  e2last : Z;
  lastReceivedInput : UserInput
}.

(** [data.address == c.address && data.command == c.command] *)
Definition sameCode (data c : HashIR_data_t) : bool :=
  (address data =? address c) && (command data =? command c).

(** The chain of [if]s that maps the IR data to a key. *)
Definition mapIR (cs : IRCodes) (data : HashIR_data_t)
    (receivedInput lastReceivedInput : UserInput) : UserInput :=
  if sameCode data (IR_UP cs) then KEY_UP
  else if sameCode data (IR_DOWN cs) then KEY_DOWN
  else if sameCode data (IR_LEFT cs) then KEY_LEFT
  else if sameCode data (IR_RIGHT cs) then KEY_RIGHT
  else if sameCode data (IR_SELECT cs) then KEY_SELECT
  else if sameCode data (IR_BACK cs) then KEY_BACK
  else if sameCode data (IR_MUTE cs) then KEY_MUTE
  else if sameCode data (IR_ONOFF cs) then KEY_ONOFF
  else if sameCode data (IR_1 cs) then KEY_1
  else if sameCode data (IR_2 cs) then KEY_2
  else if sameCode data (IR_3 cs) then KEY_3
  else if sameCode data (IR_4 cs) then KEY_4
  else if sameCode data (IR_5 cs) then KEY_5
  else if sameCode data (IR_6 cs) then KEY_6
  else if sameCode data (IR_REPEAT cs) then
    match lastReceivedInput with
    | KEY_UP => KEY_UP
    | KEY_DOWN => KEY_DOWN
    | _ => KEY_REPEAT
    end
  else receivedInput.

(** [getUserInput] from its first line to the end of the IR block: the value
    of [receivedInput] there and the globals.  What follows in the function
    (the test of [KEY_ONOFF], the screen saver and the inactivity timer)
    replaces [KEY_ONOFF] by [KEY_NONE] or goes to standby and changes no other
    value of [receivedInput]. *)
Definition receiveInput (cs : IRCodes) (p : Poll) (s : InputState)
    : UserInput * InputState :=
  let receivedInput := KEY_NONE in
  let e1 := int16 (e1value s + value1 p) in
  let receivedInput :=
    if e1 =? e1last s then receivedInput
    else
      let r := if e1last s <? e1 then KEY_UP else receivedInput in
      if e1 <? e1last s then KEY_DOWN else r in
  let receivedInput :=
    match button1 p with
    | Clicked => KEY_SELECT
    | _ => receivedInput
    end in
  let e2 := int16 (e2value s + value2 p) in
  let receivedInput :=
    if e2 =? e2last s then receivedInput
    else
      let r := if e2last s <? e2 then KEY_RIGHT else receivedInput in
      if e2 <? e2last s then KEY_LEFT else r in
  let receivedInput :=
    match button2 p with
    | Clicked => KEY_BACK
    | DoubleClicked => KEY_ONOFF
    | _ => receivedInput
    end in
  let received :=
    match irData p with
    | Some data => mapIR cs data receivedInput (lastReceivedInput s)
    | None => receivedInput
    end in
  (received,
   {| e1value := e1; e1last := e1; e2value := e2; e2last := e2;
      lastReceivedInput :=
        match irData p with
        | Some _ => received
        | None => lastReceivedInput s
        end |}).

(** Successive calls. *)
Fixpoint receiveAll (cs : IRCodes) (ps : list Poll) (s : InputState)
    : list UserInput :=
  match ps with
  | nil => nil
  | p :: ps' =>
      let (k, s') := receiveInput cs p s in
      k :: receiveAll cs ps' s'
  end.

(** A call that finds the encoders at rest and the buttons open. *)
Definition irPoll (d : option HashIR_data_t) : Poll :=
  {| value1 := 0; button1 := Open; value2 := 0; button2 := Open; irData := d |}.

(** The encoders are where the last call left them. *)
Definition atRest (s : InputState) : Prop :=
  e1value s = e1last s /\ -32768 <= e1value s <= 32767
  /\ e2value s = e2last s /\ -32768 <= e2value s <= 32767.

(** What the repeat code stands for after key [k]. *)
Definition repeated (k : UserInput) : UserInput :=
  match k with
  | KEY_UP => KEY_UP
  | KEY_DOWN => KEY_DOWN
  | _ => KEY_REPEAT
  end.

(** *** The EEPROM images *)

Definition writeSettingsToEEPROM (st : State) : State :=
  set_eeprom
    {| storedSettings := CurrentSettings st;
       storedRuntimeSettings := storedRuntimeSettings (eeprom st);
       storedUserSettings := storedUserSettings (eeprom st) |} st.

Definition readSettingsFromEEPROM (st : State) : State :=
  set_settings (storedSettings (eeprom st)) st.

Definition writeRuntimeSettingsToEEPROM (st : State) : State :=
  set_eeprom
    {| storedSettings := storedSettings (eeprom st);
       storedRuntimeSettings := CurrentRuntimeSettings st;
       storedUserSettings := storedUserSettings (eeprom st) |} st.

Definition readRuntimeSettingsFromEEPROM (st : State) : State :=
  set_runtime (storedRuntimeSettings (eeprom st)) st.

Definition readUserSettingsFromEEPROM (st : State) : State :=
  set_settings (storedUserSettings (eeprom st)) st.

Definition writeUserSettingsToEEPROM (st : State) : State :=
  set_eeprom
    {| storedSettings := storedSettings (eeprom st);
       storedRuntimeSettings := storedRuntimeSettings (eeprom st);
       storedUserSettings := CurrentSettings st |} st.

(** [setCurrentSettingsToDefault], on the members kept here. *)
Definition defaultInput : InputSettings :=
  {| Active := 1; MaxVol := 60; MinVol := 0 |}.

Definition defaultSettings : Settings :=
  {| VolumeSteps := 60; MinAttenuation := 0; MaxAttenuation := 60;
     MaxStartVolume := 60; MuteLevel := 0; RecallSetLevel := 1;
     Input := defaultInput :: defaultInput :: defaultInput
              :: defaultInput :: defaultInput :: defaultInput :: nil |}.

Definition defaultRuntimeSettings : RuntimeSettings :=
  {| CurrentInput := 0; CurrentVolume := 0; CurrentAttenuation := 0;
     Muted := false; InputLastVol := 0 :: 0 :: 0 :: 0 :: 0 :: 0 :: nil;
     PrevSelectedInput := 0 |}.

Definition setCurrentSettingsToDefault (st : State) : State :=
  set_runtime defaultRuntimeSettings (set_settings defaultSettings st).

Definition writeDefaultSettingsToEEPROM (st : State) : State :=
  writeRuntimeSettingsToEEPROM
    (writeSettingsToEEPROM (setCurrentSettingsToDefault st)).

(** *** [setVolume] on the whole state *)

Definition setVolume (st : State) : State :=
  let cs := CurrentSettings st in
  let rt := CurrentRuntimeSettings st in
  set_runtime
    (set_CurrentAttenuation
       (getAttenuation (VolumeSteps cs) (CurrentVolume rt)
                       (MinAttenuation cs) (MaxAttenuation cs)) rt) st.

(** *** [loop] in normal mode *)

(** The two loops that look for the next active input.  The first starts from
    [nextInput] and counts up, the second counts down and tests
    [CurrentInput]. *)
Fixpoint nextActiveUp (fuel : nat) (inputs : list InputSettings) (nextInput : Z)
    : outcome Z :=
  match lookup inputs nextInput with
  | None => OutOfBounds
  | Some inp =>
      if Active inp =? 0 then
        match fuel with
        | O => OutOfFuel
        | S f =>
            let n := byte (nextInput + 1) in
            nextActiveUp f inputs (if 5 <? n then 0 else n)
        end
      else Done nextInput
  end.

Fixpoint nextActiveDown (fuel : nat) (inputs : list InputSettings)
    (CurrentInput nextInput : Z) : outcome Z :=
  match lookup inputs nextInput with
  | None => OutOfBounds
  | Some inp =>
      if Active inp =? 0 then
        match fuel with
        | O => OutOfFuel
        | S f =>
            nextActiveDown f inputs CurrentInput
              (if CurrentInput =? 0 then 5 else byte (nextInput - 1))
        end
      else Done nextInput
  end.

(** The block under [if (CurrentRuntimeSettings.CurrentInput != nextInput)],
    the same for [KEY_LEFT], [KEY_RIGHT] and [KEY_1] to [KEY_6]. *)
Definition changeInput (nextInput : Z) (st : State) : outcome State :=
  let rt := CurrentRuntimeSettings st in
  if CurrentInput rt =? nextInput then Done st
  else
    let rt1 := set_CurrentInput nextInput (set_PrevSelectedInput (CurrentInput rt) rt) in
    if RecallSetLevel (CurrentSettings st) =? 0 then Done (set_runtime rt1 st)
    else
      match lookup (InputLastVol rt1) (CurrentInput rt1) with
      | None => OutOfBounds
      | Some v => Done (set_runtime (set_CurrentVolume v rt1) st)
      end.

(** The statements under the [if] of [KEY_UP] and [KEY_DOWN], once the
    volume [v] is computed and stored in [InputLastVol]. *)
Definition moved (v : Z) (l : list Z) (st : State) : State :=
  setVolume
    (set_runtime
       (set_InputLastVol l (set_CurrentVolume v (CurrentRuntimeSettings st))) st).

Definition volumeUp (st : State) : outcome State :=
  let rt := CurrentRuntimeSettings st in
  if Muted rt then Done st
  else
    match lookup (Input (CurrentSettings st)) (CurrentInput rt) with
    | None => OutOfBounds
    | Some inp =>
        if CurrentVolume rt <? MaxVol inp then
          let v := byte (CurrentVolume rt + 1) in
          match store (InputLastVol rt) (CurrentInput rt) v with
          | None => OutOfBounds
          | Some l => Done (moved v l st)
          end
        else Done st
    end.

Definition volumeDown (st : State) : outcome State :=
  let rt := CurrentRuntimeSettings st in
  if Muted rt then Done st
  else
    match lookup (Input (CurrentSettings st)) (CurrentInput rt) with
    | None => OutOfBounds
    | Some inp =>
        if MinVol inp <? CurrentVolume rt then
          let v := byte (CurrentVolume rt - 1) in
          match store (InputLastVol rt) (CurrentInput rt) v with
          | None => OutOfBounds
          | Some l => Done (moved v l st)
          end
        else Done st
    end.

Definition inputRight (fuel : nat) (st : State) : outcome State :=
  let cur := CurrentInput (CurrentRuntimeSettings st) in
  let nextInput := if cur =? 5 then 0 else byte (cur + 1) in
  match nextActiveUp fuel (Input (CurrentSettings st)) nextInput with
  | Done n => changeInput n st
  | OutOfBounds => OutOfBounds
  | OutOfFuel => OutOfFuel
  end.

Definition inputLeft (fuel : nat) (st : State) : outcome State :=
  let cur := CurrentInput (CurrentRuntimeSettings st) in
  let nextInput := if cur =? 0 then 5 else byte (cur - 1) in
  match nextActiveDown fuel (Input (CurrentSettings st)) cur nextInput with
  | Done n => changeInput n st
  | OutOfBounds => OutOfBounds
  | OutOfFuel => OutOfFuel
  end.

Definition inputDirect (inputNumber : Z) (st : State) : outcome State :=
  match lookup (Input (CurrentSettings st)) inputNumber with
  | None => OutOfBounds
  | Some inp => if Active inp =? 0 then Done st else changeInput inputNumber st
  end.

Definition toggleMute (st : State) : State :=
  let rt := CurrentRuntimeSettings st in
  set_runtime (set_Muted (negb (Muted rt)) rt) st.

(** [switch (UIkey)] under [case APP_NORMAL_MODE]. *)
Definition normalMode (fuel : nat) (UIkey : UserInput) (st : State) : outcome State :=
  match UIkey with
  | KEY_NONE => Done st
  | KEY_BACK =>
      Done {| CurrentSettings := CurrentSettings st;
              CurrentRuntimeSettings := CurrentRuntimeSettings st;
              eeprom := eeprom st;
              appMode := APP_MENU_MODE;
              menuIndex := 0 |}
  | KEY_UP => volumeUp st
  | KEY_DOWN => volumeDown st
  | KEY_RIGHT => inputRight fuel st
  | KEY_LEFT => inputLeft fuel st
  | KEY_1 => inputDirect 0 st
  | KEY_2 => inputDirect 1 st
  | KEY_3 => inputDirect 2 st
  | KEY_4 => inputDirect 3 st
  | KEY_5 => inputDirect 4 st
  | KEY_6 => inputDirect 5 st
  | KEY_PREVIOUS => Done st
  | KEY_MUTE => Done (toggleMute st)
  | KEY_REPEAT | KEY_SELECT | KEY_ONOFF => Done st
  end.

(** Successive passes of [loop] in normal mode, one key each; [fuel] bounds
    each search for an input. *)
Fixpoint normalModeAll (fuel : nat) (keys : list UserInput) (st : State)
    : outcome State :=
  match keys with
  | nil => Done st
  | k :: keys' =>
      match normalMode fuel k st with
      | Done st' => normalModeAll fuel keys' st'
      | OutOfBounds => OutOfBounds
      | OutOfFuel => OutOfFuel
      end
  end.

(** *** The value editors *)

(** How a function that reads keys ends: it returns, it is still waiting at
    the end of the keys, or it has left an array. *)
Inductive result (A : Type) : Type :=
| Returns (a : A) (st : State) (rest : list UserInput)
| Waiting
| Invalid.

Arguments Returns {A} a st rest.
Arguments Waiting {A}.
Arguments Invalid {A}.

(** The [while (!complete)] loop of [editNumericValue] on the local
    [NewValue]: [Some v] is [KEY_SELECT] at value [v], [None] is
    [KEY_BACK]. *)
Fixpoint editNumericLoop (NewValue MinValue MaxValue : Z) (keys : list UserInput)
    : option (option Z * list UserInput) :=
  match keys with
  | nil => None
  | k :: rest =>
      match k with
      | KEY_RIGHT =>
          editNumericLoop
            (if NewValue <? MaxValue then byte (NewValue + 1) else NewValue)
            MinValue MaxValue rest
      | KEY_LEFT =>
          editNumericLoop
            (if MinValue <? NewValue then byte (NewValue - 1) else NewValue)
            MinValue MaxValue rest
      | KEY_SELECT => Some (Some NewValue, rest)
      | KEY_BACK => Some (None, rest)
      | _ => editNumericLoop NewValue MinValue MaxValue rest
      end
  end.

(** The loop of [editOptionValue]. *)
Fixpoint editOptionLoop (NewValue NumOptions : Z) (keys : list UserInput)
    : option (option Z * list UserInput) :=
  match keys with
  | nil => None
  | k :: rest =>
      match k with
      | KEY_RIGHT =>
          editOptionLoop
            (if NewValue <? NumOptions - 1 then byte (NewValue + 1) else 0)
            NumOptions rest
      | KEY_LEFT =>
          editOptionLoop
            (if NewValue =? 0 then byte (NumOptions - 1) else byte (NewValue - 1))
            NumOptions rest
      | KEY_SELECT => Some (Some NewValue, rest)
      | KEY_BACK => Some (None, rest)
      | _ => editOptionLoop NewValue NumOptions rest
      end
  end.

(** The argument [byte &Value]: a member of the settings that is read and
    assigned. *)
Record reference : Type := {
  load : State -> option Z;
  assign : Z -> State -> option State
}.

Definition member (get : Settings -> Z) (set : Z -> Settings -> Settings) : reference :=
  {| load := fun st => Some (get (CurrentSettings st));
     assign := fun v st => Some (set_settings (set v (CurrentSettings st)) st) |}.

Definition inputMember (n : Z) (get : InputSettings -> Z)
    (set : Z -> InputSettings -> InputSettings) : reference :=
  {| load := fun st =>
       match lookup (Input (CurrentSettings st)) n with
       | Some inp => Some (get inp)
       | None => None
       end;
     assign := fun v st =>
       match lookup (Input (CurrentSettings st)) n with
       | Some inp =>
           match store (Input (CurrentSettings st)) n (set v inp) with
           | Some l => Some (set_settings (set_Input l (CurrentSettings st)) st)
           | None => None
           end
       | None => None
       end |}.

Definition finishEdit (Value : reference) (st : State)
    (r : option (option Z * list UserInput)) : result bool :=
  match r with
  | None => Waiting
  | Some (None, rest) => Returns false st rest
  | Some (Some v, rest) =>
      match assign Value v st with
      | Some st' => Returns true (writeSettingsToEEPROM st') rest
      | None => Invalid
      end
  end.

(** [bool editNumericValue(byte &Value, byte MinValue, byte MaxValue, ...)] *)
Definition editNumericValue (Value : reference) (MinValue MaxValue : Z)
    (keys : list UserInput) (st : State) : result bool :=
  match load Value st with
  | None => Invalid
  | Some v => finishEdit Value st (editNumericLoop v MinValue MaxValue keys)
  end.

(** [bool editOptionValue(byte &Value, byte NumOptions, ...)] *)
Definition editOptionValue (Value : reference) (NumOptions : Z)
    (keys : list UserInput) (st : State) : result bool :=
  match load Value st with
  | None => Invalid
  | Some v => finishEdit Value st (editOptionLoop v NumOptions keys)
  end.

(** *** The menu commands on the volume and input settings *)

(** The commands of MenuData.h whose cases edit the members kept here. *)
Inductive MenuCommand : Type :=
| mnuCmdVOL_STEPS
| mnuCmdMIN_ATT
| mnuCmdMAX_ATT
| mnuCmdMAX_START_VOL
| mnuCmdMUTE_LVL
| mnuCmdSTORE_LVL
| mnuCmdINPUT1_ACTIVE
| mnuCmdINPUT1_MAX_VOL
| mnuCmdINPUT1_MIN_VOL
| mnuCmdINPUT2_ACTIVE
| mnuCmdINPUT2_MAX_VOL
| mnuCmdINPUT2_MIN_VOL
| mnuCmdINPUT3_ACTIVE
| mnuCmdINPUT3_MAX_VOL
| mnuCmdINPUT3_MIN_VOL
| mnuCmdINPUT4_ACTIVE
| mnuCmdINPUT4_MAX_VOL
| mnuCmdINPUT4_MIN_VOL
| mnuCmdINPUT5_ACTIVE
| mnuCmdINPUT5_MAX_VOL
| mnuCmdINPUT5_MIN_VOL
| mnuCmdINPUT6_ACTIVE
| mnuCmdINPUT6_MAX_VOL
| mnuCmdINPUT6_MIN_VOL
| mnuCmdSAVE_CUST.

(** The two [for] loops, the two [if]s and the writes that follow an accepted
    number of steps. *)
Definition clampMaxVol (steps : Z) (inp : InputSettings) : InputSettings :=
  if steps <? MaxVol inp then set_MaxVol steps inp else inp.

Definition clampMinVol (steps : Z) (inp : InputSettings) : InputSettings :=
  if steps <? MinVol inp then set_MinVol steps inp else inp.

Fixpoint forInputs (f : InputSettings -> InputSettings) (i : Z) (n : nat)
    (inputs : list InputSettings) : option (list InputSettings) :=
  match n with
  | O => Some inputs
  | S m =>
      match lookup inputs i with
      | None => None
      | Some inp =>
          match store inputs i (f inp) with
          | None => None
          | Some l => forInputs f (i + 1) m l
          end
      end
  end.

Definition validateVolumeSteps (st : State) : outcome State :=
  let steps := VolumeSteps (CurrentSettings st) in
  match forInputs (clampMaxVol steps) 0 6 (Input (CurrentSettings st)) with
  | None => OutOfBounds
  | Some l1 =>
      match forInputs (clampMinVol steps) 0 6 l1 with
      | None => OutOfBounds
      | Some l2 =>
          let cs := set_Input l2 (CurrentSettings st) in
          let cs := if steps <? MaxStartVolume cs then set_MaxStartVolume steps cs else cs in
          let st := set_settings cs st in
          let rt := CurrentRuntimeSettings st in
          if steps <? CurrentVolume rt then
            let st := set_runtime (set_CurrentVolume steps rt) st in
            let st := if Muted rt then st else setVolume st in
            Done (writeRuntimeSettingsToEEPROM (writeSettingsToEEPROM st))
          else Done st
      end
  end.

(** A case that calls an editor, sets [complete] and breaks. *)
Definition completed (r : result bool) : result bool :=
  match r with
  | Returns _ st rest => Returns true st rest
  | Waiting => Waiting
  | Invalid => Invalid
  end.

Definition editActive (n : Z) (keys : list UserInput) (st : State) : result bool :=
  if CurrentInput (CurrentRuntimeSettings st) =? n then Returns true st keys
  else completed (editOptionValue (inputMember n Active set_Active) 2 keys st).

Definition editMaxVol (n : Z) (keys : list UserInput) (st : State) : result bool :=
  completed
    (editNumericValue (inputMember n MaxVol set_MaxVol) 0
       (VolumeSteps (CurrentSettings st)) keys st).

Definition editMinVol (n : Z) (keys : list UserInput) (st : State) : result bool :=
  match lookup (Input (CurrentSettings st)) n with
  | None => Invalid
  | Some inp =>
      completed
        (editNumericValue (inputMember n MinVol set_MinVol) 0 (MaxVol inp) keys st)
  end.

Definition editMinAttenuation (keys : list UserInput) (st : State) : result bool :=
  completed
    (editNumericValue (member MinAttenuation set_MinAttenuation) 0
       (MaxAttenuation (CurrentSettings st)) keys st).

(** [byte processMenuCommand(byte cmdId)] on these commands.  Every case sets
    [complete] before its [break], so the initial test of [UIkey] does not
    show in the result.  The [break] of [mnuCmdVOL_STEPS] is inside the [if]:
    when [editNumericValue] returns false the control falls into the case of
    [mnuCmdMIN_ATT]. *)
Definition processMenuCommand (cmdId : MenuCommand) (keys : list UserInput)
    (st : State) : result bool :=
  match cmdId with
  | mnuCmdVOL_STEPS =>
      match editNumericValue (member VolumeSteps set_VolumeSteps) 1 179 keys st with
      | Returns true st1 rest =>
          match validateVolumeSteps st1 with
          | Done st2 => Returns true st2 rest
          | _ => Invalid
          end
      | Returns false st1 rest => editMinAttenuation rest st1
      | Waiting => Waiting
      | Invalid => Invalid
      end
  | mnuCmdMIN_ATT => editMinAttenuation keys st
  | mnuCmdMAX_ATT =>
      completed
        (editNumericValue (member MaxAttenuation set_MaxAttenuation)
           (byte (MinAttenuation (CurrentSettings st) + 1)) 90 keys st)
  | mnuCmdMAX_START_VOL =>
      completed
        (editNumericValue (member MaxStartVolume set_MaxStartVolume) 0
           (VolumeSteps (CurrentSettings st)) keys st)
  | mnuCmdMUTE_LVL =>
      completed
        (editNumericValue (member MuteLevel set_MuteLevel) 0
           (MaxAttenuation (CurrentSettings st)) keys st)
  | mnuCmdSTORE_LVL =>
      completed (editOptionValue (member RecallSetLevel set_RecallSetLevel) 2 keys st)
  | mnuCmdINPUT1_ACTIVE => editActive 0 keys st
  | mnuCmdINPUT1_MAX_VOL => editMaxVol 0 keys st
  | mnuCmdINPUT1_MIN_VOL => editMinVol 0 keys st
  | mnuCmdINPUT2_ACTIVE => editActive 1 keys st
  | mnuCmdINPUT2_MAX_VOL => editMaxVol 1 keys st
  | mnuCmdINPUT2_MIN_VOL => editMinVol 1 keys st
  | mnuCmdINPUT3_ACTIVE => editActive 2 keys st
  | mnuCmdINPUT3_MAX_VOL => editMaxVol 2 keys st
  | mnuCmdINPUT3_MIN_VOL => editMinVol 2 keys st
  | mnuCmdINPUT4_ACTIVE => editActive 3 keys st
  | mnuCmdINPUT4_MAX_VOL => editMaxVol 3 keys st
  | mnuCmdINPUT4_MIN_VOL => editMinVol 3 keys st
  | mnuCmdINPUT5_ACTIVE => editActive 4 keys st
  | mnuCmdINPUT5_MAX_VOL => editMaxVol 4 keys st
  | mnuCmdINPUT5_MIN_VOL => editMinVol 4 keys st
  | mnuCmdINPUT6_ACTIVE => editActive 5 keys st
  | mnuCmdINPUT6_MAX_VOL => editMaxVol 5 keys st
  | mnuCmdINPUT6_MIN_VOL => editMinVol 5 keys st
  | mnuCmdSAVE_CUST => Returns true (writeUserSettingsToEEPROM st) keys
  end.

(** *** Predicates of the statements *)

(** The arrays have six elements and the current input is one of them. *)
Definition wellFormed (st : State) : Prop :=
  length (Input (CurrentSettings st)) = 6%nat
  /\ length (InputLastVol (CurrentRuntimeSettings st)) = 6%nat
  /\ 0 <= CurrentInput (CurrentRuntimeSettings st) <= 5.

(** The limits of input [i] and the volume remembered for it. *)
Definition inputLimits (st : State) (i : Z) (lo v hi : Z) : Prop :=
  exists inp,
    lookup (Input (CurrentSettings st)) i = Some inp
    /\ lo = MinVol inp /\ hi = MaxVol inp
    /\ lookup (InputLastVol (CurrentRuntimeSettings st)) i = Some v.

Definition active (st : State) (i : Z) : Prop :=
  exists inp, lookup (Input (CurrentSettings st)) i = Some inp /\ Active inp <> 0.

(** [CurrentAttenuation] is the code of [CurrentVolume]. *)
Definition attenuationSet (st : State) : Prop :=
  CurrentAttenuation (CurrentRuntimeSettings st)
  = getAttenuation (VolumeSteps (CurrentSettings st))
                   (CurrentVolume (CurrentRuntimeSettings st))
                   (MinAttenuation (CurrentSettings st))
                   (MaxAttenuation (CurrentSettings st)).

(** The volumes are remembered per input: the current input is active, the
    volume remembered for every input is within the limits of that input and
    the current volume is the one remembered for the current input. *)
Definition remembered (st : State) : Prop :=
  wellFormed st
  /\ RecallSetLevel (CurrentSettings st) <> 0
  /\ active st (CurrentInput (CurrentRuntimeSettings st))
  /\ lookup (InputLastVol (CurrentRuntimeSettings st))
            (CurrentInput (CurrentRuntimeSettings st))
     = Some (CurrentVolume (CurrentRuntimeSettings st))
  /\ forall i inp v,
       lookup (Input (CurrentSettings st)) i = Some inp ->
       lookup (InputLastVol (CurrentRuntimeSettings st)) i = Some v ->
       0 <= MinVol inp <= v /\ v <= MaxVol inp <= 255.

(** The default settings with the inputs of the list [off] switched off. *)
Definition withInactive (off : list Z) (st : State) : State :=
  set_settings
    (set_Input
       (map (fun i => if existsb (Z.eqb i) off then set_Active 0 defaultInput
                      else defaultInput)
            (Interval.upto 0 6))
       (CurrentSettings st)) st.

(** The state after [writeDefaultSettingsToEEPROM] and a restart. *)
Definition defaultState : State :=
  {| CurrentSettings := defaultSettings;
     CurrentRuntimeSettings := defaultRuntimeSettings;
     eeprom := {| storedSettings := defaultSettings;
                  storedRuntimeSettings := defaultRuntimeSettings;
                  storedUserSettings := defaultSettings |};
     appMode := APP_NORMAL_MODE;
     menuIndex := 0 |}.

End Controller.

(** ** The supply voltage (src/src/main.cpp, [loop]) *)

Module Power.

(** [vcc = ADCL; vcc |= ADCH << 8;] *)
Definition reading (ADCL ADCH : Z) : Z := Z.lor ADCL (Z.shiftl ADCH 8).

(** [vcc = 1126400L / vcc;] the division of C truncates. *)
Definition millivolts (vcc : Z) : Z := Z.quot 1126400 vcc.

(** [if (vcc > 3000 && vcc < 4600)]: the runtime settings are written and the
    mode becomes [APP_POWERLOSS_STATE]. *)
Definition powerLoss (ADCL ADCH : Z) : bool :=
  let vcc := millivolts (reading ADCL ADCH) in
  (3000 <? vcc) && (vcc <? 4600).

(** [do ... while (vcc < 4700)] in [APP_POWERLOSS_STATE]: the loop is left, and
    the controller restarted, when the test fails. *)
Definition powerBack (ADCL ADCH : Z) : bool :=
  negb (millivolts (reading ADCL ADCH) <? 4700).

End Power.

(** ** The temperature bar (src/src/main.cpp, [displayTemperatures]) *)

Module Bar.

(** [map] of the Arduino core is not part of the repository; it is
    [(x - in_min) * (out_max - out_min) / (in_max - in_min) + out_min] on
    [long]. *)
Definition arduino_map (x in_min in_max out_min out_max : Z) : Z :=
  Z.quot ((x - in_min) * (out_max - out_min)) (in_max - in_min) + out_min.

(** The [for] loop over the characters of the bar: the bytes given to
    [oled.write], from [nb_columns] and the number of characters left. *)
Fixpoint bar (characters : nat) (nb_columns : Z) : list Z :=
  match characters with
  | O => nil
  | S n =>
      if nb_columns =? 0 then 32 :: bar n nb_columns
      else if 5 <=? nb_columns then 208 :: bar n (Controller.byte (nb_columns - 5))
      else Controller.byte (arduino_map nb_columns 1 4 212 209) :: bar n 0
  end.

(** The columns that a character of the bar shows: the source has 208 for
    the full box and 212, 211, 210, 209 for one to four bars. *)
Definition columns (c : Z) : Z :=
  if c =? 208 then 5
  else if (209 <=? c) && (c <=? 212) then 213 - c
  else 0.

Definition shown (cs : list Z) : Z := fold_right (fun c n => columns c + n) 0 cs.

Fixpoint sorted (cs : list Z) : bool :=
  match cs with
  | c :: ((d :: _) as t) => (columns d <=? columns c) && sorted t
  | _ => true
  end.

(** The same characters. *)
Fixpoint same (a b : list Z) : bool :=
  match a, b with
  | nil, nil => true
  | x :: a', y :: b' => (x =? y) && same a' b'
  | _, _ => false
  end.

(** The picture of [n] columns on four characters: a full box for every
    five columns, one partial box when [n] is not a multiple of five,
    blanks. *)
Definition picture (n : Z) : list Z :=
  let full := Z.to_nat (n / 5) in
  let partial := if n mod 5 =? 0 then nil else (213 - n mod 5) :: nil in
  repeat 208 full ++ partial ++ repeat 32 (4 - full - length partial).

End Bar.

(** ** The EEPROM addresses (src/src/main.cpp) *)

Module Eeprom.

(** The library extEEPROM is not part of the repository.  The device is the
    24C64 of the declaration [extEEPROM eeprom(kbits_64, 1, 32)], 8192 bytes;
    [eeprom.write] and [eeprom.read] move [nBytes] bytes from the address on and do nothing
    when the bytes do not fit the device. *)
Definition capacity : Z := 8192.

Definition memory : Type := Z -> Z.

Definition eeprom_write (addr : Z) (values : list Z) (m : memory) : memory :=
  if capacity <? addr + Z.of_nat (length values) then m
  else fun a =>
         if (addr <=? a) && (a <? addr + Z.of_nat (length values))
         then nth (Z.to_nat (a - addr)) values 0
         else m a.

Definition eeprom_read (addr : Z) (nBytes : nat) (old : list Z) (m : memory) : list Z :=
  if capacity <? addr + Z.of_nat nBytes then old
  else map m (Interval.upto addr nBytes).

Section Layout.
(** [sizeof(CurrentSettings)] and [sizeof(CurrentRuntimeSettings)]. *)
Variables sizeofSettings sizeofRuntimeSettings : nat.

(** The unions as the program sees them through [data]: their bytes. *)
Record Images : Type := {
  CurrentSettings : list Z;
  CurrentRuntimeSettings : list Z;
  eeprom : memory
}.

Definition writeSettingsToEEPROM (s : Images) : Images :=
  {| CurrentSettings := CurrentSettings s;
     CurrentRuntimeSettings := CurrentRuntimeSettings s;
     eeprom := eeprom_write 0 (firstn sizeofSettings (CurrentSettings s)) (eeprom s) |}.

Definition readSettingsFromEEPROM (s : Images) : Images :=
  {| CurrentSettings := eeprom_read 0 sizeofSettings (CurrentSettings s) (eeprom s);
     CurrentRuntimeSettings := CurrentRuntimeSettings s;
     eeprom := eeprom s |}.

Definition writeRuntimeSettingsToEEPROM (s : Images) : Images :=
  {| CurrentSettings := CurrentSettings s;
     CurrentRuntimeSettings := CurrentRuntimeSettings s;
     eeprom := eeprom_write (Z.of_nat sizeofSettings + 1)
                 (firstn sizeofRuntimeSettings (CurrentRuntimeSettings s)) (eeprom s) |}.

Definition readRuntimeSettingsFromEEPROM (s : Images) : Images :=
  {| CurrentSettings := CurrentSettings s;
     CurrentRuntimeSettings :=
       eeprom_read (Z.of_nat sizeofSettings + 1) sizeofRuntimeSettings
         (CurrentRuntimeSettings s) (eeprom s);
     eeprom := eeprom s |}.

Definition readUserSettingsFromEEPROM (s : Images) : Images :=
  {| CurrentSettings :=
       eeprom_read (Z.of_nat sizeofSettings + Z.of_nat sizeofRuntimeSettings + 1)
         sizeofSettings (CurrentSettings s) (eeprom s);
     CurrentRuntimeSettings := CurrentRuntimeSettings s;
     eeprom := eeprom s |}.

Definition writeUserSettingsToEEPROM (s : Images) : Images :=
  {| CurrentSettings := CurrentSettings s;
     CurrentRuntimeSettings := CurrentRuntimeSettings s;
     eeprom := eeprom_write (Z.of_nat sizeofSettings + Z.of_nat sizeofRuntimeSettings + 1)
                 (firstn sizeofSettings (CurrentSettings s)) (eeprom s) |}.

(** The images have the sizes of their unions and the three fit the device. *)
Definition sized (s : Images) : Prop :=
  length (CurrentSettings s) = sizeofSettings
  /\ length (CurrentRuntimeSettings s) = sizeofRuntimeSettings
  /\ 2 * Z.of_nat sizeofSettings + Z.of_nat sizeofRuntimeSettings + 1 <= capacity.

End Layout.

End Eeprom.

(** ** The padding of display lines (src/src/main.cpp, [padc] and [rpad]) *)

Module Lcd.

(** A buffer of [char] is the list of its bytes; the string in it is what
    comes before the first zero byte. *)
Fixpoint cstring (buf : list Z) : list Z :=
  match buf with
  | nil => nil
  | c :: t => if c =? 0 then nil else c :: cstring t
  end.

(** Writing [bytes] into a buffer from [offset] on; [None] when they do not
    fit, which in C is a write outside the buffer. *)
Definition overwrite (offset : nat) (bytes buf : list Z) : option (list Z) :=
  if (length buf <? offset + length bytes)%nat then None
  else Some (firstn offset buf ++ bytes ++ skipn (offset + length bytes) buf).

(** The functions of string.h that [rpad] calls are not part of the
    repository; they are those of the C standard. *)
Definition strlen (s : list Z) : Z := Z.of_nat (length (cstring s)).

Definition strcpy (dest src : list Z) : option (list Z) :=
  overwrite 0 (cstring src ++ 0 :: nil) dest.

Definition strcat (dest src : list Z) : option (list Z) :=
  overwrite (length (cstring dest)) (cstring src ++ 0 :: nil) dest.

Definition strncpy (dest src : list Z) (n : nat) : option (list Z) :=
  overwrite 0 (firstn n (cstring src) ++ repeat 0 (n - length (cstring src))) dest.

Section Display.
(** [LCD_COLS] of OLedI2C.h is not part of the repository. *)
Variable LCD_COLS : Z.

(** [char *padc(char chr, unsigned char count)]: the bytes that the call
    leaves at the start of its static buffer of [LCD_COLS + 1] bytes. *)
Definition padc (chr count : Z) : list Z :=
  let count := if LCD_COLS <? count then LCD_COLS else count in
  repeat chr (Z.to_nat count) ++ 0 :: nil.

(** [char *rpad(char *dest, const char *str, char chr, unsigned char width)]:
    the buffer [dest] after the call. *)
Definition rpad (dest str : list Z) (chr width : Z) : option (list Z) :=
  let len := Controller.byte (strlen str) in
  let width := if LCD_COLS <? width then LCD_COLS else width in
  if (len <? LCD_COLS) && (len <? width)
  then
    match strcpy dest str with
    | Some d => strcat d (padc chr (Controller.byte (width - len)))
    | None => None
    end
  else strncpy dest str (Z.to_nat (width + 1)).

End Display.

End Lcd.

(** ** The editor of input names (src/src/main.cpp, [editInputName]) *)

Module NameEditor.
Import Controller.

(** The class [String] of the Arduino core is not part of the repository; a
    [String] is the list of its characters, [trim] removes the white space
    ([isspace]) at both ends. *)
Definition isspace (c : Z) : bool := (c =? 32) || ((9 <=? c) && (c <=? 13)).

Fixpoint trimLeft (s : list Z) : list Z :=
  match s with
  | nil => nil
  | c :: t => if isspace c then trimLeft t else s
  end.

Definition trim (s : list Z) : list Z := rev (trimLeft (rev (trimLeft s))).

(** [substring(0, length() - 1)] *)
Definition dropLast (s : list Z) : list Z := firstn (length s - 1) s.

(** The locals of [editInputName]. *)
Record Editor : Type := {
  isUpperCase : bool;
  arrowX : Z;
  arrowPointingUpDown : Z;
  newInputName : list Z
}.

(** [case KEY_RIGHT: case KEY_LEFT:] *)
Definition moveArrow (UserInput : UserInput) (e : Editor) : Editor :=
  let right := match UserInput with KEY_RIGHT => true | _ => false end in
  let left := match UserInput with KEY_LEFT => true | _ => false end in
  if (arrowPointingUpDown e =? 0) && right then
    {| isUpperCase := isUpperCase e; arrowX := arrowX e;
       arrowPointingUpDown := 1; newInputName := newInputName e |}
  else if (arrowPointingUpDown e =? 0) && left then
    {| isUpperCase := isUpperCase e;
       arrowX := if 0 <? arrowX e then arrowX e - 1 else arrowX e;
       arrowPointingUpDown := arrowPointingUpDown e; newInputName := newInputName e |}
  else if (arrowPointingUpDown e =? 1) && right then
    {| isUpperCase := isUpperCase e;
       arrowX := if arrowX e <? 19 then arrowX e + 1 else arrowX e;
       arrowPointingUpDown := arrowPointingUpDown e; newInputName := newInputName e |}
  else if (arrowPointingUpDown e =? 1) && left then
    {| isUpperCase := isUpperCase e; arrowX := arrowX e;
       arrowPointingUpDown := 0; newInputName := newInputName e |}
  else e.

Definition append (c : Z) (e : Editor) : Editor :=
  {| isUpperCase := isUpperCase e; arrowX := arrowX e;
     arrowPointingUpDown := arrowPointingUpDown e;
     newInputName := newInputName e ++ c :: nil |}.

(** The two loops and the assignment that save the new name in
    [Name[11]]: the characters of the name, blanks up to index 9 and a zero at
    index 10; [None] when the name has more than eleven characters, which
    writes outside the array. *)
Definition saveName (s : list Z) : option (list Z) :=
  if (11 <? length s)%nat then None
  else Some (firstn 10 (s ++ repeat 32 (10 - length s)) ++ 0 :: nil).

(** How the editor ends: the name is saved, the editor is left without
    saving, it still waits for a key, or it has written outside [Name]. *)
Inductive finished : Type :=
| Saved (Name : list Z) (rest : list UserInput)
| NotSaved (rest : list UserInput)
| Waiting
| Overflow.

(** [case KEY_SELECT:] what is done to the locals when the editor goes on,
    [None] when it is complete. *)
Definition select (e : Editor) : option Editor :=
  if arrowPointingUpDown e =? 1 then
    if arrowX e =? 17 then
      Some {| isUpperCase := negb (isUpperCase e); arrowX := arrowX e;
              arrowPointingUpDown := arrowPointingUpDown e;
              newInputName := newInputName e |}
    else if arrowX e =? 18 then
      Some (if (0 <? length (newInputName e))%nat
            then {| isUpperCase := isUpperCase e; arrowX := arrowX e;
                    arrowPointingUpDown := arrowPointingUpDown e;
                    newInputName := dropLast (newInputName e) |}
            else e)
    else if arrowX e =? 19 then None
    else if (length (newInputName e) <? 10)%nat then
      let v := if isUpperCase e then 84 else 116 in
      let v := if 6 <? arrowX e then 41 else v in
      Some (append (arrowX e + v) e)
    else Some e
  else if (length (newInputName e) <? 10)%nat then
    if arrowX e =? 0 then Some (append 32 e)
    else if isUpperCase e then Some (append (arrowX e + 64) e)
    else Some (append (arrowX e + 96) e)
  else Some e.

(** The [while (!complete)] loop. *)
Fixpoint editLoop (e : Editor) (keys : list UserInput) : finished :=
  match keys with
  | nil => Waiting
  | k :: rest =>
      match k with
      | KEY_RIGHT | KEY_LEFT => editLoop (moveArrow k e) rest
      | KEY_SELECT =>
          match select e with
          | Some e' => editLoop e' rest
          | None =>
              match trim (newInputName e) with
              | nil => NotSaved rest
              | s =>
                  match saveName s with
                  | Some Name => Saved Name rest
                  | None => Overflow
                  end
              end
          end
      | KEY_BACK => NotSaved rest
      | _ => editLoop e rest
      end
  end.

(** [void editInputName(uint8_t InputNumber)] on the member [Name] of the
    input. *)
Definition editInputName (Name : list Z) (keys : list UserInput) : finished :=
  editLoop {| isUpperCase := true; arrowX := 1; arrowPointingUpDown := 0;
              newInputName := trim (Lcd.cstring Name) |} keys.

(** The characters of the three rows of the screen. *)
Definition keyboard (c : Z) : Prop :=
  c = 32 \/ 48 <= c <= 57 \/ 65 <= c <= 90 \/ 97 <= c <= 122.

(** What the loop keeps: the arrow is over one of the twenty columns, the
    name has at most ten characters, each from the old name or from the
    screen. *)
Definition kept (old : list Z) (e : Editor) : Prop :=
  0 <= arrowX e <= 19
  /\ (length (newInputName e) <= 10)%nat
  /\ Forall (fun c => In c old \/ keyboard c) (newInputName e).

(** What a saved name is. *)
Definition well_formed (old Name : list Z) : Prop :=
  exists s,
    Name = s ++ repeat 32 (10 - length s) ++ 0 :: nil
    /\ (1 <= length s <= 10)%nat
    /\ isspace (hd 0 s) = false
    /\ isspace (last s 0) = false
    /\ Forall (fun c => In c old \/ keyboard c) s.

End NameEditor.

(** ** Standby (src/src/main.cpp, [getUserInput] and [toStandbyMode]) *)

Module Standby.

Import Controller.

(** [unsigned long] on the AVR. *)
Definition uint32 (z : Z) : Z := z mod 4294967296.

(** The members of [Settings] that the rest of [getUserInput] reads.  The
    levels of the display only reach the display, which is left out. *)
Record TimerSettings : Type := {
  ScreenSaverActive : Z;
  DisplayTimeout : Z;
  TriggerInactOffTimer : Z
}.

(** What one call of [getUserInput] finds: the encoders, the buttons and the
    IR data, and the value of each [millis()] that the call may read, in the
    order of the source. *)
Record Call : Type := {
  found : Poll;
  millis_cancel : Z;
  millis_onoff : Z;
  millis_saver : Z;
  millis_input : Z;
  millis_timer : Z
}.

(** The globals of [getUserInput] and [toStandbyMode]. *)
Record Machine : Type := {
  program : State;
  codes : IRCodes;
  timers : TimerSettings;
  inputState : InputState;
  last_KEY_ONOFF : Z;
  ScreenSaverIsOn : bool;
  mil_LastUserInput : Z
}.

Definition set_program (v : State) (m : Machine) : Machine :=
  {| program := v; codes := codes m; timers := timers m;
     inputState := inputState m; last_KEY_ONOFF := last_KEY_ONOFF m;
     ScreenSaverIsOn := ScreenSaverIsOn m;
     mil_LastUserInput := mil_LastUserInput m |}.

Definition set_inputState (v : InputState) (m : Machine) : Machine :=
  {| program := program m; codes := codes m; timers := timers m;
     inputState := v; last_KEY_ONOFF := last_KEY_ONOFF m;
     ScreenSaverIsOn := ScreenSaverIsOn m;
     mil_LastUserInput := mil_LastUserInput m |}.

Definition set_last_KEY_ONOFF (v : Z) (m : Machine) : Machine :=
  {| program := program m; codes := codes m; timers := timers m;
     inputState := inputState m; last_KEY_ONOFF := v;
     ScreenSaverIsOn := ScreenSaverIsOn m;
     mil_LastUserInput := mil_LastUserInput m |}.

Definition set_ScreenSaverIsOn (v : bool) (m : Machine) : Machine :=
  {| program := program m; codes := codes m; timers := timers m;
     inputState := inputState m; last_KEY_ONOFF := last_KEY_ONOFF m;
     ScreenSaverIsOn := v;
     mil_LastUserInput := mil_LastUserInput m |}.

Definition set_mil_LastUserInput (v : Z) (m : Machine) : Machine :=
  {| program := program m; codes := codes m; timers := timers m;
     inputState := inputState m; last_KEY_ONOFF := last_KEY_ONOFF m;
     ScreenSaverIsOn := ScreenSaverIsOn m;
     mil_LastUserInput := v |}.

(** [appMode = v] *)
Definition set_appMode (v : AppModeValues) (m : Machine) : Machine :=
  set_program
    {| CurrentSettings := CurrentSettings (program m);
       CurrentRuntimeSettings := CurrentRuntimeSettings (program m);
       eeprom := eeprom (program m);
       appMode := v;
       menuIndex := menuIndex (program m) |} m.

(** [appMode != APP_STANDBY_MODE] *)
Definition awake (m : Machine) : bool :=
  match appMode (program m) with
  | APP_STANDBY_MODE => false
  | _ => true
  end.

(** [receivedInput == KEY_ONOFF], [receivedInput == KEY_NONE] *)
Definition isOnOff (k : UserInput) : bool :=
  match k with
  | KEY_ONOFF => true
  | _ => false
  end.

Definition isNone (k : UserInput) : bool :=
  match k with
  | KEY_NONE => true
  | _ => false
  end.

(** How a call ends: it returns, or the sketch restarts at [jmp 0] and the
    call never returns.  [Idle] says that the calls that the model was given
    are used up, [OutOfFuel] that its fuel is. *)
Inductive ending (A : Type) : Type :=
| Returns (a : A) (m : Machine) (rest : list Call)
| Restart
| Idle
| OutOfFuel.

Arguments Returns {A} a m rest.
Arguments Restart {A}.
Arguments Idle {A}.
Arguments OutOfFuel {A}.

(** What follows a call in the caller. *)
Definition andThen {A B : Type} (e : ending A)
    (k : A -> Machine -> list Call -> ending B) : ending B :=
  match e with
  | Returns a m rest => k a m rest
  | Restart => Restart
  | Idle => Idle
  | OutOfFuel => OutOfFuel
  end.

(** The block of the screen saver (lines 372-395); the display is left
    out. *)
Definition screenSaver (receivedInput : UserInput) (c : Call) (m : Machine)
    : Machine :=
  if isNone receivedInput
     && negb (ScreenSaverActive (timers m) =? 0)
     && awake m
  then
    if negb (ScreenSaverIsOn m)
       && (uint32 (DisplayTimeout (timers m) * 1000)
           <? uint32 (millis_saver c - mil_LastUserInput m))
    then set_ScreenSaverIsOn true m
    else m
  else
    let m := set_mil_LastUserInput (millis_input c) m in
    if ScreenSaverIsOn m then set_ScreenSaverIsOn false m else m.

(** The test of the inactivity timer (line 398). *)
Definition inactive (c : Call) (m : Machine) : bool :=
  awake m
  && (0 <? TriggerInactOffTimer (timers m))
  && (uint32 (mil_LastUserInput m + TriggerInactOffTimer (timers m) * 3600000)
      <? millis_timer c).

(** [toStandbyMode] up to its loop: the runtime settings are saved and the
    screen saver is ended (the display and the delay are left out). *)
Definition goingToSleep (m : Machine) : Machine :=
  let m := set_program (writeRuntimeSettingsToEEPROM (program m)) m in
  if ScreenSaverIsOn m then set_ScreenSaverIsOn false m else m.

(** [getUserInput] calls [toStandbyMode], whose loop
    [while (getUserInput() != KEY_ONOFF);] calls [getUserInput]: the two are
    defined together, [standbyLoop] being the loop. *)
Fixpoint getUserInput (fuel : nat) (calls : list Call) (m : Machine)
    : ending UserInput :=
  match fuel with
  | O => OutOfFuel
  | S fuel' =>
      match calls with
      | nil => Idle
      | c :: rest =>
          let (receivedInput, s) :=
            receiveInput (codes m) (found c) (inputState m) in
          let m := set_inputState s m in
          let afterOnOff : ending UserInput :=
            if isOnOff receivedInput then
              if millis_cancel c <? uint32 (last_KEY_ONOFF m + 5000)
              then Returns KEY_NONE m rest
              else
                let m := set_last_KEY_ONOFF (millis_onoff c) m in
                if awake m then
                  let m := set_appMode APP_STANDBY_MODE m in
                  andThen (standbyLoop fuel' rest (goingToSleep m))
                    (fun _ m rest => Returns receivedInput m rest)
                else Restart
            else Returns receivedInput m rest in
          andThen afterOnOff
            (fun receivedInput m rest =>
               let m := screenSaver receivedInput c m in
               if inactive c m then
                 let m := set_appMode APP_STANDBY_MODE m in
                 andThen (standbyLoop fuel' rest (goingToSleep m))
                   (fun _ m rest => Returns receivedInput m rest)
               else Returns receivedInput m rest)
      end
  end
with standbyLoop (fuel : nat) (calls : list Call) (m : Machine)
    : ending unit :=
  match fuel with
  | O => OutOfFuel
  | S fuel' =>
      andThen (getUserInput fuel' calls m)
        (fun k m rest =>
           if isOnOff k then Returns tt m rest
           else standbyLoop fuel' rest m)
  end.

(** [toStandbyMode] *)
Definition toStandbyMode (fuel : nat) (calls : list Call) (m : Machine)
    : ending unit :=
  standbyLoop fuel calls (goingToSleep m).

End Standby.

(** * Proofs *)

(** ** Bounded quantification *)

Lemma Interval_upto_In (n : nat) : forall lo z,
  lo <= z < lo + Z.of_nat n -> In z (Interval.upto lo n).
Proof.
  induction n as [|n IH]; intros lo z Hz; simpl.
  - lia.
  - destruct (Z.eq_dec lo z) as [->|Hne]; [now left|right].
    apply IH. lia.
Qed.

Lemma Interval_all_spec (lo hi : Z) (P : Z -> bool) :
  Interval.all lo hi P = true -> forall z, lo <= z <= hi -> P z = true.
Proof.
  unfold Interval.all. intros H z Hz.
  rewrite forallb_forall in H. apply H, Interval_upto_In. lia.
Qed.

Lemma B32_eqb_eq (x y : B32.float) : B32.eqb x y = true -> x = y.
Proof.
  destruct x as [s1|s1| |s1 m1 e1], y as [s2|s2| |s2 m2 e2];
    simpl; try discriminate; try reflexivity.
  - intros H. apply Bool.eqb_prop in H. now subst.
  - intros H. apply Bool.eqb_prop in H. now subst.
  - intros H. apply andb_prop in H. destruct H as [H He].
    apply andb_prop in H. destruct H as [Hs Hm].
    apply Bool.eqb_prop in Hs. apply Pos.eqb_eq in Hm. apply Z.eqb_eq in He.
    now subst.
Qed.

(** ** The integer root *)

Lemma root_bits_spec (s N : Z) (Hs : 1 <= s) : forall (i : nat) (k : Z),
  0 <= k -> k ^ s <= N < (k + 2 ^ (Z.of_nat i + 1)) ^ s ->
  let c := root_bits s N i k in k <= c /\ c ^ s <= N < (c + 1) ^ s.
Proof.
  induction i as [|j IH]; intros k Hk [Hlo Hhi]; cbn [root_bits].
  - change (Z.of_nat 0) with 0 in *. change (2 ^ (0 + 1)) with 2 in Hhi.
    change (2 ^ 0) with 1.
    destruct (Z.leb_spec ((k + 1) ^ s) N) as [H|H].
    + split; [lia|]. split; [exact H|]. now replace (k + 1 + 1) with (k + 2) by lia.
    + split; [lia|]. split; [exact Hlo|exact H].
  - assert (Hp : 2 ^ (Z.of_nat (S j) + 1) = 2 ^ Z.of_nat (S j) + 2 ^ Z.of_nat (S j)).
    { rewrite Z.pow_add_r by lia. change (2 ^ 1) with 2. lia. }
    assert (Hq : Z.of_nat (S j) = Z.of_nat j + 1) by lia.
    assert (Hpos : 0 < 2 ^ Z.of_nat (S j)) by (apply Z.pow_pos_nonneg; lia).
    destruct (Z.leb_spec ((k + 2 ^ Z.of_nat (S j)) ^ s) N) as [H|H].
    + destruct (IH (k + 2 ^ Z.of_nat (S j))) as [H1 H2].
      * lia.
      * split; [exact H|]. rewrite <- Hq.
        now replace (k + 2 ^ Z.of_nat (S j) + 2 ^ Z.of_nat (S j))
          with (k + 2 ^ (Z.of_nat (S j) + 1)) by lia.
      * split; [lia|exact H2].
    + destruct (IH k) as [H1 H2].
      * lia.
      * split; [exact Hlo|]. now rewrite <- Hq.
      * split; [lia|exact H2].
Qed.

(** [round_pow2 att steps] is the integer part of [2 ^ (att / steps)]. *)
Lemma round_pow2_spec (att steps : Z) :
  1 <= steps -> 0 <= att ->
  let c := round_pow2 att steps in
  1 <= c /\ c ^ steps <= 2 ^ att < (c + 1) ^ steps.
Proof.
  intros Hs Ha c. unfold c, round_pow2.
  destruct (Z.ltb_spec att 0) as [H|_]; [lia|].
  assert (Hd : 0 <= att / steps) by (apply Z.div_pos; lia).
  assert (H2 : 0 < 2 ^ att) by (apply Z.pow_pos_nonneg; lia).
  destruct (root_bits_spec steps (2 ^ att) Hs (Z.to_nat (att / steps)) 0) as [H0 H].
  - lia.
  - rewrite Z.pow_0_l by lia. split; [lia|].
    rewrite Z2Nat.id by lia. rewrite Z.add_0_l, <- Z.pow_mul_r by lia.
    apply Z.pow_lt_mono_r; try lia.
    pose proof (Z.mul_succ_div_gt att steps ltac:(lia)). lia.
  - split; [|exact H].
    set (d := root_bits steps (2 ^ att) (Z.to_nat (att / steps)) 0) in *.
    destruct (Z.eq_dec d 0) as [E|E]; [|lia].
    rewrite E in H. simpl in H. rewrite Z.pow_1_l in H by lia. lia.
Qed.

Lemma round_pow2_unique (att steps c : Z) :
  1 <= steps -> 0 <= att -> 0 <= c ->
  c ^ steps <= 2 ^ att < (c + 1) ^ steps -> round_pow2 att steps = c.
Proof.
  intros Hs Ha Hc [Hlo Hhi].
  destruct (round_pow2_spec att steps Hs Ha) as [H1 [H2 H3]].
  set (d := round_pow2 att steps) in *.
  destruct (Z.lt_trichotomy d c) as [L|[E|G]]; [exfalso|exact E|exfalso].
  - assert ((d + 1) ^ steps <= c ^ steps) by (apply Z.pow_le_mono_l; lia). lia.
  - assert ((c + 1) ^ steps <= d ^ steps) by (apply Z.pow_le_mono_l; lia). lia.
Qed.

(** The coarse steps overshoot the range: [att < c * steps]. *)
Lemma round_pow2_overshoot (att steps : Z) :
  1 <= steps -> 0 <= att -> att < round_pow2 att steps * steps.
Proof.
  intros Hs Ha.
  destruct (round_pow2_spec att steps Hs Ha) as [H1 [_ H3]].
  set (c := round_pow2 att steps) in *.
  assert (Hc : c + 1 <= 2 ^ c) by (pose proof (Z.pow_gt_lin_r 2 c); lia).
  assert (Hp : (c + 1) ^ steps <= (2 ^ c) ^ steps) by (apply Z.pow_le_mono_l; lia).
  rewrite <- Z.pow_mul_r in Hp by lia.
  apply (Z.pow_lt_mono_r_iff 2); lia.
Qed.

(** With no range at all the coarse step is 1. *)
Lemma round_pow2_zero_range (steps : Z) : 1 <= steps -> round_pow2 0 steps = 1.
Proof.
  intros Hs. apply round_pow2_unique; try lia.
  rewrite Z.pow_1_l by lia. change (2 ^ 0) with 1. split; [lia|].
  change (1 + 1) with 2. apply Z.pow_gt_1; lia.
Qed.

Lemma derived_k_pos (steps min_dB max_dB c k : Z) :
  derived steps min_dB max_dB c k -> 1 <= k.
Proof.
  intros (Hs & Hmin & Hmax & Hs1 & Hle & Hc & Hc4 & Hk).
  pose proof (round_pow2_overshoot (max_dB - min_dB) steps Hs1 ltac:(lia)) as H.
  rewrite Hc in H. lia.
Qed.

(** ** The exact formula *)

Lemma fineCount_mul (c k : Z) :
  1 <= c -> (fineCount c k * inject_Z c == inject_Z (2 * k))%Q.
Proof.
  intros Hc. unfold fineCount. rewrite inject_Z_mult.
  assert (H : ~ (inject_Z c == 0)%Q).
  { intros E. unfold Qeq in E. simpl in E. lia. }
  field. exact H.
Qed.

Lemma Qle_mul_pos (x y : Q) (c : Z) :
  1 <= c -> (x <= y)%Q <-> (x * inject_Z c <= y * inject_Z c)%Q.
Proof.
  intros Hc. assert (0 < inject_Z c)%Q.
  { change 0%Q with (inject_Z 0). rewrite <- Zlt_Qlt. lia. }
  split; intros G.
  - apply Qmult_le_r; assumption.
  - apply Qmult_le_r in G; assumption.
Qed.

Lemma fineCount_le (c k s : Z) :
  1 <= c -> (fineCount c k <= inject_Z s)%Q <-> 2 * k <= s * c.
Proof.
  intros Hc. rewrite (Qle_mul_pos _ _ c Hc), fineCount_mul by exact Hc.
  rewrite <- inject_Z_mult, <- Zle_Qle. reflexivity.
Qed.

Lemma fineCount_ge (c k s : Z) :
  1 <= c -> (inject_Z s <= fineCount c k)%Q <-> s * c <= 2 * k.
Proof.
  intros Hc. rewrite (Qle_mul_pos _ _ c Hc), fineCount_mul by exact Hc.
  rewrite <- inject_Z_mult, <- Zle_Qle. reflexivity.
Qed.

Lemma formula_exactCode (c k sel mx : Z) :
  1 <= c -> (formula c k sel mx == inject_Z (exactCode c k sel mx))%Q.
Proof.
  intros Hc. unfold formula, exactCode.
  pose proof (fineCount_mul c k Hc) as Hn.
  set (n := fineCount c k) in *.
  destruct (Z.leb_spec (c * sel) (2 * k)) as [H|H].
  - assert (L : (inject_Z sel <= n)%Q) by (apply fineCount_ge; [exact Hc|lia]).
    rewrite (Q.min_l _ _ L).
    rewrite Q.max_r by lra.
    unfold Zminus. rewrite inject_Z_plus, inject_Z_opp, !inject_Z_mult.
    simpl inject_Z. field.
  - assert (L : (n <= inject_Z sel)%Q) by (apply fineCount_le; [exact Hc|lia]).
    rewrite (Q.min_r _ _ L).
    rewrite Q.max_l by lra.
    rewrite inject_Z_mult in Hn. simpl inject_Z in Hn.
    unfold Zminus.
    rewrite !inject_Z_plus, !inject_Z_opp, !inject_Z_plus, !inject_Z_opp, !inject_Z_mult.
    simpl inject_Z.
    setoid_replace
      ((inject_Z mx - (n * (inject_Z c / 2) + (inject_Z sel - n) * inject_Z c)) * 2)%Q
      with (2 * inject_Z mx - (2 * inject_Z c * inject_Z sel - n * inject_Z c))%Q by field.
    rewrite Hn. ring.
Qed.

(** The exact code runs from [2 * maxDb] down to [2 * minDb], strictly. *)
Lemma exactCode_bounds (c k s sel mn mx : Z) :
  1 <= c -> k = c * s - (mx - mn) -> 2 * k <= c * s -> 0 <= sel <= s ->
  2 * mn <= exactCode c k sel mx <= 2 * mx.
Proof.
  intros Hc Hk Hf Hsel. unfold exactCode.
  destruct (Z.leb_spec (c * sel) (2 * k)); nia.
Qed.

Lemma exactCode_decreasing (c k s1 s2 mx : Z) :
  1 <= c -> 0 <= k -> s1 < s2 ->
  exactCode c k s2 mx + 1 <= exactCode c k s1 mx.
Proof.
  intros Hc Hk Hlt. unfold exactCode.
  destruct (Z.leb_spec (c * s1) (2 * k)), (Z.leb_spec (c * s2) (2 * k)); nia.
Qed.

(** ** Normal forms of binary32 floats

    Sums, differences and comparisons of floats whose mantissas fit the
    precision are those of the integers they stand for. *)

Section NormalForms.
Import B32.

Lemma digits_pos p : 1 <= digits p.
Proof. unfold digits. lia. Qed.

Lemma digits_shiftl (p : positive) (n : N) :
digits (Pos.shiftl p n) = digits p + Z.of_N n.
Proof.
destruct n as [|n]; simpl; [lia|].
unfold digits. induction n using Pos.peano_ind.
- simpl. lia.
- rewrite Pos.iter_succ. simpl digits2_pos. lia.
Qed.

Lemma digits_bounds (p : positive) : 2 ^ (digits p - 1) <= Zpos p < 2 ^ digits p.
Proof.
unfold digits. induction p as [p IH|p IH|]; simpl digits2_pos.
- rewrite !Pos2Z.inj_succ.
  replace (Z.succ (Zpos (digits2_pos p)) - 1) with (Z.succ (Zpos (digits2_pos p) - 1)) by lia.
  rewrite !Z.pow_succ_r by lia. lia.
- rewrite !Pos2Z.inj_succ.
  replace (Z.succ (Zpos (digits2_pos p)) - 1) with (Z.succ (Zpos (digits2_pos p) - 1)) by lia.
  rewrite !Z.pow_succ_r by lia. lia.
- simpl. lia.
Qed.

Lemma iter_xO_value (p n : positive) :
Zpos (Pos.iter xO p n) = Zpos p * 2 ^ Zpos n.
Proof.
induction n using Pos.peano_ind.
- simpl. lia.
- rewrite Pos.iter_succ, Pos2Z.inj_xO, IHn, Pos2Z.inj_succ, Z.pow_succ_r by lia. lia.
Qed.

Lemma shiftl_value (p : positive) (n : N) :
Zpos (Pos.shiftl p n) = Zpos p * 2 ^ Z.of_N n.
Proof.
destruct n as [|n]; simpl; [lia|]. apply iter_xO_value.
Qed.

Lemma binary_round_aux_canonical (s : bool) (m : positive) (e : Z) :
digits m = prec -> -149 <= e <= 104 ->
binary_round_aux prec emax s (Zpos m) e loc_Exact = S754_finite s m e.
Proof.
intros Hd He. unfold binary_round_aux, shr_fexp, fexp, emin, Zdigits2.
fold (digits m). rewrite Hd.
replace (Z.max (prec + e - prec) (3 - emax - prec) - e) with 0 by (unfold prec, emax; lia).
cbn [shr shr_record_of_loc loc_of_shr_record shr_m round_nearest_even Zdigits2].
fold (digits m). rewrite Hd.
replace (Z.max (prec + e - prec) (3 - emax - prec) - e) with 0 by (unfold prec, emax; lia).
cbn [shr shr_record_of_loc loc_of_shr_record shr_m].
destruct (Z.leb_spec e (emax - prec)); [reflexivity|unfold prec, emax in *; lia].
Qed.

Lemma binary_round_normal (s : bool) (p : positive) (e : Z) :
digits p <= prec -> -100 <= e <= 100 ->
binary_round prec emax s p e = normal s p e.
Proof.
intros Hd He. unfold binary_round, normal.
fold (digits p).
assert (Hf : fexp prec emax (digits p + e) = e + digits p - prec).
{ unfold fexp, emin, prec, emax in *. pose proof (digits_pos p). lia. }
rewrite Hf. unfold shl_align.
replace (e + digits p - prec - e) with (digits p - prec) by lia.
destruct (digits p - prec) as [|q|q] eqn:Hq; try lia.
- replace (prec - digits p) with 0 by lia. cbn [Z.to_N Pos.shiftl].
  replace (e + digits p - prec) with e by lia.
  apply binary_round_aux_canonical; unfold prec in *; lia.
- replace (prec - digits p) with (Zpos q) by lia. cbn [Z.to_N Pos.shiftl].
  apply binary_round_aux_canonical.
  + change (Pos.iter xO p q) with (Pos.shiftl p (Npos q)).
    rewrite digits_shiftl. simpl Z.of_N. lia.
  + unfold prec in *. pose proof (digits_pos p). lia.
Qed.

Lemma iter_pos_Pos_iter {A : Type} (f : A -> A) (n : positive) : forall x,
SpecFloat.iter_pos f n x = Pos.iter f x n.
Proof.
induction n as [n IH|n IH|]; intros x; simpl.
- rewrite !IH. now rewrite !Pos.iter_swap.
- now rewrite !IH.
- reflexivity.
Qed.

(** shifting out [t] zero bits is exact *)
Lemma shr_exact (t : positive) : forall q : positive,
SpecFloat.iter_pos shr_1 t (Build_shr_record (Zpos (Pos.iter xO q t)) false false)
= Build_shr_record (Zpos q) false false.
Proof.
intros q. rewrite iter_pos_Pos_iter. revert q.
induction t using Pos.peano_ind; intros q.
- reflexivity.
- rewrite Pos.iter_succ_r. rewrite Pos.iter_succ. simpl shr_1. apply IHt.
Qed.

Lemma normal_scale (s : bool) (p : positive) (j : N) (e : Z) :
digits p + Z.of_N j <= prec ->
normal s (Pos.shiftl p j) (e - Z.of_N j) = normal s p e.
Proof.
intros H. unfold normal. rewrite digits_shiftl. f_equal; [|lia].
apply Pos2Z.inj. rewrite !shiftl_value, Z2N.id by lia.
rewrite Z2N.id by (pose proof (digits_pos p); lia).
rewrite <- Z.mul_assoc, <- Z.pow_add_r by lia. f_equal. f_equal. lia.
Qed.

(** rounding [p * 2^j] at exponent [e - j] is the normal form of [p] at [e] *)
Lemma binary_round_scaled (s : bool) (p : positive) (j : N) (e : Z) :
digits p <= prec -> 0 <= Z.of_N j <= 40 -> -50 <= e <= 50 ->
binary_round prec emax s (Pos.shiftl p j) (e - Z.of_N j) = normal s p e.
Proof.
intros Hd Hj He.
destruct (Z_le_gt_dec (digits p + Z.of_N j) prec) as [L|G].
- rewrite binary_round_normal.
  + now apply normal_scale.
  + rewrite digits_shiftl. exact L.
  + lia.
- destruct j as [|j]; [change (Z.of_N 0) with 0 in G; lia|].
  change (Z.of_N (Npos j)) with (Zpos j) in *.
  set (t := digits p + Zpos j - prec).
  assert (Ht : 0 < t <= Zpos j) by (unfold t; lia).
  unfold binary_round. fold (digits (Pos.shiftl p (Npos j))).
  rewrite digits_shiftl. simpl Z.of_N.
  assert (Hf : fexp prec emax (digits p + Zpos j + (e - Zpos j)) = e + digits p - prec).
  { unfold fexp, emin, prec, emax in *. pose proof (digits_pos p). lia. }
  rewrite Hf. unfold shl_align.
  replace (e + digits p - prec - (e - Zpos j)) with t by (unfold t; lia).
  destruct t as [|tp|tp] eqn:Et; try lia.
  unfold binary_round_aux, shr_fexp.
  unfold Zdigits2 at 1. fold (digits (Pos.shiftl p (Npos j))).
  rewrite digits_shiftl. simpl Z.of_N. rewrite Hf.
  replace (e + digits p - prec - (e - Zpos j)) with (Zpos tp) by lia.
  cbn [shr shr_record_of_loc].
  (* split the shift: j = tp + rest *)
  assert (Hsplit : Pos.shiftl p (Npos j)
                   = Pos.iter xO (Pos.shiftl p (Z.to_N (prec - digits p))) tp).
  { apply Pos2Z.inj. rewrite iter_xO_value, !shiftl_value.
    rewrite Z2N.id by lia. simpl Z.of_N.
    rewrite <- Z.mul_assoc, <- Z.pow_add_r by lia. f_equal. f_equal. lia. }
  rewrite Hsplit, shr_exact.
  cbn [loc_of_shr_record shr_m round_nearest_even].
  set (m := Pos.shiftl p (Z.to_N (prec - digits p))).
  assert (Hm : digits m = prec).
  { unfold m. rewrite digits_shiftl, Z2N.id by lia. lia. }
  unfold Zdigits2. fold (digits m). rewrite Hm.
  replace (fexp prec emax (prec + (e - Zpos j + Zpos tp)) - (e - Zpos j + Zpos tp)) with 0
    by (unfold fexp, emin, prec, emax in *; lia).
  cbn [shr shr_record_of_loc shr_m].
  destruct (Z.leb_spec (e - Zpos j + Zpos tp) (emax - prec)) as [_|F];
    [|unfold prec, emax in *; lia].
  unfold normal. fold m. f_equal. lia.
Qed.

Lemma digits_le (p : positive) (n : Z) : 0 <= n -> Zpos p < 2 ^ n -> digits p <= n.
Proof.
intros Hn Hp. pose proof (digits_bounds p) as [Hlo _]. pose proof (digits_pos p).
assert (2 ^ (digits p - 1) < 2 ^ n) by lia.
apply Z.pow_lt_mono_r_iff in H0; lia.
Qed.

Lemma Zpos_shiftl (p : positive) (j : N) : Zpos p * 2 ^ Z.of_N j = Zpos (Pos.shiftl p j).
Proof. now rewrite shiftl_value. Qed.

Lemma Zneg_shiftl (p : positive) (j : N) : Zneg p * 2 ^ Z.of_N j = Zneg (Pos.shiftl p j).
Proof.
rewrite <- !Pos2Z.opp_pos, Z.mul_opp_l. now rewrite shiftl_value.
Qed.

Lemma binary_normalize_normal (z : Z) (e : Z) :
Z.abs z < 2 ^ prec -> -50 <= e <= 50 ->
binary_normalize prec emax z e false
= match z with
  | Z0 => S754_zero false
  | Zpos p => normal false p e
  | Zneg p => normal true p e
  end.
Proof.
intros Hz He. destruct z as [|p|p]; simpl binary_normalize; try reflexivity.
- apply binary_round_normal; [|lia]. apply digits_le; [unfold prec; lia|exact Hz].
- apply binary_round_normal; [|lia]. apply digits_le; [unfold prec; lia|exact Hz].
Qed.

Lemma binary_normalize_scaled (z : Z) (j e : Z) :
Z.abs z < 2 ^ prec -> 0 <= j <= 40 -> -50 <= e <= 50 ->
binary_normalize prec emax (z * 2 ^ j) (e - j) false
= binary_normalize prec emax z e false.
Proof.
intros Hz Hj He. rewrite (binary_normalize_normal z e Hz He).
rewrite <- (Z2N.id j) by lia.
destruct z as [|p|p].
- reflexivity.
- rewrite Zpos_shiftl. simpl binary_normalize.
  apply binary_round_scaled; rewrite ?Z2N.id by lia; try lia.
  apply digits_le; [unfold prec; lia|exact Hz].
- rewrite Zneg_shiftl. simpl binary_normalize.
  apply binary_round_scaled; rewrite ?Z2N.id by lia; try lia.
  apply digits_le; [unfold prec; lia|exact Hz].
Qed.

Lemma shl_align_value (m : positive) (e e' : Z) :
e' <= e -> Zpos (fst (shl_align m e e')) = Zpos m * 2 ^ (e - e').
Proof.
intros H. unfold shl_align.
destruct (e' - e) as [|d|d] eqn:E; try lia; cbn [fst].
- replace (e - e') with 0 by lia. lia.
- rewrite iter_xO_value. f_equal. f_equal. lia.
Qed.

Lemma normal_mantissa (p : positive) (e e' : Z) :
digits p <= prec -> e' <= e + digits p - prec ->
Zpos (fst (shl_align (Pos.shiftl p (Z.to_N (prec - digits p))) (e + digits p - prec) e'))
= Zpos p * 2 ^ (e - e').
Proof.
intros Hd He. rewrite shl_align_value by exact He.
rewrite shiftl_value, Z2N.id by lia.
rewrite <- Z.mul_assoc, <- Z.pow_add_r by lia. f_equal. f_equal. lia.
Qed.

Section Exact.
Variables (pa pb : positive) (e : Z).
Hypothesis Ha : digits pa <= prec.
Hypothesis Hb : digits pb <= prec.
Hypothesis He : -20 <= e <= 20.

Lemma sub_normal :
SFsub prec emax (normal false pa e) (normal false pb e)
= binary_normalize prec emax (Zpos pa - Zpos pb) e false.
Proof.
unfold normal. cbn [SFsub cond_Zopp].
set (ez := Z.min (e + digits pa - prec) (e + digits pb - prec)).
rewrite (normal_mantissa pa), (normal_mantissa pb) by (try assumption; unfold ez; lia).
rewrite <- Z.mul_sub_distr_r.
pose proof (digits_pos pa). pose proof (digits_pos pb).
pose proof (digits_bounds pa) as [_ Ua]. pose proof (digits_bounds pb) as [_ Ub].
assert (Pa : 2 ^ digits pa <= 2 ^ prec) by (apply Z.pow_le_mono_r; lia).
assert (Pb : 2 ^ digits pb <= 2 ^ prec) by (apply Z.pow_le_mono_r; lia).
replace ez with (e - (e - ez)) at 2 by lia.
apply binary_normalize_scaled.
- lia.
- unfold ez, prec in *. lia.
- lia.
Qed.

Lemma add_normal :
Zpos pa + Zpos pb < 2 ^ prec ->
SFadd prec emax (normal false pa e) (normal false pb e)
= binary_normalize prec emax (Zpos pa + Zpos pb) e false.
Proof.
intros Hs. unfold normal. cbn [SFadd cond_Zopp].
set (ez := Z.min (e + digits pa - prec) (e + digits pb - prec)).
rewrite (normal_mantissa pa), (normal_mantissa pb) by (try assumption; unfold ez; lia).
rewrite <- Z.mul_add_distr_r.
pose proof (digits_pos pa). pose proof (digits_pos pb).
replace ez with (e - (e - ez)) at 2 by lia.
apply binary_normalize_scaled.
- lia.
- unfold ez, prec in *. lia.
- lia.
Qed.

Lemma compare_normal :
SFcompare (normal false pa e) (normal false pb e) = Some (Zpos pa ?= Zpos pb).
Proof.
unfold normal. cbn [SFcompare]. f_equal.
pose proof (digits_pos pa). pose proof (digits_pos pb).
pose proof (digits_bounds pa) as [La Ua]. pose proof (digits_bounds pb) as [Lb Ub].
destruct (Z.compare_spec (e + digits pa - prec) (e + digits pb - prec)) as [E|L|G].
- assert (Ed : digits pa = digits pb) by lia.
rewrite Ed.
match goal with
| |- Pos.compare_cont Eq ?x ?y = _ => change (Pos.compare_cont Eq x y) with (Pos.compare x y)
end.
rewrite Pos2Z.inj_compare, !shiftl_value.
symmetry. apply Zmult_compare_compat_r.
apply Z.lt_gt, Z.pow_pos_nonneg; lia.
- symmetry. apply Z.compare_lt_iff.
assert (2 ^ digits pa <= 2 ^ (digits pb - 1)) by (apply Z.pow_le_mono_r; lia). lia.
- symmetry. apply Z.compare_gt_iff.
assert (2 ^ digits pb <= 2 ^ (digits pa - 1)) by (apply Z.pow_le_mono_r; lia). lia.
Qed.

End Exact.

End NormalForms.

(** ** Multiples of one half

    [half h] has value [h / 2]; below [2^24] halves add, subtract and compare
    as their numerators do. *)

Section Halves.
Import B32.

Lemma half_zero : half 0 = S754_zero false.
Proof. reflexivity. Qed.

Lemma half_pos (p : positive) :
Zpos p < 16777216 -> digits p <= prec /\ half (Zpos p) = normal false p (-1).
Proof.
intros H. split.
- apply digits_le; [unfold prec; lia|exact H].
- unfold half.
  rewrite binary_normalize_normal; [reflexivity|change (2 ^ prec) with 16777216; lia|lia].
Qed.

Lemma half_neg (p : positive) :
Zpos p < 16777216 -> half (Zneg p) = normal true p (-1).
Proof.
intros H. unfold half.
rewrite binary_normalize_normal; [reflexivity|change (2 ^ prec) with 16777216; lia|lia].
Qed.

Lemma of_Z_half (z : Z) : 0 <= z <= 1020 -> of_Z z = half (2 * z).
Proof.
intros Hz. unfold of_Z, half.
replace (2 * z) with (z * 2 ^ 1) by lia.
change (-1) with (0 - 1).
symmetry. apply binary_normalize_scaled; try lia.
change (2 ^ prec) with 16777216. lia.
Qed.

Lemma sub_halves (x y : Z) : small x -> small y -> sub (half x) (half y) = half (x - y).
Proof.
unfold small. intros Hx Hy.
destruct x as [|px|px], y as [|py|py]; try lia.
- reflexivity.
- destruct (half_pos py) as [_ E]; [lia|].
  rewrite E, half_zero. change (0 - Zpos py) with (Zneg py).
  rewrite half_neg by lia. reflexivity.
- destruct (half_pos px) as [_ E]; [lia|].
  rewrite Z.sub_0_r, E, half_zero. reflexivity.
- destruct (half_pos px) as [Dx Ex]; [lia|].
  destruct (half_pos py) as [Dy Ey]; [lia|].
  rewrite Ex, Ey. unfold sub. rewrite sub_normal by (assumption || lia).
  reflexivity.
Qed.

Lemma add_halves (x y : Z) :
small x -> small y -> small (x + y) -> add (half x) (half y) = half (x + y).
Proof.
unfold small. intros Hx Hy Hxy.
destruct x as [|px|px], y as [|py|py]; try lia.
- reflexivity.
- destruct (half_pos py) as [_ E]; [lia|].
  rewrite Z.add_0_l, E, half_zero. reflexivity.
- destruct (half_pos px) as [_ E]; [lia|].
  rewrite Z.add_0_r, E, half_zero. reflexivity.
- destruct (half_pos px) as [Dx Ex]; [lia|].
  destruct (half_pos py) as [Dy Ey]; [lia|].
  rewrite Ex, Ey. unfold add. rewrite add_normal
    by (try assumption; try lia; change (2 ^ prec) with 16777216; lia).
  reflexivity.
Qed.

Lemma compare_halves (x y : Z) :
small x -> small y -> SFcompare (half x) (half y) = Some (x ?= y).
Proof.
unfold small. intros Hx Hy.
destruct x as [|px|px], y as [|py|py]; try lia.
- reflexivity.
- destruct (half_pos py) as [_ E]; [lia|]. rewrite E, half_zero. reflexivity.
- destruct (half_pos px) as [_ E]; [lia|]. rewrite E, half_zero. reflexivity.
- destruct (half_pos px) as [Dx Ex]; [lia|].
  destruct (half_pos py) as [Dy Ey]; [lia|].
  rewrite Ex, Ey. apply compare_normal; assumption || lia.
Qed.

Lemma ltb_halves (x y : Z) : small x -> small y -> ltb (half x) (half y) = (x <? y).
Proof.
intros Hx Hy. unfold ltb, SFltb, Z.ltb. rewrite compare_halves by assumption.
reflexivity.
Qed.

Lemma leb_halves (x y : Z) : small x -> small y -> leb (half x) (half y) = (x <=? y).
Proof.
intros Hx Hy. unfold leb, SFleb, Z.leb. rewrite compare_halves by assumption.
now destruct (x ?= y).
Qed.

(** The sign test of [max(x, 0)], for either sign of [x]. *)
Lemma positive_half (d : Z) :
-16777216 < d < 16777216 -> ltb (of_Z 0) (half d) = (0 <? d).
Proof.
intros Hd. destruct d as [|p|p].
- reflexivity.
- destruct (half_pos p) as [_ E]; [lia|]. rewrite E. reflexivity.
- rewrite half_neg by lia. reflexivity.
Qed.

End Halves.

(** ** Tables of binary32 identities

    Products and quotients by the few constants of the program, and what
    involves the inexact quotient by 1.5, are checked by evaluation over the
    whole range the program can reach. *)

Section TableProofs.
Import B32.
Import Tables.

Lemma table_mul_int :
Interval.all 0 4 (fun c => let fc := of_Z c in
  Interval.all 0 255 (fun s => eqb (mul fc (of_Z s)) (of_Z (c * s)))) = true.
Proof. vm_cast_no_check (eq_refl true). Qed.

Lemma table_div_two :
Interval.all 0 4 (fun c => eqb (div (of_Z c) (of_Z 2)) (half c)) = true.
Proof. vm_cast_no_check (eq_refl true). Qed.

Lemma table_div_half :
Interval.all 1 4 (fun c =>
  Interval.all 0 1020 (fun k =>
    if (4 * k) mod c =? 0 then eqb (quot k c) (half (4 * k / c)) else true))
= true.
Proof. vm_cast_no_check (eq_refl true). Qed.

Lemma table_mul_half :
Interval.all 0 510 (fun x => let fx := half x in
  Interval.all 0 8 (fun y =>
    if Z.even (x * y) then eqb (mul fx (half y)) (half (x * y / 2)) else true))
= true.
Proof. vm_cast_no_check (eq_refl true). Qed.

Lemma table_trunc_half :
Interval.all 0 1020 (fun x => trunc (half x) =? x / 2) = true.
Proof. vm_cast_no_check (eq_refl true). Qed.

(** The quotient by 1.5, where it is inexact: its order with the integers
  and the sign of its difference with them are those of [2 * k / 3]. *)
Lemma table_gate3 :
Interval.all 0 765 (fun k =>
  if k mod 3 =? 0 then true else
  let n := quot k 3 in
  Interval.all ((k + 2) / 3) 255 (fun s =>
    Bool.eqb (leb n (of_Z s)) (2 * k <=? 3 * s))) = true.
Proof. vm_cast_no_check (eq_refl true). Qed.

Lemma table_below3 :
Interval.all 0 382 (fun k =>
  if k mod 3 =? 0 then true else
  let n := quot k 3 in
  Interval.all 0 255 (fun sel =>
    Bool.eqb (ltb (of_Z sel) n) (3 * sel <? 2 * k))) = true.
Proof. vm_cast_no_check (eq_refl true). Qed.

Lemma table_above3 :
Interval.all 0 382 (fun k =>
  if k mod 3 =? 0 then true else
  let n := quot k 3 in
  Interval.all 0 255 (fun sel =>
    Bool.eqb (ltb (of_Z 0) (sub (of_Z sel) n)) (2 * k <? 3 * sel))) = true.
Proof. vm_cast_no_check (eq_refl true). Qed.

(** With coarse step 3, above the fine step count and for [max_dB <= 127],
  the converted code is the exact one or one less. *)
Lemma table_slip :
Interval.all 0 126 (fun k =>
  if k mod 3 =? 0 then true else
  let n := quot k 3 in
  Interval.all (2 * k / 3 + 1) ((127 + k) / 3) (fun sel =>
    let e := slip_sum n sel in
    Interval.all (3 * sel - k) 127 (fun mx =>
      let g := slip_code e mx in
      (2 * mx - 6 * sel + 2 * k - 1 <=? g)
      && (g <=? 2 * mx - 6 * sel + 2 * k)
      && (0 <=? g)))) = true.
Proof. vm_cast_no_check (eq_refl true). Qed.

(** A coarse step above 4 fails the rule of thumb, on the documented input
  range (steps up to 179, range up to 90 dB). *)
Lemma table_coarse_above_four :
Interval.all 1 179 (fun s => let p := 5 ^ s in
  Interval.all 1 90 (fun r =>
    if p <=? 2 ^ r
    then negb (leb (of_Z (round_pow2 r s)) (of_Z 4))
    else true)) = true.
Proof. vm_cast_no_check (eq_refl true). Qed.

End TableProofs.

(** Reading an entry of a table: [entry H z] instantiates the outermost
    bounded quantifier of [H] at [z]. *)
Ltac entry H z :=
  let H' := fresh in
  match type of H with
  | Interval.all ?lo ?hi ?P = true =>
      enough (H' : lo <= z <= hi);
      [ apply (Interval_all_spec lo hi P H z) in H'; clear H; rename H' into H;
        cbv beta zeta in H
      | clear H; try lia ]
  end.

Ltac four_cases c :=
  let H := fresh in
  assert (H : c = 1 \/ c = 2 \/ c = 3 \/ c = 4) by lia;
  destruct H as [-> | [-> | [-> | ->]]].

Ltac arith := try (Z.div_mod_to_equations; lia).

Section FloatIdentities.
Import B32.

Lemma mul_int (c s : Z) :
0 <= c <= 4 -> 0 <= s <= 255 -> mul (of_Z c) (of_Z s) = of_Z (c * s).
Proof.
intros Hc Hs. pose proof table_mul_int as T.
entry T c. entry T s. now apply B32_eqb_eq.
Qed.

Lemma sub_int (x y : Z) :
0 <= y <= 255 -> y <= x <= 1020 -> sub (of_Z x) (of_Z y) = of_Z (x - y).
Proof.
intros Hy Hx. rewrite !of_Z_half by lia.
rewrite sub_halves by (unfold small; lia). f_equal. lia.
Qed.

Lemma div_two (c : Z) : 0 <= c <= 4 -> div (of_Z c) (of_Z 2) = half c.
Proof.
intros Hc. pose proof table_div_two as T.
entry T c. now apply B32_eqb_eq.
Qed.

Lemma le_four (c : Z) : 1 <= c <= 4 -> leb (of_Z c) (of_Z 4) = true.
Proof.
intros Hc. rewrite !of_Z_half by lia.
rewrite leb_halves by (unfold small; lia). apply Z.leb_le. lia.
Qed.

Lemma div_half (c k : Z) :
1 <= c <= 4 -> 0 <= k <= 1020 -> (4 * k) mod c = 0 ->
Tables.quot k c = half (4 * k / c).
Proof.
intros Hc Hk Hm. pose proof table_div_half as T.
entry T c. entry T k.
apply Z.eqb_eq in Hm. rewrite Hm in T. now apply B32_eqb_eq.
Qed.

Lemma mul_half (x y : Z) :
0 <= x <= 510 -> 0 <= y <= 8 -> Z.even (x * y) = true ->
mul (half x) (half y) = half (x * y / 2).
Proof.
intros Hx Hy He. pose proof table_mul_half as T.
entry T x. entry T y. rewrite He in T. now apply B32_eqb_eq.
Qed.

Lemma add_half (x y : Z) :
0 <= x -> 0 <= y -> x + y <= 510 -> add (half x) (half y) = half (x + y).
Proof.
intros Hx Hy Hxy. apply add_halves; unfold small; lia.
Qed.

Lemma sub_mixed (x y : Z) :
0 <= x <= 255 -> 0 <= y <= 510 -> sub (of_Z x) (half y) = half (2 * x - y).
Proof.
intros Hx Hy. rewrite of_Z_half by lia. apply sub_halves; unfold small; lia.
Qed.

Lemma trunc_half (x : Z) : 0 <= x <= 1020 -> trunc (half x) = x / 2.
Proof.
intros Hx. pose proof table_trunc_half as T.
entry T x. now apply Z.eqb_eq in T.
Qed.

(** The quotient [k / (c / 2)] against the integers: exact quotients by the
  identities on halves, the others (coarse step 3) by the tables. *)
Lemma quot_cases (c k : Z) :
1 <= c <= 4 -> 0 <= k <= 1020 ->
(exists n2, 4 * k = n2 * c /\ Tables.quot k c = half n2)
\/ (c = 3 /\ k mod 3 <> 0).
Proof.
intros Hc Hk.
destruct (Z.eq_dec ((4 * k) mod c) 0) as [E|E].
- left. exists (4 * k / c). split.
  + rewrite (Z.mul_comm (4 * k / c) c). apply Z.div_exact; [lia|exact E].
  + now apply div_half.
- right. four_cases c;
    try solve [exfalso; apply E; Z.div_mod_to_equations; lia].
  split; [reflexivity|Z.div_mod_to_equations; lia].
Qed.

Lemma gate (c k s : Z) :
1 <= c <= 4 -> 0 <= k <= c * s -> s <= 255 ->
leb (Tables.quot k c) (of_Z s) = (2 * k <=? c * s).
Proof.
intros Hc Hk Hs.
destruct (quot_cases c k Hc ltac:(nia)) as [(n2 & Hn & Hq)|[-> H3]].
- rewrite Hq, of_Z_half by nia. rewrite leb_halves by (unfold small; nia).
  destruct (Z.leb_spec n2 (2 * s)), (Z.leb_spec (2 * k) (c * s)); try reflexivity; nia.
- pose proof table_gate3 as T. entry T k.
  apply Z.eqb_neq in H3. rewrite H3 in T.
  entry T s; [|arith]. now apply Bool.eqb_prop in T.
Qed.

Lemma below (c k sel : Z) :
1 <= c <= 4 -> 0 <= 2 * k <= c * 255 -> 0 <= sel <= 255 ->
ltb (of_Z sel) (Tables.quot k c) = (c * sel <? 2 * k).
Proof.
intros Hc Hk Hs.
destruct (quot_cases c k Hc ltac:(nia)) as [(n2 & Hn & Hq)|[-> H3]].
- rewrite Hq, of_Z_half by nia. rewrite ltb_halves by (unfold small; nia).
  destruct (Z.ltb_spec (2 * sel) n2), (Z.ltb_spec (c * sel) (2 * k)); try reflexivity; nia.
- pose proof table_below3 as T. entry T k.
  apply Z.eqb_neq in H3. rewrite H3 in T.
  entry T sel. now apply Bool.eqb_prop in T.
Qed.

Lemma above (c k sel : Z) :
1 <= c <= 4 -> 0 <= 2 * k <= c * 255 -> 0 <= sel <= 255 ->
ltb (of_Z 0) (sub (of_Z sel) (Tables.quot k c)) = (2 * k <? c * sel).
Proof.
intros Hc Hk Hs.
destruct (quot_cases c k Hc ltac:(nia)) as [(n2 & Hn & Hq)|[-> H3]].
- rewrite Hq, sub_mixed by nia. rewrite positive_half by nia.
  destruct (Z.ltb_spec 0 (2 * sel - n2)), (Z.ltb_spec (2 * k) (c * sel)); try reflexivity; nia.
- pose proof table_above3 as T. entry T k.
  apply Z.eqb_neq in H3. rewrite H3 in T.
  entry T sel. now apply Bool.eqb_prop in T.
Qed.

Lemma slip (k sel mx : Z) :
0 <= k -> k mod 3 <> 0 -> 2 * k < 3 * sel -> 3 * sel - k <= mx <= 127 ->
let g := Tables.slip_code (Tables.slip_sum (Tables.quot k 3) sel) mx in
2 * mx - 6 * sel + 2 * k - 1 <= g <= 2 * mx - 6 * sel + 2 * k /\ 0 <= g.
Proof.
intros Hk H3 Hsel Hmx g. pose proof table_slip as T.
entry T k. apply Z.eqb_neq in H3. rewrite H3 in T.
entry T sel; [|arith]. entry T mx. fold g in T.
apply andb_prop in T. destruct T as [T T3].
apply andb_prop in T. destruct T as [T1 T2].
apply Z.leb_le in T1, T2, T3. lia.
Qed.

Lemma coarse_above_four (s r : Z) :
1 <= s <= 179 -> 1 <= r <= 90 -> 5 ^ s <= 2 ^ r ->
leb (of_Z (round_pow2 r s)) (of_Z 4) = false.
Proof.
intros Hs Hr Hp. pose proof table_coarse_above_four as T.
entry T s. entry T r. apply Z.leb_le in Hp. rewrite Hp in T.
now apply negb_true_iff in T.
Qed.

End FloatIdentities.

(** ** The program on a derived profile *)

Section Program.
Import B32.
Variables steps min_dB max_dB c k : Z.
Hypothesis D : derived steps min_dB max_dB c k.

Lemma sizeOfLargeSteps_derived : sizeOfLargeSteps steps min_dB max_dB = of_Z c.
Proof.
  destruct D as (_ & _ & _ & _ & _ & Hc & _).
  unfold sizeOfLargeSteps. now rewrite Hc.
Qed.

Lemma numberOfSmallSteps_derived :
  numberOfSmallSteps steps min_dB max_dB = Tables.quot k c.
Proof.
  pose proof (derived_k_pos _ _ _ _ _ D) as Hk1.
  unfold numberOfSmallSteps. rewrite sizeOfLargeSteps_derived.
  destruct D as (Hs & Hmin & Hmax & Hs1 & Hle & Hc & Hc4 & Hk).
  unfold att_dB, uint8 in *.
  rewrite mul_int, sub_int, div_two by nia.
  unfold Tables.quot. now rewrite Hk.
Qed.

(** The three tests of the [if], on the derived integers. *)
Lemma attenuationPossible_derived (selStep : Z) :
  attenuationPossible steps selStep min_dB max_dB
  = (2 * k <=? c * steps) && (selStep <=? steps).
Proof.
  pose proof (derived_k_pos _ _ _ _ _ D) as Hk1.
  unfold attenuationPossible.
  rewrite numberOfSmallSteps_derived, sizeOfLargeSteps_derived.
  destruct D as (Hs & Hmin & Hmax & Hs1 & Hle & Hc & Hc4 & Hk).
  unfold uint8 in *.
  rewrite gate, le_four by nia. now rewrite andb_true_r.
Qed.

Section Possible.
Variable selStep : Z.
Hypothesis Hsel : uint8 selStep.
Hypothesis Hin : selStep <= steps.
Hypothesis Hfine : 2 * k <= c * steps.

(** Up to the fine step count every step takes [c] half-dB units off. *)
Lemma attenuationFloat_low :
  c * selStep <= 2 * k ->
  attenuationFloat steps selStep min_dB max_dB
  = half (2 * (2 * max_dB - c * selStep)).
Proof.
  intros Hlow.
  pose proof (derived_k_pos _ _ _ _ _ D) as Hk1.
  unfold attenuationFloat.
  rewrite numberOfSmallSteps_derived, sizeOfLargeSteps_derived.
  destruct D as (Hs & Hmin & Hmax & Hs1 & Hle & Hc & Hc4 & Hk).
  unfold uint8 in *.
  assert (Hmin' : arduino_min (of_Z selStep) (Tables.quot k c) = half (2 * selStep)).
  { unfold arduino_min. rewrite below by nia.
    destruct (Z.ltb_spec (c * selStep) (2 * k)) as [L|L].
    - apply of_Z_half. lia.
    - assert (E : 4 * k = 2 * selStep * c) by lia.
      rewrite div_half; [ | nia | nia | ].
      + now rewrite E, Z.div_mul by lia.
      + rewrite E. apply Z.mod_mul. lia. }
  assert (Hmax' : arduino_max (sub (of_Z selStep) (Tables.quot k c)) (of_Z 0) = half 0).
  { unfold arduino_max. rewrite above by nia.
    destruct (Z.ltb_spec (2 * k) (c * selStep)) as [L|L]; [lia|].
    apply (of_Z_half 0). lia. }
  rewrite Hmin', Hmax', div_two by lia.
  rewrite (of_Z_half c), (of_Z_half 2) by lia.
  rewrite (mul_half (2 * selStep) c); try lia.
  2: { rewrite <- Z.mul_assoc, Z.even_mul. reflexivity. }
  rewrite (mul_half 0 (2 * c)); try lia; [|reflexivity].
  replace (2 * selStep * c / 2) with (c * selStep)
    by (rewrite <- Z.mul_assoc, (Z.mul_comm 2), Z.div_mul by lia; lia).
  replace (0 * (2 * c) / 2) with 0 by reflexivity.
  rewrite add_half by nia.
  rewrite Z.add_0_r, sub_mixed by nia.
  rewrite mul_half; [ | nia | nia | ].
  - f_equal. change (2 * 2) with 4. arith.
  - change (2 * 2) with 4. rewrite Z.even_mul. now rewrite orb_true_r.
Qed.

(** Above it every step takes [2 * c], when the quotient is exact. *)
Lemma attenuationFloat_high :
  2 * k < c * selStep -> (4 * k) mod c = 0 ->
  attenuationFloat steps selStep min_dB max_dB
  = half (2 * (2 * max_dB - (2 * c * selStep - 2 * k))).
Proof.
  intros Hhigh Hdiv.
  pose proof (derived_k_pos _ _ _ _ _ D) as Hk1.
  unfold attenuationFloat.
  rewrite numberOfSmallSteps_derived, sizeOfLargeSteps_derived.
  destruct D as (Hs & Hmin & Hmax & Hs1 & Hle & Hc & Hc4 & Hk).
  unfold uint8 in *.
  assert (Hn : exists n2, 4 * k = n2 * c /\ Tables.quot k c = half n2).
  { exists (4 * k / c). split.
    - rewrite (Z.mul_comm (4 * k / c) c). apply Z.div_exact; [lia|exact Hdiv].
    - apply div_half; nia. }
  destruct Hn as (n2 & Hn2 & Hq).
  unfold arduino_min, arduino_max.
  rewrite below, above by nia.
  destruct (Z.ltb_spec (c * selStep) (2 * k)) as [L|_]; [lia|].
  destruct (Z.ltb_spec (2 * k) (c * selStep)) as [_|L]; [|lia].
  rewrite Hq, div_two by lia.
  rewrite (of_Z_half c), (of_Z_half 2) by lia.
  rewrite sub_mixed by nia.
  rewrite (mul_half n2 c); [ | nia | nia | ].
  2: { rewrite <- Hn2, Z.even_mul. reflexivity. }
  rewrite (mul_half (2 * selStep - n2) (2 * c)); [ | nia | nia | ].
  2: { rewrite (Z.mul_comm 2 c), Z.mul_assoc, Z.even_mul. now rewrite orb_true_r. }
  replace (n2 * c / 2) with (2 * k) by arith.
  replace ((2 * selStep - n2) * (2 * c) / 2) with (2 * c * selStep - 4 * k).
  2: { replace ((2 * selStep - n2) * (2 * c)) with ((2 * c * selStep - 4 * k) * 2) by nia.
       now rewrite Z.div_mul by lia. }
  rewrite add_half by nia.
  replace (2 * k + (2 * c * selStep - 4 * k)) with (2 * c * selStep - 2 * k) by lia.
  rewrite sub_mixed by nia.
  rewrite mul_half; [ | nia | nia | ].
  - f_equal. change (2 * 2) with 4. arith.
  - change (2 * 2) with 4. rewrite Z.even_mul. now rewrite orb_true_r.
Qed.

(** Above it with an inexact quotient (coarse step 3). *)
Lemma attenuationFloat_slip :
  c = 3 -> 2 * k < 3 * selStep ->
  trunc (attenuationFloat steps selStep min_dB max_dB)
  = Tables.slip_code (Tables.slip_sum (Tables.quot k 3) selStep) max_dB.
Proof.
  intros H3 Hhigh.
  pose proof (derived_k_pos _ _ _ _ _ D) as Hk1.
  unfold attenuationFloat.
  rewrite numberOfSmallSteps_derived, sizeOfLargeSteps_derived.
  destruct D as (Hs & Hmin & Hmax & Hs1 & Hle & Hc & Hc4 & Hk).
  unfold uint8 in *. subst c.
  unfold arduino_min, arduino_max.
  rewrite below, above by lia.
  destruct (Z.ltb_spec (3 * selStep) (2 * k)) as [L|_]; [lia|].
  destruct (Z.ltb_spec (2 * k) (3 * selStep)) as [_|L]; [|lia].
  rewrite div_two by lia. reflexivity.
Qed.

End Possible.

End Program.

(** ** What [getAttenuation] returns *)

Section Results.
Variables steps selStep min_dB max_dB c k : Z.
Hypothesis D : derived steps min_dB max_dB c k.
Hypothesis Hsel : uint8 selStep.

Lemma getAttenuation_gate :
  getAttenuation steps selStep min_dB max_dB
  = if (2 * k <=? c * steps) && (selStep <=? steps)
    then B32.to_uint8 (attenuationFloat steps selStep min_dB max_dB)
    else MUTE.
Proof.
  unfold getAttenuation. now rewrite (attenuationPossible_derived _ _ _ _ _ D).
Qed.

(** A profile that fails a test mutes. *)
Lemma getAttenuation_mute :
  steps * c < 2 * k \/ steps < selStep ->
  getAttenuation steps selStep min_dB max_dB = MUTE.
Proof.
  intros H. rewrite getAttenuation_gate.
  destruct (Z.leb_spec (2 * k) (c * steps)), (Z.leb_spec selStep steps);
    simpl; try reflexivity; lia.
Qed.

Hypothesis Hin : selStep <= steps.
Hypothesis Hfine : 2 * k <= c * steps.

Lemma exactCode_range :
  2 * min_dB <= exactCode c k selStep max_dB <= 2 * max_dB.
Proof.
  destruct D as (Hs & Hmin & Hmax & Hs1 & Hle & Hc & Hc4 & Hk).
  apply (exactCode_bounds c k steps); unfold uint8 in *; lia.
Qed.

(** The code is the exact one, reduced to eight bits, whenever the
    quotient [k / (c / 2)] is exact or not reached. *)
Lemma getAttenuation_exact :
  c * selStep <= 2 * k \/ (4 * k) mod c = 0 ->
  getAttenuation steps selStep min_dB max_dB
  = exactCode c k selStep max_dB mod 256.
Proof.
  intros Hex. rewrite getAttenuation_gate.
  pose proof exactCode_range as HX.
  destruct D as (Hs & Hmin & Hmax & Hs1 & Hle & Hc & Hc4 & Hk).
  unfold uint8 in *.
  destruct (Z.leb_spec (2 * k) (c * steps)) as [_|F]; [|lia].
  destruct (Z.leb_spec selStep steps) as [_|F]; [|lia].
  cbn [andb]. unfold B32.to_uint8.
  unfold exactCode in *.
  destruct (Z.leb_spec (c * selStep) (2 * k)) as [L|L].
  - rewrite (attenuationFloat_low _ _ _ _ _ D) by assumption.
    rewrite trunc_half by lia. now rewrite Z.mul_comm, Z.div_mul by lia.
  - destruct Hex as [Hex|Hex]; [lia|].
    rewrite (attenuationFloat_high _ _ _ _ _ D) by assumption.
    rewrite trunc_half by lia. now rewrite Z.mul_comm, Z.div_mul by lia.
Qed.

(** Up to [max_dB = 127] the code is the exact one or one less. *)
Lemma getAttenuation_near :
  max_dB <= 127 ->
  exactCode c k selStep max_dB - 1
    <= getAttenuation steps selStep min_dB max_dB
    <= exactCode c k selStep max_dB
  /\ 0 <= getAttenuation steps selStep min_dB max_dB.
Proof.
  intros H127.
  pose proof exactCode_range as HX.
  pose proof (derived_k_pos _ _ _ _ _ D) as Hk1.
  assert (Hc4 : 1 <= c <= 4) by (destruct D as (_ & _ & _ & _ & _ & _ & Hc4 & _); exact Hc4).
  assert (Hu : uint8 min_dB /\ min_dB <= max_dB
               /\ k = c * steps - (max_dB - min_dB)).
  { destruct D as (_ & Hmin & _ & _ & Hle & _ & _ & Hk). auto. }
  destruct Hu as (Hmin & Hle & Hk). unfold uint8 in *.
  destruct (Z.leb_spec (c * selStep) (2 * k)) as [L|L].
  - rewrite getAttenuation_exact by (left; exact L).
    rewrite Z.mod_small by lia. lia.
  - destruct (Z.eq_dec ((4 * k) mod c) 0) as [E|E].
    + rewrite getAttenuation_exact by (right; exact E).
      rewrite Z.mod_small by lia. lia.
    + assert (H3 : c = 3 /\ k mod 3 <> 0).
      { four_cases c;
          try solve [exfalso; apply E; Z.div_mod_to_equations; lia].
        split; [reflexivity|Z.div_mod_to_equations; lia]. }
      destruct H3 as [H3 Hk3].
      rewrite getAttenuation_gate.
      destruct (Z.leb_spec (2 * k) (c * steps)) as [_|F]; [|lia].
      destruct (Z.leb_spec selStep steps) as [_|F]; [|lia].
      cbn [andb]. unfold B32.to_uint8.
      rewrite (attenuationFloat_slip _ _ _ _ _ D) by (assumption || lia).
      subst c.
      destruct (slip k selStep max_dB) as [[G1 G2] G3]; try lia.
      unfold exactCode in *.
      destruct (Z.leb_spec (3 * selStep) (2 * k)) as [L'|_]; [lia|].
      rewrite Z.mod_small by lia. lia.
Qed.

End Results.

(** ** From the specification's conditions to the derived integers *)

Lemma derive (steps min_dB max_dB : Z) :
  uint8 steps -> uint8 min_dB -> uint8 max_dB -> 1 <= steps -> min_dB <= max_dB ->
  coarseStepSize steps (max_dB - min_dB) <= 4 ->
  derived steps min_dB max_dB
    (coarseStepSize steps (max_dB - min_dB))
    (coarseStepSize steps (max_dB - min_dB) * steps - (max_dB - min_dB)).
Proof.
  intros Hs Hmin Hmax Hs1 Hle Hc.
  destruct (round_pow2_spec (max_dB - min_dB) steps Hs1 ltac:(lia)) as [H1 _].
  unfold derived, coarseStepSize, uint8 in *. repeat split; lia.
Qed.

Lemma feasible_derived (steps selStep min_dB max_dB c k : Z) :
  derived steps min_dB max_dB c k ->
  feasible steps selStep (max_dB - min_dB) <-> 2 * k <= c * steps /\ selStep <= steps.
Proof.
  intros (Hs & Hmin & Hmax & Hs1 & Hle & Hc & Hc4 & Hk).
  unfold feasible, fineStepCount, coarseStepSize. rewrite Hc, <- Hk.
  rewrite fineCount_le by lia. rewrite (Z.mul_comm steps c). intuition lia.
Qed.

Lemma fineStepCount_derived (steps min_dB max_dB c k : Z) :
  derived steps min_dB max_dB c k ->
  fineStepCount steps (max_dB - min_dB) = fineCount c k.
Proof.
  intros (Hs & Hmin & Hmax & Hs1 & Hle & Hc & Hc4 & Hk).
  unfold fineStepCount, coarseStepSize. now rewrite Hc, <- Hk.
Qed.

Lemma attenuationFormula_derived (steps selStep min_dB max_dB c k : Z) :
  derived steps min_dB max_dB c k ->
  (attenuationFormula steps selStep min_dB max_dB
   == inject_Z (exactCode c k selStep max_dB))%Q.
Proof.
  intros (Hs & Hmin & Hmax & Hs1 & Hle & Hc & Hc4 & Hk).
  unfold attenuationFormula, coarseStepSize. rewrite Hc, <- Hk.
  apply formula_exactCode. lia.
Qed.

(** The quotient is exact unless the coarse step is 3 and the range is not
    a multiple of 3. *)
Lemma quotient_exact (steps min_dB max_dB c k : Z) :
  derived steps min_dB max_dB c k ->
  (c = 3 -> (max_dB - min_dB) mod 3 = 0) -> (4 * k) mod c = 0.
Proof.
  intros (Hs & Hmin & Hmax & Hs1 & Hle & Hc & Hc4 & Hk) H3.
  four_cases c; try specialize (H3 eq_refl); arith.
Qed.

Lemma fineCount_gt (c k s : Z) :
  1 <= c -> (inject_Z s < fineCount c k)%Q <-> s * c < 2 * k.
Proof.
  intros Hc. split; intros H.
  - apply Qlt_not_le in H. rewrite fineCount_le in H by exact Hc. lia.
  - apply Qnot_le_lt. rewrite fineCount_le by exact Hc. lia.
Qed.

(** The float [numberOfSmallSteps] holds the fine step count exactly when
    the coarse step is not 3. *)
Lemma table_to_Q_half :
  Interval.all 0 1020 (fun x => Qeq_bool (B32.to_Q (B32.half x)) (Qmake x 2)) = true.
Proof. vm_cast_no_check (eq_refl true). Qed.

Lemma numberOfSmallSteps_value (steps min_dB max_dB c k : Z) :
  derived steps min_dB max_dB c k -> c <> 3 ->
  (B32.to_Q (numberOfSmallSteps steps min_dB max_dB) == fineCount c k)%Q.
Proof.
  intros D H3. pose proof (derived_k_pos _ _ _ _ _ D) as Hk1.
  rewrite (numberOfSmallSteps_derived _ _ _ _ _ D).
  destruct D as (Hs & Hmin & Hmax & Hs1 & Hle & Hc & Hc4 & Hk).
  unfold uint8 in *.
  assert (Hd : (4 * k) mod c = 0 /\ 0 <= 4 * k / c <= 1020 /\ 4 * k / c * c = 4 * k).
  { clear Hc. four_cases c; try contradiction; arith. }
  destruct Hd as (Hd1 & Hd2 & Hd3).
  rewrite div_half by (assumption || nia).
  pose proof table_to_Q_half as T.
  entry T (4 * k / c).
  apply Qeq_bool_eq in T. rewrite T.
  pose proof (fineCount_mul c k ltac:(lia)) as Hn.
  assert (Hc0 : ~ (inject_Z c == 0)%Q) by (unfold Qeq; simpl; lia).
  apply (Qmult_inj_r _ _ (inject_Z c) Hc0). rewrite Hn.
  unfold Qeq, Qmult, inject_Z. cbn [Qnum Qden Pos.mul]. lia.
Qed.

(** ** The body of [getAttenuation] and the globals *)

Module BodyProofs.

Import Body.
Import String.
Local Open Scope string_scope.
Local Open Scope Z_scope.

(** The difference of two bytes goes to [float] and back unchanged. *)
Lemma trunc_of_Z_table :
  Interval.all (-255) 255 (fun z => B32.trunc (B32.of_Z z) =? z) = true.
Proof. vm_cast_no_check (eq_refl true). Qed.

Lemma trunc_of_Z (z : Z) : -255 <= z <= 255 -> B32.trunc (B32.of_Z z) = z.
Proof.
  intros H. pose proof trunc_of_Z_table as T.
  apply (Interval_all_spec _ _ _ T z) in H. now apply Z.eqb_eq in H.
Qed.

Lemma int_small (z : Z) : -32768 <= z <= 32767 -> int z = Some (Int z).
Proof.
  intros H. unfold int.
  destruct (Z.leb_spec (-32768) z), (Z.leb_spec z 32767); try lia. reflexivity.
Qed.

(** Running the statements of [getAttenuation_def] on symbolic arguments:
    the interpreter is unfolded, the arithmetic of the program is not. *)
Ltac run :=
  cbv beta iota zeta delta
    [call getAttenuation_def parameters body List.length Nat.eqb combine map
     exec leave eval local both arith Body.compare minimum maximum to_float
     to_long option_map of_bool truth String.eqb Ascii.eqb Bool.eqb].

(** *** A body that names no global

    Evaluation and execution do not depend on the globals, and leave them as
    they are, when every identifier is a parameter or a local in scope. *)

Lemma bound_In (x : String.string) (bound : list String.string) :
  existsb (String.eqb x) bound = true <-> In x bound.
Proof.
  rewrite existsb_exists. split.
  - intros (y & Hy & E). apply String.eqb_eq in E. now subst.
  - intros H. exists x. split; [exact H|apply String.eqb_refl].
Qed.

Lemma local_names (l : locals) (x : String.string) :
  In x (names l) -> exists v, local l x = Some v.
Proof.
  induction l as [|[y v] l IH]; cbn [names map fst In local]; [tauto|].
  intros [E|I].
  - subst y. rewrite String.eqb_refl. now exists v.
  - destruct (String.eqb x y); [now exists v|now apply IH].
Qed.

Lemma set_local_names (l : locals) (x : String.string) (v w : value) :
  local l x = Some w ->
  exists l', set_local l x v = Some l' /\ names l' = names l.
Proof.
  induction l as [|[y u] l IH]; cbn [local set_local]; [discriminate|].
  destruct (String.eqb x y).
  - intros _. eexists. split; reflexivity.
  - intros H. destruct (IH H) as (l' & -> & E).
    eexists. split; [reflexivity|]. unfold names in *. cbn [map fst]. now rewrite E.
Qed.

Lemma eval_closed (bound : list String.string) (l : locals) (g1 g2 : Globals)
    (e : expr) :
  incl bound (names l) -> free_expr bound e = nil ->
  eval l g1 e = eval l g2 e.
Proof.
  intros Hb.
  induction e as [x|z|a IHa b IHb|a IHa b IHb|a IHa b IHb|a IHa b IHb
                  |a IHa b IHb|a IHa b IHb|a IHa b IHb|a IHa b IHb
                  |a IHa b IHb|a IHa b IHb];
    cbn [free_expr eval]; intros H;
    try (apply app_eq_nil in H; destruct H as [Ha Hb'];
         rewrite (IHa Ha), (IHb Hb'); reflexivity).
  - destruct (existsb (String.eqb x) bound) eqn:E; [|discriminate].
    apply bound_In in E. apply Hb in E.
    destruct (local_names _ _ E) as (v & ->). reflexivity.
  - reflexivity.
Qed.

Lemma free_grows (s : stmt) (bound : list String.string) :
  incl bound (snd (free bound s)).
Proof.
  revert bound.
  induction s as [x e|x e|c s1 IH1 s2 IH2|e|s1 IH1 s2 IH2]; intros bound;
    cbn [free snd]; try apply incl_refl.
  - apply incl_tl, incl_refl.
  - specialize (IH1 bound). destruct (free bound s1) as [f1 b1].
    specialize (IH2 b1). destruct (free b1 s2) as [f2 b2]. cbn [snd] in *.
    eapply incl_tran; eassumption.
Qed.

Lemma leave_agree (l : locals) (bound b' : list String.string)
    (g1 g2 : Globals) (r1 r2 : option flow) :
  incl bound (names l) ->
  agree l b' g1 g2 r1 r2 -> agree l bound g1 g2 (leave l r1) (leave l r2).
Proof.
  intros Hb.
  destruct r1 as [[l1 h1|v1 h1]|], r2 as [[l2 h2|v2 h2]|];
    cbn [agree leave]; try tauto.
  intros (-> & -> & -> & (new & E) & _).
  assert (N : names (skipn (List.length l2 - List.length l) l2) = names l).
  { unfold names in *. rewrite <- skipn_map, E.
    replace (List.length l2 - List.length l)%nat with (List.length new).
    - now rewrite skipn_app, skipn_all, Nat.sub_diag.
    - apply (f_equal (@List.length _)) in E.
      rewrite length_app, !length_map in E. lia. }
  repeat split.
  - exists nil. now rewrite N.
  - now rewrite N.
Qed.

Lemma exec_closed (s : stmt) (bound : list String.string) (l : locals)
    (g1 g2 : Globals) :
  incl bound (names l) -> fst (free bound s) = nil ->
  agree l (snd (free bound s)) g1 g2 (exec s l g1) (exec s l g2).
Proof.
  revert bound l.
  induction s as [x e|x e|c s1 IH1 s2 IH2|e|s1 IH1 s2 IH2]; intros bound l Hb;
    cbn [free fst snd exec]; intros H.
  - rewrite (eval_closed bound l g1 g2 e Hb H).
    destruct (eval l g2 e) as [v|]; cbn [agree]; [|exact I].
    repeat split.
    + exists (x :: nil). reflexivity.
    + cbn [names map fst]. apply incl_cons; [now left|].
      apply incl_tl. exact Hb.
  - apply app_eq_nil in H. destruct H as [Hx He].
    rewrite (eval_closed bound l g1 g2 e Hb He).
    destruct (eval l g2 e) as [v|]; cbn [agree]; [|exact I].
    destruct (existsb (String.eqb x) bound) eqn:E; [|discriminate].
    apply bound_In in E. apply Hb in E.
    destruct (local_names _ _ E) as (w & Hw). rewrite Hw.
    destruct w as [z|f].
    + destruct (set_local_names l x (Int (to_byte v)) _ Hw) as (l' & -> & N).
      cbn [option_map agree]. repeat split.
      * exists nil. now rewrite N.
      * now rewrite N.
    + destruct (set_local_names l x (Float (to_float v)) _ Hw) as (l' & -> & N).
      cbn [option_map agree]. repeat split.
      * exists nil. now rewrite N.
      * now rewrite N.
  - apply app_eq_nil in H. destruct H as [Hc H].
    apply app_eq_nil in H. destruct H as [H1 H2].
    rewrite (eval_closed bound l g1 g2 c Hb Hc).
    destruct (eval l g2 c) as [v|]; cbn [agree]; [|exact I].
    destruct (truth v); eapply (leave_agree _ _ _ _ _ _ _ Hb).
    + apply (IH1 bound l Hb H1).
    + apply (IH2 bound l Hb H2).
  - rewrite (eval_closed bound l g1 g2 e Hb H).
    destruct (eval l g2 e) as [v|]; cbn [agree]; [|exact I].
    repeat split.
  - specialize (IH1 bound l Hb).
    pose proof (free_grows s1 bound) as G1.
    destruct (free bound s1) as [f1 b1]. cbn [fst snd] in *.
    specialize (fun l' H => IH2 b1 l' H).
    destruct (free b1 s2) as [f2 b2]. cbn [fst snd] in *.
    apply app_eq_nil in H. destruct H as [-> ->].
    specialize (IH1 eq_refl).
    destruct (exec s1 l g1) as [[l1 h1|v1 h1]|],
             (exec s1 l g2) as [[l2 h2|v2 h2]|]; cbn [agree] in IH1;
      try tauto.
    + destruct IH1 as (-> & -> & -> & (new & E) & Hb1).
      specialize (IH2 l2 Hb1 eq_refl).
      destruct (exec s2 l2 g1) as [[l3 h3|v3 h3]|],
               (exec s2 l2 g2) as [[l4 h4|v4 h4]|]; cbn [agree] in *;
        try tauto.
      destruct IH2 as (-> & -> & -> & (new' & E') & Hb2).
      repeat split; [|exact Hb2].
      exists (new' ++ new)%list. now rewrite E', E, app_assoc.
    + exact IH1.
Qed.

Lemma combine_names (ps : list String.string) (vs : list value) :
  List.length vs = List.length ps -> names (combine ps vs) = ps.
Proof.
  revert vs. induction ps as [|p ps IH]; intros [|v vs]; cbn; try discriminate;
    try reflexivity.
  intros H. f_equal. apply IH. lia.
Qed.

(** A function whose body names no global returns the same result from any
    two states of the globals and leaves them as they are. *)
Lemma closed_function (f : function) (args : list Z) (g1 g2 : Globals) :
  globals_named f = nil ->
  match call f args g1, call f args g2 with
  | Some (v1, h1), Some (v2, h2) => v1 = v2 /\ h1 = g1 /\ h2 = g2
  | None, None => True
  | _, _ => False
  end.
Proof.
  unfold globals_named, call. intros H.
  destruct (Nat.eqb_spec (List.length args) (List.length (parameters f))) as [E|E];
    [|exact I].
  assert (Hb : incl (parameters f)
                 (names (combine (parameters f) (map Int args)))).
  { rewrite combine_names by now rewrite length_map. apply incl_refl. }
  pose proof (exec_closed (body f) _ _ g1 g2 Hb H) as A.
  destruct (exec (body f) _ g1) as [[l1 h1|v1 h1]|],
           (exec (body f) _ g2) as [[l2 h2|v2 h2]|]; cbn [agree] in A;
    try tauto.
  destruct A as (-> & -> & ->). repeat split.
Qed.

(** What running the body gives, from any state of the globals. *)
Lemma call_getAttenuation (steps selStep min_dB max_dB : Z) (g : Globals) :
  uint8 steps -> uint8 selStep -> uint8 min_dB -> uint8 max_dB ->
  call getAttenuation_def (steps :: selStep :: min_dB :: max_dB :: nil) g
  = Some (getAttenuation steps selStep min_dB max_dB, g).
Proof.
  intros Hs Hsel Hmin Hmax. unfold uint8 in *.
  run. rewrite int_small by lia.
  run. rewrite trunc_of_Z by lia.
  run.
  unfold getAttenuation, attenuationPossible, attenuationFloat,
    numberOfSmallSteps, sizeOfLargeSteps, att_dB, MUTE.
  cbv zeta.
  destruct (B32.leb _ (B32.of_Z steps)); cbn [negb Z.eqb andb];
    [|reflexivity].
  destruct (selStep <=? steps); cbn [negb Z.eqb andb]; [|reflexivity].
  destruct (B32.leb _ (B32.of_Z 4)); cbn [negb Z.eqb andb]; reflexivity.
Qed.

(** The program that [setVolume] calls is the run of the body. *)
Lemma getAttenuation_prog_runs (steps selStep min_dB max_dB : Z) (g : Globals) :
  uint8 steps -> uint8 selStep -> uint8 min_dB -> uint8 max_dB ->
  call getAttenuation_def (steps :: selStep :: min_dB :: max_dB :: nil) g
  = Some (getAttenuation_prog steps selStep min_dB max_dB g).
Proof. apply call_getAttenuation. Qed.

(** The language does see the globals: a body that returns a member of the
    globals returns what the state holds, and the assignment of [setVolume]
    changes the state as the program [setVolume] says. *)
Example member_read (g : Globals) :
  globals_named
    {| parameters := nil;
       body := Return (Id "CurrentRuntimeSettings.CurrentVolume") |}
  = ("CurrentRuntimeSettings.CurrentVolume" :: nil)%list
  /\ call {| parameters := nil;
             body := Return (Id "CurrentRuntimeSettings.CurrentVolume") |} nil g
     = Some (CurrentVolume (CurrentRuntimeSettings g) mod 256, g).
Proof. split; reflexivity. Qed.

Lemma getAttenuation_byte (steps selStep min_dB max_dB : Z) :
  uint8 (getAttenuation steps selStep min_dB max_dB).
Proof.
  unfold getAttenuation, uint8, B32.to_uint8, MUTE.
  destruct (attenuationPossible steps selStep min_dB max_dB); [|lia].
  pose proof (Z.mod_pos_bound (B32.trunc (attenuationFloat steps selStep min_dB max_dB)) 256).
  lia.
Qed.

Lemma setVolume_body_writes (g : Globals) :
  exec (setVolume_body
          (getAttenuation (VolumeSteps (CurrentSettings g))
             (CurrentVolume (CurrentRuntimeSettings g))
             (MinAttenuation (CurrentSettings g))
             (MaxAttenuation (CurrentSettings g)))) nil g
  = Some (Next nil (snd (setVolume g))).
Proof.
  pose proof (getAttenuation_byte (VolumeSteps (CurrentSettings g))
                (CurrentVolume (CurrentRuntimeSettings g))
                (MinAttenuation (CurrentSettings g))
                (MaxAttenuation (CurrentSettings g))) as Ha.
  unfold uint8 in Ha.
  cbv beta iota zeta delta
    [setVolume_body exec eval local option_map set_member to_byte
     String.eqb Ascii.eqb Bool.eqb].
  rewrite Z.mod_small by lia. reflexivity.
Qed.

End BodyProofs.

(** * The claims *)

Ltac by_evaluation :=
  vm_compute; repeat split;
  first [ reflexivity | discriminate | let H := fresh in intro H; discriminate H ].

(** C1 (amended).  When the profile is feasible and the value of the
    formula fits the eight bits of the result, [getAttenuation] returns the
    value of the formula
    [(max_dB - (min(selStep, fineStepCount) * (coarseStepSize / 2)
                + max(selStep - fineStepCount, 0) * coarseStepSize)) * 2]
    at every step, but for the steps above the fine step count of a profile
    with coarse step 3 whose range is not a multiple of 3: there the fine
    step count is not a multiple of one half and the float that holds it is
    used. *)
Theorem getAttenuation_formula (steps selStep min_dB max_dB : Z) :
  uint8 steps -> uint8 selStep -> uint8 min_dB -> uint8 max_dB ->
  1 <= steps -> min_dB < max_dB ->
  feasible steps selStep (max_dB - min_dB) ->
  (coarseStepSize steps (max_dB - min_dB) = 3 ->
   (max_dB - min_dB) mod 3 = 0
   \/ (inject_Z selStep <= fineStepCount steps (max_dB - min_dB))%Q) ->
  (attenuationFormula steps selStep min_dB max_dB <= 255)%Q ->
  (inject_Z (getAttenuation steps selStep min_dB max_dB)
   == attenuationFormula steps selStep min_dB max_dB)%Q.
Proof.
  intros Hs Hsel Hmin Hmax Hs1 Hlt Hf H3 Hfit.
  assert (Hc : coarseStepSize steps (max_dB - min_dB) <= 4) by apply Hf.
  pose proof (derive steps min_dB max_dB Hs Hmin Hmax Hs1 ltac:(lia) Hc) as D.
  rewrite (fineStepCount_derived _ _ _ _ _ D) in H3.
  set (c := coarseStepSize steps (max_dB - min_dB)) in *.
  set (k := c * steps - (max_dB - min_dB)) in *.
  assert (Hc1 : 1 <= c) by (destruct D as (_ & _ & _ & _ & _ & _ & H & _); lia).
  apply (feasible_derived _ _ _ _ _ _ D) in Hf. destruct Hf as [Hfine Hin].
  rewrite (attenuationFormula_derived _ _ _ _ _ _ D) in *.
  change 255%Q with (inject_Z 255) in Hfit. rewrite <- Zle_Qle in Hfit.
  pose proof (exactCode_range _ _ _ _ _ _ D Hsel Hin Hfine) as HX.
  rewrite (getAttenuation_exact _ _ _ _ _ _ D Hsel Hin Hfine).
  - unfold uint8 in *. now rewrite Z.mod_small by lia.
  - destruct (Z.eq_dec c 3) as [E|E].
    + destruct (H3 E) as [M|L].
      * right. apply (quotient_exact _ _ _ _ _ D). intros _. exact M.
      * left. apply (fineCount_ge c k selStep Hc1) in L. lia.
    + right. apply (quotient_exact _ _ _ _ _ D). intros E'. contradiction.
Qed.

Lemma getAttenuation_formula_witness :
  (inject_Z (getAttenuation 18 16 1 30) == attenuationFormula 18 16 1 30)%Q.
Proof.
  apply getAttenuation_formula; unfold uint8, feasible; try lia.
  - by_evaluation.
  - intros _. right. by_evaluation.
  - by_evaluation.
Defined.

(** C1 as stated fails where the formula exceeds eight bits: with one step
    between 199 and 200 dB the profile is feasible and the formula is 400.
    It also fails above the fine step count of a profile with coarse step 3
    whose range is not a multiple of 3: 18 steps over 1..30 dB are feasible,
    the formula is 2 at step 18 and the program returns 1. *)
Lemma getAttenuation_formula_overflow :
  (1 <= 1 /\ 199 < 200 /\ feasible 1 0 (200 - 199)
   /\ (attenuationFormula 1 0 199 200 == 400)%Q
   /\ getAttenuation 1 0 199 200 = 144
   /\ ~ (inject_Z (getAttenuation 1 0 199 200) == attenuationFormula 1 0 199 200)%Q)
  /\ (1 <= 18 /\ 1 < 30 /\ feasible 18 18 (30 - 1)
      /\ coarseStepSize 18 (30 - 1) = 3
      /\ (attenuationFormula 18 18 1 30 == 2)%Q
      /\ getAttenuation 18 18 1 30 = 1
      /\ ~ (inject_Z (getAttenuation 18 18 1 30) == attenuationFormula 18 18 1 30)%Q).
Proof.
  unfold feasible. split; repeat split; try lia; try reflexivity; by_evaluation.
Qed.

(** C2.  On the documented input range (1 <= steps <= 179, 0 <= selStep,
    min_dB < max_dB <= 90) [getAttenuation] returns the MUTE code 223 exactly
    when steps < fineStepCount, or selStep > steps, or coarseStepSize > 4. *)
Theorem mute_iff_infeasible (steps selStep min_dB max_dB : Z) :
  1 <= steps <= 179 -> 0 <= selStep -> 0 <= min_dB -> min_dB < max_dB <= 90 ->
  getAttenuation steps selStep min_dB max_dB = MUTE
  <-> (inject_Z steps < fineStepCount steps (max_dB - min_dB))%Q
      \/ steps < selStep
      \/ 4 < coarseStepSize steps (max_dB - min_dB).
Proof.
  intros Hs Hsel Hmin Hmax.
  destruct (Z_le_gt_dec (coarseStepSize steps (max_dB - min_dB)) 4) as [Hc|Hc].
  - assert (D : derived steps min_dB max_dB
                  (coarseStepSize steps (max_dB - min_dB))
                  (coarseStepSize steps (max_dB - min_dB) * steps - (max_dB - min_dB)))
      by (apply derive; unfold uint8; lia).
    rewrite (fineStepCount_derived _ _ _ _ _ D).
    set (c := coarseStepSize steps (max_dB - min_dB)) in *.
    set (k := c * steps - (max_dB - min_dB)) in *.
    assert (Hc1 : 1 <= c) by (destruct D as (_ & _ & _ & _ & _ & _ & H & _); lia).
    rewrite fineCount_gt by exact Hc1.
    split.
    + intros HM.
      destruct (Z_lt_le_dec (steps * c) (2 * k)) as [F|F]; [now left|].
      destruct (Z_lt_le_dec steps selStep) as [G|G]; [now right; left|].
      exfalso.
      assert (Hsel8 : uint8 selStep) by (unfold uint8; lia).
      pose proof (exactCode_range _ _ _ _ _ _ D Hsel8 G ltac:(lia)) as HX.
      destruct (getAttenuation_near _ _ _ _ _ _ D Hsel8 G ltac:(lia) ltac:(lia))
        as [[_ H2] _].
      unfold MUTE in HM. lia.
    + intros [H|[H|H]].
      * apply (getAttenuation_mute _ _ _ _ _ _ D). now left.
      * apply (getAttenuation_mute _ _ _ _ _ _ D). now right.
      * lia.
  - split; [intros _; right; right; lia|intros _].
    unfold coarseStepSize in Hc.
    destruct (round_pow2_spec (max_dB - min_dB) steps ltac:(lia) ltac:(lia))
      as (_ & Hlo & _).
    assert (Hp : 5 ^ steps <= round_pow2 (max_dB - min_dB) steps ^ steps)
      by (apply Z.pow_le_mono_l; lia).
    unfold getAttenuation, attenuationPossible, sizeOfLargeSteps.
    rewrite coarse_above_four by lia.
    now rewrite andb_false_r.
Qed.

Lemma mute_iff_infeasible_witness :
  getAttenuation 179 0 0 90 = MUTE
  <-> (inject_Z 179 < fineStepCount 179 (90 - 0))%Q
      \/ 179 < 0
      \/ 4 < coarseStepSize 179 (90 - 0).
Proof.
  apply mute_iff_infeasible; lia.
Defined.

(** C3 (amended).  For a feasible profile with max_dB <= 127, so that every
    code fits eight bits, the code is non-increasing in the selected step. *)
Theorem getAttenuation_monotone (steps s1 s2 min_dB max_dB : Z) :
  uint8 steps -> uint8 min_dB -> uint8 max_dB ->
  1 <= steps -> min_dB < max_dB -> max_dB <= 127 ->
  coarseStepSize steps (max_dB - min_dB) <= 4 ->
  (fineStepCount steps (max_dB - min_dB) <= inject_Z steps)%Q ->
  0 <= s1 <= s2 -> s2 <= steps ->
  getAttenuation steps s2 min_dB max_dB <= getAttenuation steps s1 min_dB max_dB.
Proof.
  intros Hs Hmin Hmax Hs1 Hlt H127 Hc Hn H12 H2.
  pose proof (derive steps min_dB max_dB Hs Hmin Hmax Hs1 ltac:(lia) Hc) as D.
  rewrite (fineStepCount_derived _ _ _ _ _ D) in Hn.
  set (c := coarseStepSize steps (max_dB - min_dB)) in *.
  set (k := c * steps - (max_dB - min_dB)) in *.
  assert (Hc1 : 1 <= c) by (destruct D as (_ & _ & _ & _ & _ & _ & H & _); lia).
  apply fineCount_le in Hn; [|exact Hc1].
  pose proof (derived_k_pos _ _ _ _ _ D) as Hk1.
  destruct (Z.eq_dec s1 s2) as [->|Hne]; [lia|].
  assert (U1 : uint8 s1) by (unfold uint8 in *; lia).
  assert (U2 : uint8 s2) by (unfold uint8 in *; lia).
  destruct (getAttenuation_near _ s1 _ _ _ _ D U1 ltac:(lia) ltac:(lia) H127)
    as [[L1 _] _].
  destruct (getAttenuation_near _ s2 _ _ _ _ D U2 ltac:(lia) ltac:(lia) H127)
    as [[_ R2] _].
  pose proof (exactCode_decreasing c k s1 s2 max_dB Hc1 ltac:(lia) ltac:(lia)).
  lia.
Qed.

Lemma getAttenuation_monotone_witness :
  getAttenuation 18 18 1 30 <= getAttenuation 18 17 1 30.
Proof.
  apply getAttenuation_monotone; unfold uint8; try lia; by_evaluation.
Defined.

(** C3 as stated fails above 127 dB, where the code of a low step no longer
    fits eight bits: one step between 127 and 128 dB. *)
Lemma getAttenuation_monotone_overflow :
  coarseStepSize 1 (128 - 127) <= 4
  /\ (fineStepCount 1 (128 - 127) <= inject_Z 1)%Q
  /\ 0 <= 0 <= 1 /\ 1 <= 1
  /\ getAttenuation 1 0 127 128 = 0
  /\ getAttenuation 1 1 127 128 = 254
  /\ ~ getAttenuation 1 1 127 128 <= getAttenuation 1 0 127 128.
Proof.
  assert (E0 : getAttenuation 1 0 127 128 = 0) by (vm_compute; reflexivity).
  assert (E1 : getAttenuation 1 1 127 128 = 254) by (vm_compute; reflexivity).
  rewrite E0, E1. repeat split; try lia; by_evaluation.
Qed.

(** C4 (amended).  For a valid profile (steps >= 1, 0 <= minDb < maxDb <= 90)
    whose coarse step is at most 4 and whose fine step count is at most
    [steps], step 0 gets the maximum attenuation, [maxDb * 2]. *)
Theorem getAttenuation_step_zero (steps min_dB max_dB : Z) :
  uint8 steps -> 1 <= steps -> 0 <= min_dB -> min_dB < max_dB <= 90 ->
  coarseStepSize steps (max_dB - min_dB) <= 4 ->
  (fineStepCount steps (max_dB - min_dB) <= inject_Z steps)%Q ->
  getAttenuation steps 0 min_dB max_dB = max_dB * 2.
Proof.
  intros Hs Hs1 Hmin Hmax Hc Hn.
  assert (D : derived steps min_dB max_dB
                (coarseStepSize steps (max_dB - min_dB))
                (coarseStepSize steps (max_dB - min_dB) * steps - (max_dB - min_dB)))
    by (apply derive; unfold uint8 in *; lia).
  rewrite (fineStepCount_derived _ _ _ _ _ D) in Hn.
  set (c := coarseStepSize steps (max_dB - min_dB)) in *.
  set (k := c * steps - (max_dB - min_dB)) in *.
  assert (Hc1 : 1 <= c) by (destruct D as (_ & _ & _ & _ & _ & _ & H & _); lia).
  apply fineCount_le in Hn; [|exact Hc1].
  pose proof (derived_k_pos _ _ _ _ _ D) as Hk1.
  rewrite (getAttenuation_exact _ 0 _ _ _ _ D); unfold uint8; try lia.
  unfold exactCode.
  destruct (Z.leb_spec (c * 0) (2 * k)) as [_|F]; [|lia].
  rewrite Z.mod_small by lia. lia.
Qed.

Lemma getAttenuation_step_zero_witness : getAttenuation 179 0 0 90 = 90 * 2.
Proof.
  apply getAttenuation_step_zero; unfold uint8; try lia; by_evaluation.
Defined.

(** C4 as stated fails when the fine step count exceeds [steps]: ten steps
    over 1 dB have coarse step 1 and fine step count 18, and mute. *)
Lemma getAttenuation_step_zero_mutes :
  1 <= 10 /\ 0 <= 0 < 1 /\ 1 <= 90
  /\ coarseStepSize 10 (1 - 0) <= 4
  /\ (fineStepCount 10 (1 - 0) == 18)%Q
  /\ getAttenuation 10 0 0 1 = MUTE
  /\ getAttenuation 10 0 0 1 <> 1 * 2.
Proof.
  assert (E : getAttenuation 10 0 0 1 = MUTE) by (vm_compute; reflexivity).
  rewrite E. unfold MUTE. repeat split; try lia; by_evaluation.
Qed.

(** C5 (amended).  For a feasible profile with minDb <= 127, whose coarse
    step is not 3 or whose range is a multiple of 3, the top step gets the
    minimum attenuation, [minDb * 2]. *)
Theorem getAttenuation_top_step (steps min_dB max_dB : Z) :
  uint8 steps -> uint8 min_dB -> uint8 max_dB ->
  1 <= steps -> min_dB < max_dB -> min_dB <= 127 ->
  coarseStepSize steps (max_dB - min_dB) <= 4 ->
  (fineStepCount steps (max_dB - min_dB) <= inject_Z steps)%Q ->
  (coarseStepSize steps (max_dB - min_dB) = 3 -> (max_dB - min_dB) mod 3 = 0) ->
  getAttenuation steps steps min_dB max_dB = min_dB * 2.
Proof.
  intros Hs Hmin Hmax Hs1 Hlt H127 Hc Hn H3.
  pose proof (derive steps min_dB max_dB Hs Hmin Hmax Hs1 ltac:(lia) Hc) as D.
  rewrite (fineStepCount_derived _ _ _ _ _ D) in Hn.
  set (c := coarseStepSize steps (max_dB - min_dB)) in *.
  set (k := c * steps - (max_dB - min_dB)) in *.
  assert (Hc1 : 1 <= c) by (destruct D as (_ & _ & _ & _ & _ & _ & H & _); lia).
  apply fineCount_le in Hn; [|exact Hc1].
  rewrite (getAttenuation_exact _ steps _ _ _ _ D); try lia; try assumption.
  - unfold exactCode, uint8 in *.
    destruct (Z.leb_spec (c * steps) (2 * k)); rewrite Z.mod_small; lia.
  - right. apply (quotient_exact _ _ _ _ _ D H3).
Qed.

Lemma getAttenuation_top_step_witness : getAttenuation 10 10 0 18 = 0 * 2.
Proof.
  apply getAttenuation_top_step; unfold uint8; try lia.
  - by_evaluation.
  - by_evaluation.
  - intros _. reflexivity.
Defined.

(** C5 as stated fails where [minDb * 2] exceeds eight bits: one step between
    128 and 129 dB. *)
Lemma getAttenuation_top_step_overflow :
  1 <= 1 /\ 128 < 129
  /\ coarseStepSize 1 (129 - 128) <= 4
  /\ (fineStepCount 1 (129 - 128) <= inject_Z 1)%Q
  /\ getAttenuation 1 1 128 129 = 0
  /\ getAttenuation 1 1 128 129 <> 128 * 2.
Proof.
  assert (E : getAttenuation 1 1 128 129 = 0) by (vm_compute; reflexivity).
  rewrite E. repeat split; try lia; by_evaluation.
Qed.

(** C6 (amended).  For a valid profile that passes the feasibility policy
    the coarse step size is an integer between 1 and 4, the fine step count
    lies in (0, steps], and [coarseStepSize * fineStepCount] is the integer
    [2 * (coarseStepSize * steps - rangeDb)]: the fine step count is a whole
    number exactly when the coarse step divides that integer, which it
    always does when the coarse step is 1 or 2 (and not always when it is 3
    or 4, see [derived_profile_fractional]).  The float [numberOfSmallSteps]
    holds it exactly unless the coarse step is 3. *)
Theorem derived_profile (steps selStep min_dB max_dB : Z) :
  uint8 steps -> 1 <= steps -> 0 <= min_dB -> min_dB < max_dB <= 90 ->
  feasible steps selStep (max_dB - min_dB) ->
  let c := coarseStepSize steps (max_dB - min_dB) in
  let n := fineStepCount steps (max_dB - min_dB) in
  1 <= c <= 4
  /\ (0 < n)%Q /\ (n <= inject_Z steps)%Q
  /\ (n * inject_Z c == inject_Z (2 * (c * steps - (max_dB - min_dB))))%Q
  /\ (c <= 2 -> exists z : Z, (n == inject_Z z)%Q)
  /\ ((exists z : Z, (n == inject_Z z)%Q)
      <-> (2 * (c * steps - (max_dB - min_dB))) mod c = 0)
  /\ (c <> 3 -> (B32.to_Q (numberOfSmallSteps steps min_dB max_dB) == n)%Q).
Proof.
  intros Hs Hs1 Hmin Hmax Hf c n.
  assert (Hc : c <= 4) by apply Hf.
  assert (D : derived steps min_dB max_dB c (c * steps - (max_dB - min_dB)))
    by (apply derive; unfold uint8 in *; lia).
  assert (Hn : (n <= inject_Z steps)%Q) by apply Hf.
  unfold n in *. rewrite (fineStepCount_derived _ _ _ _ _ D) in *.
  set (k := c * steps - (max_dB - min_dB)) in *.
  assert (Hc1 : 1 <= c) by (destruct D as (_ & _ & _ & _ & _ & _ & H & _); lia).
  pose proof (derived_k_pos _ _ _ _ _ D) as Hk1.
  pose proof (fineCount_mul c k Hc1) as Hm.
  assert (Hc0 : ~ (inject_Z c == 0)%Q) by (unfold Qeq; simpl; lia).
  assert (Hw : (exists z : Z, (fineCount c k == inject_Z z)%Q)
               <-> (2 * k) mod c = 0).
  { split.
    - intros (z & Hz). rewrite Hz, <- inject_Z_mult in Hm.
      apply (proj1 (inject_Z_injective _ _)) in Hm. rewrite <- Hm.
      apply Z.mod_mul. lia.
    - intros H0. exists (2 * k / c).
      apply (Qmult_inj_r _ _ (inject_Z c) Hc0). rewrite Hm, <- inject_Z_mult.
      apply inject_Z_injective. arith. }
  split; [lia|]. split; [apply (fineCount_gt c k 0 Hc1); lia|].
  split; [exact Hn|]. split; [exact Hm|].
  split; [|split; [exact Hw|]].
  - intros H2. apply Hw.
    assert (H12 : c = 1 \/ c = 2) by lia.
    destruct H12 as [-> | ->]; arith.
  - intros H3. apply (numberOfSmallSteps_value _ _ _ _ _ D H3).
Qed.

Lemma derived_profile_witness :
  1 <= coarseStepSize 60 (60 - 0) <= 4
  /\ (0 < fineStepCount 60 (60 - 0))%Q
  /\ (fineStepCount 60 (60 - 0) <= inject_Z 60)%Q
  /\ (fineStepCount 60 (60 - 0) * inject_Z (coarseStepSize 60 (60 - 0))
      == inject_Z (2 * (coarseStepSize 60 (60 - 0) * 60 - (60 - 0))))%Q
  /\ (coarseStepSize 60 (60 - 0) <= 2 ->
      exists z : Z, (fineStepCount 60 (60 - 0) == inject_Z z)%Q)
  /\ ((exists z : Z, (fineStepCount 60 (60 - 0) == inject_Z z)%Q)
      <-> (2 * (coarseStepSize 60 (60 - 0) * 60 - (60 - 0)))
            mod coarseStepSize 60 (60 - 0) = 0)
  /\ (coarseStepSize 60 (60 - 0) <> 3 ->
      (B32.to_Q (numberOfSmallSteps 60 0 60) == fineStepCount 60 (60 - 0))%Q).
Proof.
  apply (derived_profile 60 0 0 60); unfold uint8, feasible; try lia.
  repeat split; by_evaluation.
Defined.

(** C6 as stated fails for coarse steps 3 and 4.  Ten steps over 16 dB pass
    the policy with coarse step 3 and have fine step count 28/3, which the
    program holds as the float 9786709 * 2^-20; four steps over 9 dB pass it
    with coarse step 4 and have fine step count 7/2. *)
Lemma derived_profile_fractional :
  (1 <= 10 /\ 0 <= 0 < 16 /\ 16 <= 90 /\ feasible 10 0 (16 - 0)
   /\ coarseStepSize 10 (16 - 0) = 3
   /\ (fineStepCount 10 (16 - 0) == 28 # 3)%Q
   /\ (forall z : Z, ~ (fineStepCount 10 (16 - 0) == inject_Z z)%Q)
   /\ numberOfSmallSteps 10 0 16 = S754_finite false 9786709 (-20))
  /\ (1 <= 4 /\ 0 <= 0 < 9 /\ 9 <= 90 /\ feasible 4 0 (9 - 0)
      /\ coarseStepSize 4 (9 - 0) = 4
      /\ (fineStepCount 4 (9 - 0) == 7 # 2)%Q
      /\ (forall z : Z, ~ (fineStepCount 4 (9 - 0) == inject_Z z)%Q)
      /\ numberOfSmallSteps 4 0 9 = S754_finite false 14680064 (-22)).
Proof.
  assert (E : fineStepCount 10 (16 - 0) = 28 # 3) by (vm_compute; reflexivity).
  assert (F : fineStepCount 4 (9 - 0) = 14 # 4) by (vm_compute; reflexivity).
  unfold feasible. rewrite E, F.
  split; repeat split; try lia; try reflexivity; try by_evaluation;
    intros z H; unfold Qeq in H; cbn [Qnum Qden inject_Z] in H; lia.
Qed.

(** C7.  The default profile: 60 steps over 0..60 dB give code 120 at step 0
    and code 0 at step 60. *)
Theorem default_profile_endpoints :
  getAttenuation 60 0 0 60 = 120 /\ getAttenuation 60 60 0 60 = 0.
Proof.
  split; vm_compute; reflexivity.
Qed.

(** C8.  [getAttenuation] is deterministic and free of side effects: its
    body names no global, and run on the same four [uint8_t] arguments from
    any two states of the globals it returns the same code, the value of
    [getAttenuation] at the arguments, and leaves each state as it was. *)
Theorem getAttenuation_pure (steps selStep min_dB max_dB : Z) (g1 g2 : Globals) :
  uint8 steps -> uint8 selStep -> uint8 min_dB -> uint8 max_dB ->
  Body.globals_named Body.getAttenuation_def = nil
  /\ Body.call Body.getAttenuation_def
       (steps :: selStep :: min_dB :: max_dB :: nil) g1
     = Some (getAttenuation steps selStep min_dB max_dB, g1)
  /\ Body.call Body.getAttenuation_def
       (steps :: selStep :: min_dB :: max_dB :: nil) g2
     = Some (getAttenuation steps selStep min_dB max_dB, g2).
Proof.
  intros Hs Hsel Hmin Hmax.
  split; [reflexivity|].
  split; apply BodyProofs.call_getAttenuation; assumption.
Qed.

Lemma getAttenuation_pure_witness :
  let g1 := {| CurrentSettings :=
                 {| VolumeSteps := 60; MinAttenuation := 0; MaxAttenuation := 60 |};
               CurrentRuntimeSettings :=
                 {| CurrentVolume := 30; CurrentAttenuation := 0 |} |} in
  let g2 := {| CurrentSettings :=
                 {| VolumeSteps := 18; MinAttenuation := 1; MaxAttenuation := 30 |};
               CurrentRuntimeSettings :=
                 {| CurrentVolume := 18; CurrentAttenuation := 223 |} |} in
  Body.globals_named Body.getAttenuation_def = nil
  /\ Body.call Body.getAttenuation_def (60 :: 30 :: 0 :: 60 :: nil) g1
     = Some (getAttenuation 60 30 0 60, g1)
  /\ Body.call Body.getAttenuation_def (60 :: 30 :: 0 :: 60 :: nil) g2
     = Some (getAttenuation 60 30 0 60, g2).
Proof.
  intros g1 g2.
  apply (getAttenuation_pure 60 30 0 60 g1 g2); unfold uint8; lia.
Defined.

(** The caller is where the state changes: [setVolume] stores the code of
    the current settings and leaves everything else. *)
Lemma setVolume_writes (g : Globals) :
  snd (setVolume g)
  = {| CurrentSettings := CurrentSettings g;
       CurrentRuntimeSettings :=
         {| CurrentVolume := CurrentVolume (CurrentRuntimeSettings g);
            CurrentAttenuation :=
              getAttenuation (VolumeSteps (CurrentSettings g))
                             (CurrentVolume (CurrentRuntimeSettings g))
                             (MinAttenuation (CurrentSettings g))
                             (MaxAttenuation (CurrentSettings g)) |} |}.
Proof. reflexivity. Qed.

(** C9.  With min_dB = max_dB and steps >= 1 the coarse step is 1, the fine
    step count is 2 * steps > steps, and [getAttenuation] returns MUTE for
    every selected step. *)
Theorem zero_range_mutes (steps selStep m : Z) :
  uint8 steps -> uint8 m -> 1 <= steps ->
  getAttenuation steps selStep m m = MUTE
  /\ coarseStepSize steps (m - m) = 1
  /\ (fineStepCount steps (m - m) == inject_Z (2 * steps))%Q
  /\ sizeOfLargeSteps steps m m = B32.of_Z 1
  /\ numberOfSmallSteps steps m m = B32.of_Z (2 * steps).
Proof.
  intros Hs Hm Hs1.
  assert (Hc : coarseStepSize steps (m - m) = 1).
  { unfold coarseStepSize. rewrite Z.sub_diag. now apply round_pow2_zero_range. }
  assert (D : derived steps m m 1 steps).
  { unfold derived. unfold coarseStepSize in Hc. repeat split; try apply Hs; try apply Hm; lia. }
  repeat split.
  - apply (getAttenuation_mute _ _ _ _ _ _ D). left. lia.
  - exact Hc.
  - unfold fineStepCount. rewrite Hc, Z.sub_diag.
    replace (1 * steps - 0) with steps by lia.
    pose proof (fineCount_mul 1 steps ltac:(lia)) as H.
    change (inject_Z 1) with 1%Q in H. now rewrite Qmult_1_r in H.
  - apply (sizeOfLargeSteps_derived _ _ _ _ _ D).
  - rewrite (numberOfSmallSteps_derived _ _ _ _ _ D).
    unfold uint8 in *.
    rewrite div_half by (rewrite ?Z.mod_1_r; lia).
    rewrite Z.div_1_r, of_Z_half by lia. f_equal. lia.
Qed.

Lemma zero_range_mutes_witness :
  getAttenuation 60 7 30 30 = MUTE
  /\ coarseStepSize 60 (30 - 30) = 1
  /\ (fineStepCount 60 (30 - 30) == inject_Z (2 * 60))%Q
  /\ sizeOfLargeSteps 60 30 30 = B32.of_Z 1
  /\ numberOfSmallSteps 60 30 30 = B32.of_Z (2 * 60).
Proof.
  apply zero_range_mutes; unfold uint8; lia.
Defined.

(** C10 at its failing input.  18 steps over 1..30 dB are feasible (coarse
    step 3, fine step count 50/3); the formula gives 2 = 2 * min_dB at the
    top step, the program converts the float 1.99999619 (16777184 * 2^-23)
    and returns 1, below [2 * min_dB]. *)
Theorem getAttenuation_below_minimum :
  feasible 18 18 (30 - 1) /\ 30 <= 90
  /\ (attenuationFormula 18 18 1 30 == 2)%Q
  /\ attenuationFloat 18 18 1 30 = S754_finite false 16777184 (-23)
  /\ getAttenuation 18 18 1 30 = 1
  /\ ~ 2 * 1 <= getAttenuation 18 18 1 30.
Proof.
  assert (E : getAttenuation 18 18 1 30 = 1) by (vm_compute; reflexivity).
  rewrite E. unfold feasible.
  repeat split; try lia; try reflexivity; by_evaluation.
Qed.

(** * The relay controller *)

Module RelayProofs.
Import Relay.

Lemma shiftl_one_neg (p : Z) : p < 0 -> Z.shiftl 1 p = 0.
Proof.
  intros Hp. replace p with (- (- p)) by lia.
  rewrite Z.shiftl_opp_r, Z.shiftr_div_pow2 by lia.
  apply Z.div_small. split; [lia|].
  apply (Z.pow_gt_1 2 (- p)); lia.
Qed.

Lemma registers_write_same (p : Z) (v : bool) (r : Registers) :
  0 <= p <= 7 ->
  registers_digitalRead (registers_digitalWrite p v r) p = v.
Proof.
  intros Hp. unfold registers_digitalRead, registers_digitalWrite.
  destruct (Z.ltb_spec 7 p) as [F|_]; [lia|].
  destruct v; cbn [GPIO].
  - apply (Z.setbit_eq (GPIO r) p). lia.
  - apply (Z.clearbit_eq (GPIO r) p).
Qed.

Lemma registers_write_other (p q : Z) (v : bool) (r : Registers) :
  p <> q ->
  registers_digitalRead (registers_digitalWrite p v r) q = registers_digitalRead r q.
Proof.
  intros Hpq. unfold registers_digitalRead, registers_digitalWrite.
  destruct (Z.ltb_spec 7 p) as [_|Hp]; [reflexivity|].
  destruct v; cbn [GPIO].
  - destruct (Z.le_gt_cases 0 p) as [H|H].
    + now apply (Z.setbit_neq (GPIO r) p q).
    + rewrite shiftl_one_neg, Z.lor_0_r by exact H. reflexivity.
  - apply (Z.clearbit_neq (GPIO r) p q). exact Hpq.
Qed.

Lemma registers_pinMode_level (p m q : Z) (r : Registers) :
  registers_digitalRead (registers_pinMode p m r) q = registers_digitalRead r q.
Proof.
  unfold registers_digitalRead, registers_pinMode.
  now destruct (7 <? p).
Qed.

(** The register model is a device of the class. *)
Lemma registers_expander : Expander.
Proof.
  exact {| port := Registers;
           begin_port := registers_begin;
           pinMode := registers_pinMode;
           digitalWrite := registers_digitalWrite;
           digitalRead := registers_digitalRead;
           digitalWrite_same := registers_write_same;
           digitalWrite_other := registers_write_other;
           pinMode_level := registers_pinMode_level |}.
Defined.

Section Device.
Context {E : Expander}.

Ltac levels :=
  repeat first
    [ rewrite digitalWrite_same by lia
    | rewrite digitalWrite_other by lia
    | rewrite pinMode_level ].

Lemma begin_all_open (rc : RelayController) (pin : Z) :
  0 <= pin <= 7 -> digitalRead (mcp (begin rc)) pin = false.
Proof.
  intros Hp. unfold begin, with_mcp, LOW. cbn [mcp Interval.upto fold_left Z.add Pos.add Pos.succ].
  assert (C : pin = 0 \/ pin = 1 \/ pin = 2 \/ pin = 3 \/ pin = 4 \/ pin = 5
              \/ pin = 6 \/ pin = 7) by lia.
  destruct C as [-> | [-> | [-> | [-> | [-> | [-> | [-> | ->]]]]]]]; levels; reflexivity.
Qed.

Lemma begin_exclusive (rc : RelayController) : inputs_exclusive (begin rc).
Proof.
  intros pin Hp C. unfold closed in C.
  rewrite begin_all_open in C by lia. discriminate C.
Qed.

Lemma setInput_exclusive (n : Z) (rc : RelayController) :
  inputs_exclusive rc -> inputs_exclusive (setInput n rc).
Proof.
  intros I pin Hp C. unfold closed, setInput in *. cbn [mcp selectedInput] in *.
  destruct (Z.eq_dec pin n) as [e|ne]; [exact e|exfalso].
  rewrite digitalWrite_other in C by lia.
  destruct (Z.eq_dec pin (selectedInput rc)) as [e|ne'].
  - rewrite <- e, digitalWrite_same in C by lia. discriminate C.
  - rewrite digitalWrite_other in C by lia. apply ne'. now apply I.
Qed.

Lemma mute_exclusive (on : bool) (rc : RelayController) :
  inputs_exclusive rc -> inputs_exclusive (mute on rc).
Proof.
  intros I pin Hp C. unfold closed, mute, with_mcp in *. cbn [mcp selectedInput] in *.
  destruct (Z.eq_dec pin (selectedInput rc)) as [e|ne]; [exact e|].
  rewrite digitalWrite_other in C by lia. now apply I.
Qed.

Lemma SetTriggerOff_inputs (rc : RelayController) (pin : Z) :
  0 <= pin <= 5 ->
  digitalRead (mcp (SetTriggerOff rc)) pin = digitalRead (mcp rc) pin.
Proof.
  intros Hp. unfold SetTriggerOff, with_mcp. cbn [mcp]. now levels.
Qed.

Lemma perform_exclusive (c : call) (rc : RelayController) :
  input_call c -> inputs_exclusive rc -> inputs_exclusive (perform rc c).
Proof.
  intros V I. destruct c as [n|on| | |]; cbn [perform].
  - now apply setInput_exclusive.
  - now apply mute_exclusive.
  - exact I.
  - exact I.
  - intros pin Hp C. unfold closed in C. rewrite SetTriggerOff_inputs in C by exact Hp.
    now apply I.
Qed.

Lemma performAll_exclusive (calls : list call) (rc : RelayController) :
  Forall input_call calls -> inputs_exclusive rc ->
  inputs_exclusive (performAll calls rc).
Proof.
  unfold performAll. revert rc.
  induction calls as [|c calls IH]; intros rc V I; cbn [fold_left]; [exact I|].
  inversion V as [|c' calls' Vc Vs]; subst.
  apply IH; [exact Vs|]. now apply perform_exclusive.
Qed.

Lemma perform_triggers (c : call) (rc : RelayController) (pin : Z) :
  selection_call c -> 0 <= selectedInput rc -> selectedInput rc <> 6 -> selectedInput rc <> 7 ->
  pin = 6 \/ pin = 7 ->
  digitalRead (mcp (perform rc c)) pin = digitalRead (mcp rc) pin
  /\ 0 <= selectedInput (perform rc c)
  /\ selectedInput (perform rc c) <> 6 /\ selectedInput (perform rc c) <> 7.
Proof.
  intros V H0 H6 H7 Hp.
  destruct c as [n|on| | |]; cbn [perform selection_call] in *;
    unfold setInput, mute, with_mcp, setStandardTrigger, setTriggerOn;
    cbn [mcp selectedInput]; try (repeat split; (reflexivity || lia)).
  - repeat split; try lia. now levels.
  - repeat split; try lia. now levels.
Qed.

(** X1.  After [begin], whatever inputs are selected, muted and unmuted and
    whatever is done to the triggers, at most one of the input relays on
    pins 0 to 5 is closed, and it is the one of [selectedInput]. *)
Theorem input_relays_exclusive (rc : RelayController) (calls : list call) :
  Forall input_call calls ->
  inputs_exclusive (performAll calls (begin rc)).
Proof.
  intros V. apply performAll_exclusive; [exact V|]. apply begin_exclusive.
Qed.

(** X2.  When at most the selected relay is closed, [setInput n] leaves
    relay [n] closed and every other input relay open. *)
Theorem setInput_selects (rc : RelayController) (n pin : Z) :
  inputs_exclusive rc -> 0 <= n <= 5 -> 0 <= pin <= 5 ->
  closed (setInput n rc) pin <-> pin = n.
Proof.
  intros I Hn Hp. split.
  - intros C. now apply (setInput_exclusive n rc I pin Hp C).
  - intros ->. unfold closed, setInput. cbn [mcp]. now levels.
Qed.

(** X3.  [mute(true)] opens every input relay; when the selected relay was
    closed, [mute(false)] after it puts every pin back to its level. *)
Theorem mute_opens_and_restores (rc : RelayController) :
  inputs_exclusive rc ->
  (forall pin, 0 <= pin <= 5 -> digitalRead (mcp (mute true rc)) pin = false)
  /\ (0 <= selectedInput rc <= 5 -> closed rc (selectedInput rc) ->
      forall pin,
        digitalRead (mcp (mute false (mute true rc))) pin = digitalRead (mcp rc) pin).
Proof.
  intros I. split.
  - intros pin Hp. unfold mute, with_mcp. cbn [mcp Bool.eqb].
    destruct (Z.eq_dec pin (selectedInput rc)) as [e|ne].
    + rewrite <- e. now levels.
    + levels. destruct (digitalRead (mcp rc) pin) eqn:C; [|reflexivity].
      exfalso. apply ne. now apply I.
  - intros Hs C pin. unfold mute, with_mcp, closed in *. cbn [mcp selectedInput Bool.eqb].
    destruct (Z.eq_dec pin (selectedInput rc)) as [e|ne].
    + rewrite e. levels. now rewrite C.
    + now levels.
Qed.

(** X4.  Selecting and muting inputs never moves the trigger relays on pins
    6 and 7, and [SetTriggerOff] opens both without moving an input relay. *)
Theorem trigger_relays_apart (rc : RelayController) (calls : list call) :
  Forall selection_call calls ->
  0 <= selectedInput rc -> selectedInput rc <> 6 -> selectedInput rc <> 7 ->
  (forall pin, pin = 6 \/ pin = 7 ->
     digitalRead (mcp (performAll calls rc)) pin = digitalRead (mcp rc) pin)
  /\ (forall pin, 0 <= pin <= 5 ->
       digitalRead (mcp (SetTriggerOff (performAll calls rc))) pin
       = digitalRead (mcp (performAll calls rc)) pin)
  /\ digitalRead (mcp (SetTriggerOff (performAll calls rc))) 6 = false
  /\ digitalRead (mcp (SetTriggerOff (performAll calls rc))) 7 = false.
Proof.
  intros V H0 H6 H7. split; [|split; [|split]].
  - unfold performAll. revert rc H0 H6 H7.
    induction calls as [|c calls IH]; intros rc H0 H6 H7 pin Hp; cbn [fold_left];
      [reflexivity|].
    inversion V as [|c' calls' Vc Vs]; subst.
    destruct (perform_triggers c rc pin Vc H0 H6 H7 Hp) as (Q & Q0 & Q6 & Q7).
    rewrite (IH Vs (perform rc c) Q0 Q6 Q7 pin Hp). exact Q.
  - intros pin Hp. now apply SetTriggerOff_inputs.
  - unfold SetTriggerOff, with_mcp. cbn [mcp]. now levels.
  - unfold SetTriggerOff, with_mcp. cbn [mcp]. now levels.
Qed.

End Device.

Lemma input_relays_exclusive_witness :
  let rc := @RelayController_new registers_expander {| IODIR := 0; GPIO := 170 |} in
  inputs_exclusive
    (performAll (CallSetInput 2 :: CallMute true :: CallSetTriggerOff
                 :: CallSetInput 4 :: nil) (begin rc)).
Proof.
  intros rc. apply (@input_relays_exclusive registers_expander).
  repeat constructor; cbn; lia.
Defined.

Lemma setInput_selects_witness :
  let rc := @RelayController_new registers_expander {| IODIR := 0; GPIO := 170 |} in
  closed (setInput 3 (setInput 1 (begin rc))) 3 <-> 3 = 3.
Proof.
  intros rc. apply (@setInput_selects registers_expander); try lia.
  apply setInput_exclusive, begin_exclusive.
Defined.

Lemma mute_opens_and_restores_witness :
  let rc := setInput 1
              (begin (@RelayController_new registers_expander {| IODIR := 0; GPIO := 170 |})) in
  (forall pin, 0 <= pin <= 5 -> digitalRead (mcp (mute true rc)) pin = false)
  /\ (0 <= selectedInput rc <= 5 -> closed rc (selectedInput rc) ->
      forall pin,
        digitalRead (mcp (mute false (mute true rc))) pin = digitalRead (mcp rc) pin).
Proof.
  intros rc. apply (@mute_opens_and_restores registers_expander).
  apply setInput_exclusive, begin_exclusive.
Defined.

Lemma trigger_relays_apart_witness :
  let rc := setRelayOn 6
              (begin (@RelayController_new registers_expander {| IODIR := 0; GPIO := 170 |})) in
  let calls := CallSetInput 0 :: CallMute true :: CallSetInput 5 :: nil in
  (forall pin, pin = 6 \/ pin = 7 ->
     digitalRead (mcp (performAll calls rc)) pin = digitalRead (mcp rc) pin)
  /\ (forall pin, 0 <= pin <= 5 ->
       digitalRead (mcp (SetTriggerOff (performAll calls rc))) pin
       = digitalRead (mcp (performAll calls rc)) pin)
  /\ digitalRead (mcp (SetTriggerOff (performAll calls rc))) 6 = false
  /\ digitalRead (mcp (SetTriggerOff (performAll calls rc))) 7 = false.
Proof.
  intros rc calls.
  apply (@trigger_relays_apart registers_expander); cbn; try lia.
  repeat constructor; cbn; lia.
Defined.

End RelayProofs.

(** * The controller *)

Module ControllerProofs.
Import Controller.

(** ** Arrays *)

Lemma lookup_range {A : Type} (l : list A) (i : Z) (x : A) :
  lookup l i = Some x -> 0 <= i < Z.of_nat (length l).
Proof.
  unfold lookup. destruct (Z.ltb_spec i 0) as [|H0]; [discriminate|].
  intros H. assert (N : nth_error l (Z.to_nat i) <> None) by congruence.
  apply nth_error_Some in N. lia.
Qed.

Lemma lookup_in_range {A : Type} (l : list A) (i : Z) :
  0 <= i < Z.of_nat (length l) -> exists x, lookup l i = Some x.
Proof.
  intros H. unfold lookup. destruct (Z.ltb_spec i 0) as [|_]; [lia|].
  destruct (nth_error l (Z.to_nat i)) as [x|] eqn:E; [now exists x|].
  apply nth_error_None in E. lia.
Qed.

Lemma lookup_outside {A : Type} (l : list A) (i : Z) :
  Z.of_nat (length l) <= i -> lookup l i = None.
Proof.
  intros H. unfold lookup. destruct (Z.ltb_spec i 0) as [|_]; [reflexivity|].
  apply nth_error_None. lia.
Qed.

Lemma store_at_length {A : Type} (l l' : list A) (n : nat) (v : A) :
  store_at l n v = Some l' -> length l' = length l.
Proof.
  revert n l'. induction l as [|h t IH]; intros [|n] l' H; cbn in H; try discriminate.
  - injection H as <-. reflexivity.
  - destruct (store_at t n v) as [t'|] eqn:E; [|discriminate].
    injection H as <-. cbn. f_equal. now apply (IH n).
Qed.

Lemma store_at_same {A : Type} (l l' : list A) (n : nat) (v : A) :
  store_at l n v = Some l' -> nth_error l' n = Some v.
Proof.
  revert n l'. induction l as [|h t IH]; intros [|n] l' H; cbn in H; try discriminate.
  - injection H as <-. reflexivity.
  - destruct (store_at t n v) as [t'|] eqn:E; [|discriminate].
    injection H as <-. cbn. now apply IH.
Qed.

Lemma store_at_other {A : Type} (l l' : list A) (n m : nat) (v : A) :
  store_at l n v = Some l' -> n <> m -> nth_error l' m = nth_error l m.
Proof.
  revert n m l'. induction l as [|h t IH]; intros [|n] m l' H Hnm; cbn in H;
    try discriminate.
  - injection H as <-. destruct m; [congruence|reflexivity].
  - destruct (store_at t n v) as [t'|] eqn:E; [|discriminate].
    injection H as <-. destruct m; [reflexivity|]. cbn. apply (IH n); congruence.
Qed.

Lemma store_at_in_range {A : Type} (l : list A) (n : nat) (v : A) :
  (n < length l)%nat -> exists l', store_at l n v = Some l'.
Proof.
  revert n. induction l as [|h t IH]; intros [|n] H; cbn in *; try lia.
  - now eexists.
  - destruct (IH n ltac:(lia)) as [t' ->]. now eexists.
Qed.

Lemma store_length {A : Type} (l l' : list A) (i : Z) (v : A) :
  store l i v = Some l' -> length l' = length l.
Proof.
  unfold store. destruct (i <? 0); [discriminate|]. apply store_at_length.
Qed.

Lemma store_same {A : Type} (l l' : list A) (i : Z) (v : A) :
  store l i v = Some l' -> lookup l' i = Some v.
Proof.
  unfold store, lookup. destruct (i <? 0); [discriminate|]. apply store_at_same.
Qed.

Lemma store_other {A : Type} (l l' : list A) (i j : Z) (v : A) :
  store l i v = Some l' -> i <> j -> lookup l' j = lookup l j.
Proof.
  unfold store, lookup. destruct (Z.ltb_spec i 0) as [|Hi]; [discriminate|].
  intros H Hij. destruct (Z.ltb_spec j 0) as [|Hj]; [reflexivity|].
  apply (store_at_other l l' (Z.to_nat i) (Z.to_nat j) v); [exact H|lia].
Qed.

Lemma store_in_range {A : Type} (l : list A) (i : Z) (v : A) :
  0 <= i < Z.of_nat (length l) -> exists l', store l i v = Some l'.
Proof.
  intros H. unfold store. destruct (Z.ltb_spec i 0) as [|_]; [lia|].
  apply store_at_in_range. lia.
Qed.

Lemma byte_small (z : Z) : 0 <= z <= 255 -> byte z = z.
Proof. intros H. unfold byte. apply Z.mod_small. lia. Qed.

(** ** The input of the user *)

Lemma int16_small (z : Z) : -32768 <= z <= 32767 -> int16 z = z.
Proof. intros H. unfold int16. rewrite Z.mod_small; lia. Qed.

Lemma int16_range (z : Z) : -32768 <= int16 z <= 32767.
Proof. unfold int16. pose proof (Z.mod_pos_bound (z + 32768) 65536). lia. Qed.

Lemma mapIR_repeat (cs : IRCodes) (rep : HashIR_data_t) :
  mapIR cs rep KEY_NONE KEY_NONE = KEY_REPEAT ->
  forall r last, mapIR cs rep r last = repeated last.
Proof.
  unfold mapIR. intros H r last.
  repeat match type of H with
         | (if ?b then _ else _) = _ => destruct b; [discriminate H|]
         end.
  destruct (sameCode rep (IR_REPEAT cs)); [reflexivity|discriminate H].
Qed.

Lemma mapIR_key (cs : IRCodes) (key : HashIR_data_t) (k : UserInput) :
  mapIR cs key KEY_NONE KEY_NONE = k -> k <> KEY_REPEAT ->
  forall last, mapIR cs key KEY_NONE last = k.
Proof.
  unfold mapIR. intros H Hk last.
  repeat match type of H with
         | (if ?b then _ else _) = _ => destruct b; [exact H|]
         end.
  destruct (sameCode key (IR_REPEAT cs)); [|exact H].
  cbn in H. congruence.
Qed.

Lemma receiveInput_atRest (cs : IRCodes) (d : option HashIR_data_t) (s : InputState) :
  atRest s ->
  atRest (snd (receiveInput cs (irPoll d) s))
  /\ fst (receiveInput cs (irPoll d) s)
     = match d with
       | Some data => mapIR cs data KEY_NONE (lastReceivedInput s)
       | None => KEY_NONE
       end
  /\ lastReceivedInput (snd (receiveInput cs (irPoll d) s))
     = match d with
       | Some data => mapIR cs data KEY_NONE (lastReceivedInput s)
       | None => lastReceivedInput s
       end.
Proof.
  intros (E1 & R1 & E2 & R2).
  unfold receiveInput, irPoll.
  cbn [value1 value2 button1 button2 irData fst snd].
  rewrite !Z.add_0_r, !int16_small by assumption.
  rewrite <- E1, <- E2, !Z.eqb_refl.
  repeat split; cbn; try assumption; try lia; now destruct d.
Qed.

Lemma mapIR_not_previous (cs : IRCodes) (data : HashIR_data_t) (r last : UserInput) :
  r <> KEY_PREVIOUS -> mapIR cs data r last <> KEY_PREVIOUS.
Proof.
  intros Hr. unfold mapIR.
  repeat match goal with
         | |- (if ?b then _ else _) <> _ => destruct b; [discriminate|]
         end.
  destruct (sameCode data (IR_REPEAT cs)); [|exact Hr].
  destruct last; discriminate.
Qed.

(** X5.  A key held down repeats only when it is the volume up or down key:
    after a key that the remote sends once, each repeat code gives the same
    key again if that was [KEY_UP] or [KEY_DOWN] and [KEY_REPEAT] otherwise,
    however many calls without IR data lie between. *)
Theorem held_key_repeats (cs : IRCodes) (key rep : HashIR_data_t) (k : UserInput)
    (ds : list (option HashIR_data_t)) (s : InputState) :
  atRest s ->
  mapIR cs key KEY_NONE KEY_NONE = k -> k <> KEY_REPEAT ->
  mapIR cs rep KEY_NONE KEY_NONE = KEY_REPEAT ->
  Forall (fun d => d = None \/ d = Some rep) ds ->
  receiveAll cs (map irPoll (Some key :: ds)) s
  = k :: map (fun d => match d with Some _ => repeated k | None => KEY_NONE end) ds.
Proof.
  intros R Hk Hnr Hrep Hds.
  cbn [map receiveAll].
  destruct (receiveInput_atRest cs (Some key) s R) as (R1 & K1 & L1).
  destruct (receiveInput cs (irPoll (Some key)) s) as [k1 s1]. cbn [fst snd] in *.
  rewrite (mapIR_key cs key k Hk Hnr) in K1, L1. subst k1. f_equal.
  assert (L : repeated (lastReceivedInput s1) = repeated k) by now rewrite L1.
  clear L1 Hk Hnr R. revert s1 R1 L.
  induction Hds as [|d ds Hd Hds IH]; intros s1 R1 L; [reflexivity|].
  cbn [map receiveAll].
  destruct (receiveInput_atRest cs d s1 R1) as (R2 & K2 & L2).
  destruct (receiveInput cs (irPoll d) s1) as [k2 s2]. cbn [fst snd] in *.
  destruct Hd as [-> | ->].
  - subst k2. f_equal. apply IH; [exact R2|]. now rewrite L2.
  - rewrite (mapIR_repeat cs rep Hrep) in K2, L2. rewrite L in K2, L2.
    subst k2. f_equal. apply IH; [exact R2|]. rewrite L2.
    now destruct k.
Qed.

Lemma held_key_repeats_witness :
  let code c := {| address := 36; command := c |} in
  let cs := {| IR_ONOFF := code 1; IR_UP := code 2; IR_DOWN := code 3;
               IR_REPEAT := {| address := 0; command := 0 |};
               IR_LEFT := code 4; IR_RIGHT := code 5; IR_SELECT := code 6;
               IR_BACK := code 7; IR_MUTE := code 8; IR_PREVIOUS := code 9;
               IR_1 := code 10; IR_2 := code 11; IR_3 := code 12;
               IR_4 := code 13; IR_5 := code 14; IR_6 := code 15 |} in
  let rep := {| address := 0; command := 0 |} in
  let s := {| e1value := 0; e1last := 0; e2value := 0; e2last := 0;
              lastReceivedInput := KEY_MUTE |} in
  let ds := Some rep :: None :: Some rep :: nil in
  receiveAll cs (map irPoll (Some (code 2) :: ds)) s
  = KEY_UP :: map (fun d => match d with Some _ => repeated KEY_UP | None => KEY_NONE end) ds.
Proof.
  intros code cs rep s ds.
  apply (held_key_repeats cs (code 2) rep KEY_UP ds s).
  - unfold atRest; cbn; lia.
  - reflexivity.
  - discriminate.
  - reflexivity.
  - repeat (apply Forall_cons; [first [left; reflexivity | right; reflexivity]|]).
    apply Forall_nil.
Defined.

(** X6.  Whatever the encoders, the buttons and the remote send, the input
    received is never [KEY_PREVIOUS]: no branch assigns it, the code
    [IR_PREVIOUS] of the settings is compared with nothing. *)
Theorem previous_key_never_received (cs : IRCodes) (p : Poll) (s : InputState) :
  fst (receiveInput cs p s) <> KEY_PREVIOUS
  /\ (lastReceivedInput s <> KEY_PREVIOUS ->
      lastReceivedInput (snd (receiveInput cs p s)) <> KEY_PREVIOUS).
Proof.
  unfold receiveInput. cbn [fst snd lastReceivedInput].
  set (r := match button2 p with
            | Clicked => KEY_BACK
            | DoubleClicked => KEY_ONOFF
            | _ => _
            end).
  assert (Hr : r <> KEY_PREVIOUS).
  { subst r.
    destruct (button2 p); try discriminate;
      repeat match goal with
             | |- context [if ?b then _ else _] => destruct b
             end;
      destruct (button1 p); try discriminate;
      repeat match goal with
             | |- context [if ?b then _ else _] => destruct b
             end; discriminate. }
  destruct (irData p) as [data|].
  - split; [|intros _]; now apply mapIR_not_previous.
  - split; [exact Hr|tauto].
Qed.

(** ** The value editors *)

Lemma editNumericLoop_step (v lo hi : Z) :
  0 <= lo -> hi <= 255 -> lo <= v <= hi ->
  lo <= (if v <? hi then byte (v + 1) else v) <= hi
  /\ lo <= (if lo <? v then byte (v - 1) else v) <= hi.
Proof.
  intros Hlo Hhi Hv.
  destruct (Z.ltb_spec v hi), (Z.ltb_spec lo v); rewrite ?byte_small by lia; lia.
Qed.

Lemma editNumericLoop_back (v lo hi : Z) (ks rest : list UserInput) :
  Forall (fun k => k <> KEY_SELECT /\ k <> KEY_BACK) ks ->
  editNumericLoop v lo hi (ks ++ KEY_BACK :: rest) = Some (None, rest).
Proof.
  intros H. revert v. induction H as [|k ks [N1 N2] _ IH]; intros v; [reflexivity|].
  destruct k; cbn [app editNumericLoop]; try apply IH; congruence.
Qed.

Lemma editNumericLoop_select (v lo hi : Z) (ks rest : list UserInput) :
  0 <= lo -> hi <= 255 -> lo <= v <= hi ->
  Forall (fun k => k <> KEY_SELECT /\ k <> KEY_BACK) ks ->
  exists v', lo <= v' <= hi
    /\ editNumericLoop v lo hi (ks ++ KEY_SELECT :: rest) = Some (Some v', rest).
Proof.
  intros Hlo Hhi Hv H. revert v Hv.
  induction H as [|k ks [N1 N2] _ IH]; intros v Hv.
  - exists v. split; [exact Hv|reflexivity].
  - destruct (editNumericLoop_step v lo hi Hlo Hhi Hv) as [Hr Hl].
    destruct k; cbn [app editNumericLoop]; try (now apply IH); congruence.
Qed.

(** X7.  [editNumericValue] ends at the first [KEY_SELECT] or [KEY_BACK] of
    the keys and leaves the keys after it unread.  [KEY_BACK] returns false
    and changes nothing; [KEY_SELECT] returns true after it has assigned to
    [Value] a value within [MinValue, MaxValue] and written the settings to
    the EEPROM, whatever was dialled before, when the value started within
    these limits. *)
Theorem editNumericValue_within_limits (Value : reference) (v lo hi : Z)
    (ks rest : list UserInput) (k : UserInput) (st : State) :
  load Value st = Some v ->
  0 <= lo -> hi <= 255 -> lo <= v <= hi ->
  Forall (fun k => k <> KEY_SELECT /\ k <> KEY_BACK) ks ->
  k = KEY_SELECT \/ k = KEY_BACK ->
  exists v', lo <= v' <= hi
    /\ editNumericValue Value lo hi (ks ++ k :: rest) st
       = match k with
         | KEY_BACK => Returns false st rest
         | _ =>
             match assign Value v' st with
             | Some st' => Returns true (writeSettingsToEEPROM st') rest
             | None => Invalid
             end
         end.
Proof.
  intros L Hlo Hhi Hv H [-> | ->]; unfold editNumericValue; rewrite L.
  - destruct (editNumericLoop_select v lo hi ks rest Hlo Hhi Hv H) as (v' & B & ->).
    exists v'. split; [exact B|reflexivity].
  - rewrite (editNumericLoop_back v lo hi ks rest H).
    exists v. split; [exact Hv|reflexivity].
Qed.

Lemma editNumericValue_within_limits_witness :
  let ks := KEY_LEFT :: KEY_UP :: KEY_LEFT :: nil in
  exists v', 1 <= v' <= 179
    /\ editNumericValue (member VolumeSteps set_VolumeSteps) 1 179
         (ks ++ KEY_SELECT :: KEY_RIGHT :: nil) defaultState
       = match assign (member VolumeSteps set_VolumeSteps) v' defaultState with
         | Some st' => Returns true (writeSettingsToEEPROM st') (KEY_RIGHT :: nil)
         | None => Invalid
         end.
Proof.
  intros ks.
  apply (editNumericValue_within_limits (member VolumeSteps set_VolumeSteps) 60 1 179
           ks (KEY_RIGHT :: nil) KEY_SELECT defaultState);
    try lia; try reflexivity.
  - repeat (apply Forall_cons; [split; discriminate|]). apply Forall_nil.
  - now left.
Defined.

Lemma editNumericLoop_rights (v lo hi : Z) (n : nat) (rest : list UserInput) :
  0 <= lo -> hi <= 255 -> lo <= v <= hi ->
  editNumericLoop v lo hi (repeat KEY_RIGHT n ++ KEY_SELECT :: rest)
  = Some (Some (Z.min (v + Z.of_nat n) hi), rest).
Proof.
  intros Hlo Hhi. revert v.
  induction n as [|n IH]; intros v Hv.
  - cbn [repeat app editNumericLoop]. do 3 f_equal. lia.
  - destruct (editNumericLoop_step v lo hi Hlo Hhi Hv) as [Hr _].
    cbn [repeat app editNumericLoop]. rewrite (IH _ Hr). do 3 f_equal.
    destruct (Z.ltb_spec v hi); rewrite ?byte_small by lia; lia.
Qed.



Lemma editOptionLoop_back (v n : Z) (ks rest : list UserInput) :
  Forall (fun k => k <> KEY_SELECT /\ k <> KEY_BACK) ks ->
  editOptionLoop v n (ks ++ KEY_BACK :: rest) = Some (None, rest).
Proof.
  intros H. revert v. induction H as [|k ks [N1 N2] _ IH]; intros v; [reflexivity|].
  destruct k; cbn [app editOptionLoop]; try apply IH; congruence.
Qed.

(** X9.  Leaving an editor with [KEY_BACK] changes nothing: whatever was
    dialled before, the variables and the EEPROM are as they were, and the
    keys after it are left for the caller. *)
Theorem edit_cancelled_changes_nothing (Value : reference) (v lo hi n : Z)
    (ks rest : list UserInput) (st : State) :
  load Value st = Some v ->
  Forall (fun k => k <> KEY_SELECT /\ k <> KEY_BACK) ks ->
  editNumericValue Value lo hi (ks ++ KEY_BACK :: rest) st = Returns false st rest
  /\ editOptionValue Value n (ks ++ KEY_BACK :: rest) st = Returns false st rest.
Proof.
  intros L H. unfold editNumericValue, editOptionValue. rewrite L.
  now rewrite editNumericLoop_back, editOptionLoop_back.
Qed.

Lemma edit_cancelled_changes_nothing_witness :
  let ks := KEY_RIGHT :: KEY_RIGHT :: KEY_UP :: KEY_LEFT :: nil in
  editNumericValue (member VolumeSteps set_VolumeSteps) 1 179
    (ks ++ KEY_BACK :: KEY_SELECT :: nil) defaultState
  = Returns false defaultState (KEY_SELECT :: nil)
  /\ editOptionValue (member VolumeSteps set_VolumeSteps) 2
       (ks ++ KEY_BACK :: KEY_SELECT :: nil) defaultState
     = Returns false defaultState (KEY_SELECT :: nil).
Proof.
  intros ks.
  apply (edit_cancelled_changes_nothing _ 60); [reflexivity|].
  repeat (apply Forall_cons; [split; discriminate|]). apply Forall_nil.
Defined.



(** ** [setVolume] *)

(** On the globals that it reaches, [setVolume] on the whole state is the
    [setVolume] of the first part. *)
Lemma setVolume_agrees (st : State) :
  let cs := CurrentSettings st in
  let rt := CurrentRuntimeSettings st in
  storeAttenuation
    (attenuationGlobals (VolumeSteps cs) (MinAttenuation cs) (MaxAttenuation cs)
       (CurrentVolume rt) (CurrentAttenuation rt))
  = attenuationGlobals (VolumeSteps cs) (MinAttenuation cs) (MaxAttenuation cs)
      (CurrentVolume rt) (CurrentAttenuation (CurrentRuntimeSettings (setVolume st))).
Proof. reflexivity. Qed.

(** ** The keys in normal mode *)

Ltac fields :=
  cbn [CurrentSettings CurrentRuntimeSettings eeprom appMode menuIndex
       CurrentInput CurrentVolume CurrentAttenuation Muted InputLastVol
       PrevSelectedInput VolumeSteps MinAttenuation MaxAttenuation
       MaxStartVolume MuteLevel RecallSetLevel Input Active MaxVol MinVol
       storedSettings storedRuntimeSettings storedUserSettings
       set_settings set_runtime set_eeprom set_CurrentInput set_CurrentVolume
       set_CurrentAttenuation set_Muted set_InputLastVol set_PrevSelectedInput
       set_VolumeSteps set_MinAttenuation set_MaxAttenuation set_MaxStartVolume
       set_MuteLevel set_RecallSetLevel set_Input set_Active set_MaxVol set_MinVol
       setVolume toggleMute writeSettingsToEEPROM writeRuntimeSettingsToEEPROM
       writeUserSettingsToEEPROM] in *.

Lemma wellFormed_input (st : State) (i : Z) :
  wellFormed st -> 0 <= i <= 5 ->
  exists inp v,
    lookup (Input (CurrentSettings st)) i = Some inp
    /\ lookup (InputLastVol (CurrentRuntimeSettings st)) i = Some v.
Proof.
  intros (L1 & L2 & _) Hi.
  destruct (lookup_in_range (Input (CurrentSettings st)) i ltac:(lia)) as [inp E1].
  destruct (lookup_in_range (InputLastVol (CurrentRuntimeSettings st)) i ltac:(lia))
    as [v E2].
  now exists inp, v.
Qed.

(** One volume key does nothing, or it moves the volume by one step. *)
Lemma volumeUp_cases (st : State) (inp : InputSettings) :
  wellFormed st ->
  lookup (Input (CurrentSettings st)) (CurrentInput (CurrentRuntimeSettings st)) = Some inp ->
  0 <= CurrentVolume (CurrentRuntimeSettings st) -> MaxVol inp <= 255 ->
  (volumeUp st = Done st
   /\ (Muted (CurrentRuntimeSettings st) = true
       \/ MaxVol inp <= CurrentVolume (CurrentRuntimeSettings st)))
  \/ (Muted (CurrentRuntimeSettings st) = false
      /\ CurrentVolume (CurrentRuntimeSettings st) < MaxVol inp
      /\ exists l,
           store (InputLastVol (CurrentRuntimeSettings st))
                 (CurrentInput (CurrentRuntimeSettings st))
                 (CurrentVolume (CurrentRuntimeSettings st) + 1) = Some l
           /\ volumeUp st
              = Done (moved (CurrentVolume (CurrentRuntimeSettings st) + 1) l st)).
Proof.
  intros (L1 & L2 & Hc) L H0 Hhi. unfold volumeUp. rewrite L.
  destruct (Muted (CurrentRuntimeSettings st)); [left; split; [reflexivity|now left]|].
  destruct (Z.ltb_spec (CurrentVolume (CurrentRuntimeSettings st)) (MaxVol inp)) as [Hv|Hv];
    [|left; split; [reflexivity|now right]].
  right. rewrite byte_small by lia.
  destruct (store_in_range (InputLastVol (CurrentRuntimeSettings st))
              (CurrentInput (CurrentRuntimeSettings st))
              (CurrentVolume (CurrentRuntimeSettings st) + 1) ltac:(lia)) as [l El].
  rewrite El. repeat split; try assumption. now exists l.
Qed.

Lemma volumeDown_cases (st : State) (inp : InputSettings) :
  wellFormed st ->
  lookup (Input (CurrentSettings st)) (CurrentInput (CurrentRuntimeSettings st)) = Some inp ->
  0 <= MinVol inp -> CurrentVolume (CurrentRuntimeSettings st) <= 255 ->
  (volumeDown st = Done st
   /\ (Muted (CurrentRuntimeSettings st) = true
       \/ CurrentVolume (CurrentRuntimeSettings st) <= MinVol inp))
  \/ (Muted (CurrentRuntimeSettings st) = false
      /\ MinVol inp < CurrentVolume (CurrentRuntimeSettings st)
      /\ exists l,
           store (InputLastVol (CurrentRuntimeSettings st))
                 (CurrentInput (CurrentRuntimeSettings st))
                 (CurrentVolume (CurrentRuntimeSettings st) - 1) = Some l
           /\ volumeDown st
              = Done (moved (CurrentVolume (CurrentRuntimeSettings st) - 1) l st)).
Proof.
  intros (L1 & L2 & Hc) L H0 Hhi. unfold volumeDown. rewrite L.
  destruct (Muted (CurrentRuntimeSettings st)); [left; split; [reflexivity|now left]|].
  destruct (Z.ltb_spec (MinVol inp) (CurrentVolume (CurrentRuntimeSettings st))) as [Hv|Hv];
    [|left; split; [reflexivity|now right]].
  right. rewrite byte_small by lia.
  destruct (store_in_range (InputLastVol (CurrentRuntimeSettings st))
              (CurrentInput (CurrentRuntimeSettings st))
              (CurrentVolume (CurrentRuntimeSettings st) - 1) ltac:(lia)) as [l El].
  rewrite El. repeat split; try assumption. now exists l.
Qed.

Lemma moved_wellFormed (v : Z) (l : list Z) (st : State) :
  wellFormed st ->
  store (InputLastVol (CurrentRuntimeSettings st))
        (CurrentInput (CurrentRuntimeSettings st)) v = Some l ->
  wellFormed (moved v l st) /\ attenuationSet (moved v l st).
Proof.
  intros (L1 & L2 & Hc) El. unfold wellFormed, attenuationSet, moved. fields.
  rewrite (store_length _ _ _ _ El). repeat split; (assumption || lia).
Qed.

(** X11.  The volume keys keep the volume within the limits of the current
    input: from a volume within [MinVol, MaxVol], any sequence of [KEY_UP],
    [KEY_DOWN] and [KEY_MUTE] is handled to its end, changes neither the
    settings nor the input, leaves the volume within the limits, and leaves
    [CurrentAttenuation] the code of the volume if it was. *)
Theorem volume_keys_within_limits (fuel : nat) (keys : list UserInput) (st : State)
    (inp : InputSettings) :
  wellFormed st ->
  lookup (Input (CurrentSettings st)) (CurrentInput (CurrentRuntimeSettings st)) = Some inp ->
  0 <= MinVol inp -> MaxVol inp <= 255 ->
  MinVol inp <= CurrentVolume (CurrentRuntimeSettings st) <= MaxVol inp ->
  Forall (fun k => k = KEY_UP \/ k = KEY_DOWN \/ k = KEY_MUTE) keys ->
  exists st',
    normalModeAll fuel keys st = Done st'
    /\ CurrentSettings st' = CurrentSettings st
    /\ CurrentInput (CurrentRuntimeSettings st') = CurrentInput (CurrentRuntimeSettings st)
    /\ MinVol inp <= CurrentVolume (CurrentRuntimeSettings st') <= MaxVol inp
    /\ (attenuationSet st -> attenuationSet st').
Proof.
  intros W L Hlo Hhi Hv Hk. revert st W L Hv.
  induction Hk as [|k keys Hk _ IH]; intros st W L Hv.
  - exists st. cbn. tauto.
  - cbn [normalModeAll].
    assert (Step : exists st1,
               normalMode fuel k st = Done st1
               /\ wellFormed st1
               /\ CurrentSettings st1 = CurrentSettings st
               /\ CurrentInput (CurrentRuntimeSettings st1)
                  = CurrentInput (CurrentRuntimeSettings st)
               /\ MinVol inp <= CurrentVolume (CurrentRuntimeSettings st1) <= MaxVol inp
               /\ (attenuationSet st -> attenuationSet st1)).
    { destruct Hk as [-> | [-> | ->]]; cbn [normalMode].
      - destruct (volumeUp_cases st inp W L ltac:(lia) Hhi)
          as [[E _] | (_ & Hlt & l & El & E)]; rewrite E.
        + exists st. tauto.
        + destruct (moved_wellFormed _ _ _ W El) as [W1 A1].
          eexists. split; [reflexivity|]. split; [exact W1|].
          unfold moved. fields. repeat split; try reflexivity; try lia; auto.
      - destruct (volumeDown_cases st inp W L Hlo ltac:(lia))
          as [[E _] | (_ & Hlt & l & El & E)]; rewrite E.
        + exists st. tauto.
        + destruct (moved_wellFormed _ _ _ W El) as [W1 A1].
          eexists. split; [reflexivity|]. split; [exact W1|].
          unfold moved. fields. repeat split; try reflexivity; try lia; auto.
      - eexists. split; [reflexivity|]. unfold wellFormed, attenuationSet in *. fields.
        tauto. }
    destruct Step as (st1 & E & W1 & S1 & C1 & V1 & A1). rewrite E.
    destruct (IH st1 W1) as (st' & E' & S' & C' & V' & A'); [congruence|exact V1|].
    exists st'. repeat split; try congruence; try lia. tauto.
Qed.

Lemma volume_keys_within_limits_witness :
  exists st',
    normalModeAll 0 (KEY_DOWN :: KEY_UP :: KEY_UP :: KEY_MUTE :: KEY_UP :: nil) defaultState
    = Done st'
    /\ CurrentSettings st' = CurrentSettings defaultState
    /\ CurrentInput (CurrentRuntimeSettings st')
       = CurrentInput (CurrentRuntimeSettings defaultState)
    /\ MinVol defaultInput <= CurrentVolume (CurrentRuntimeSettings st') <= MaxVol defaultInput
    /\ (attenuationSet defaultState -> attenuationSet st').
Proof.
  apply volume_keys_within_limits.
  - unfold wellFormed. cbn. lia.
  - reflexivity.
  - cbn. lia.
  - cbn. lia.
  - cbn. lia.
  - repeat (apply Forall_cons; [tauto|]). apply Forall_nil.
Defined.

(** ** The search for an active input *)

Lemma next_up (n : Z) :
  0 <= n <= 5 -> (if 5 <? byte (n + 1) then 0 else byte (n + 1)) = (n + 1) mod 6.
Proof.
  intros H. rewrite byte_small by lia.
  destruct (Z.ltb_spec 5 (n + 1)).
  - replace (n + 1) with 6 by lia. reflexivity.
  - now rewrite Z.mod_small by lia.
Qed.

Lemma nextActiveUp_finds (inputs : list InputSettings) (d : nat) :
  forall (n0 : Z) (fuel : nat),
    0 <= n0 <= 5 ->
    (forall j, 0 <= j < Z.of_nat d ->
       exists inp, lookup inputs ((n0 + j) mod 6) = Some inp /\ Active inp = 0) ->
    (exists inp, lookup inputs ((n0 + Z.of_nat d) mod 6) = Some inp /\ Active inp <> 0) ->
    (d <= fuel)%nat ->
    nextActiveUp fuel inputs n0 = Done ((n0 + Z.of_nat d) mod 6).
Proof.
  induction d as [|d IH]; intros n0 fuel Hn Hin Hact Hf.
  - destruct Hact as (inp & L & A).
    rewrite Z.add_0_r, Z.mod_small in * by lia.
    destruct fuel; cbn [nextActiveUp]; rewrite L;
      destruct (Z.eqb_spec (Active inp) 0); (contradiction || reflexivity).
  - destruct fuel as [|fuel]; [lia|].
    destruct (Hin 0 ltac:(lia)) as (inp & L & A).
    rewrite Z.add_0_r, Z.mod_small in L by lia.
    cbn [nextActiveUp]. rewrite L, A, Z.eqb_refl, next_up by exact Hn.
    assert (E : forall j, ((n0 + 1) mod 6 + j) mod 6 = (n0 + (j + 1)) mod 6).
    { intros j. rewrite Zplus_mod_idemp_l. f_equal. lia. }
    rewrite (IH ((n0 + 1) mod 6) fuel).
    + rewrite E. do 2 f_equal. lia.
    + pose proof (Z.mod_pos_bound (n0 + 1) 6). lia.
    + intros j Hj. rewrite E. apply Hin. lia.
    + rewrite E. replace (Z.of_nat d + 1) with (Z.of_nat (S d)) by lia. exact Hact.
    + lia.
Qed.

Lemma nextActiveUp_done (inputs : list InputSettings) (fuel : nat) :
  forall n0 n, nextActiveUp fuel inputs n0 = Done n ->
               exists inp, lookup inputs n = Some inp /\ Active inp <> 0.
Proof.
  induction fuel as [|fuel IH]; intros n0 n; cbn [nextActiveUp];
    destruct (lookup inputs n0) as [inp|] eqn:L; try discriminate;
    destruct (Z.eqb_spec (Active inp) 0) as [A|A]; try discriminate.
  - intros H. injection H as <-. now exists inp.
  - apply IH.
  - intros H. injection H as <-. now exists inp.
Qed.

Lemma nextActiveDown_done (inputs : list InputSettings) (cur : Z) (fuel : nat) :
  forall n0 n, nextActiveDown fuel inputs cur n0 = Done n ->
               exists inp, lookup inputs n = Some inp /\ Active inp <> 0.
Proof.
  induction fuel as [|fuel IH]; intros n0 n; cbn [nextActiveDown];
    destruct (lookup inputs n0) as [inp|] eqn:L; try discriminate;
    destruct (Z.eqb_spec (Active inp) 0) as [A|A]; try discriminate.
  - intros H. injection H as <-. now exists inp.
  - apply IH.
  - intros H. injection H as <-. now exists inp.
Qed.

Lemma nextActiveDown_finds (inputs : list InputSettings) (cur : Z) (d : nat) :
  cur <> 0 ->
  forall (n0 : Z) (fuel : nat),
    Z.of_nat d <= n0 <= 255 ->
    (forall j, 0 <= j < Z.of_nat d ->
       exists inp, lookup inputs (n0 - j) = Some inp /\ Active inp = 0) ->
    (exists inp, lookup inputs (n0 - Z.of_nat d) = Some inp /\ Active inp <> 0) ->
    (d <= fuel)%nat ->
    nextActiveDown fuel inputs cur n0 = Done (n0 - Z.of_nat d).
Proof.
  intros Hc. induction d as [|d IH]; intros n0 fuel Hn Hin Hact Hf.
  - destruct Hact as (inp & L & A). rewrite Z.sub_0_r in *.
    destruct fuel; cbn [nextActiveDown]; rewrite L;
      destruct (Z.eqb_spec (Active inp) 0); (contradiction || reflexivity).
  - destruct fuel as [|fuel]; [lia|].
    destruct (Hin 0 ltac:(lia)) as (inp & L & A). rewrite Z.sub_0_r in L.
    cbn [nextActiveDown]. rewrite L, A, Z.eqb_refl.
    destruct (Z.eqb_spec cur 0) as [|_]; [contradiction|].
    rewrite byte_small by lia.
    rewrite (IH (n0 - 1) fuel).
    + f_equal. lia.
    + lia.
    + intros j Hj. replace (n0 - 1 - j) with (n0 - (j + 1)) by lia. apply Hin. lia.
    + replace (n0 - 1 - Z.of_nat d) with (n0 - Z.of_nat (S d)) by lia. exact Hact.
    + lia.
Qed.

Lemma nextActiveDown_leaves (inputs : list InputSettings) (cur : Z) (d : nat) :
  cur <> 0 -> length inputs = 6%nat ->
  forall (n0 : Z) (fuel : nat),
    n0 = Z.of_nat d - 1 -> n0 <= 5 ->
    (forall j, 0 <= j <= n0 ->
       exists inp, lookup inputs j = Some inp /\ Active inp = 0) ->
    (d <= fuel)%nat ->
    nextActiveDown fuel inputs cur (byte n0) = OutOfBounds.
Proof.
  intros Hc Hl. induction d as [|d IH]; intros n0 fuel Hn H5 Hin Hf.
  - replace n0 with (-1) by lia. change (byte (-1)) with 255.
    destruct fuel; cbn [nextActiveDown]; now rewrite lookup_outside by (rewrite Hl; lia).
  - destruct fuel as [|fuel]; [lia|].
    rewrite byte_small by lia.
    destruct (Hin n0 ltac:(lia)) as (inp & L & A).
    cbn [nextActiveDown]. rewrite L, A, Z.eqb_refl.
    destruct (Z.eqb_spec cur 0) as [|_]; [contradiction|].
    apply IH; try lia. intros j Hj. apply Hin. lia.
Qed.

Lemma least_witness (P : Z -> Prop) (n : nat) :
  (forall d, P d \/ ~ P d) ->
  (forall j, 0 <= j < Z.of_nat n -> ~ P j)
  \/ (exists d, 0 <= d < Z.of_nat n /\ P d /\ forall j, 0 <= j < d -> ~ P j).
Proof.
  intros dec. induction n as [|n [IH|IH]].
  - left. intros j Hj. lia.
  - destruct (dec (Z.of_nat n)) as [Hp|Hp].
    + right. exists (Z.of_nat n). repeat split; try lia; [exact Hp|].
      intros j Hj. apply IH. lia.
    + left. intros j Hj. destruct (Z.eq_dec j (Z.of_nat n)) as [->|]; [exact Hp|].
      apply IH. lia.
  - right. destruct IH as (d & Hd & Hp & Hm). exists d. repeat split; try lia; assumption.
Qed.

Lemma active_decidable (st : State) (i : Z) : active st i \/ ~ active st i.
Proof.
  unfold active. destruct (lookup (Input (CurrentSettings st)) i) as [inp|] eqn:L.
  - destruct (Z.eq_dec (Active inp) 0) as [A|A].
    + right. intros (inp' & E & A'). congruence.
    + left. now exists inp.
  - right. intros (inp' & E & _). discriminate.
Qed.

Lemma inactive_input (st : State) (i : Z) :
  wellFormed st -> 0 <= i <= 5 -> ~ active st i ->
  exists inp, lookup (Input (CurrentSettings st)) i = Some inp /\ Active inp = 0.
Proof.
  intros W Hi N. destruct (wellFormed_input st i W Hi) as (inp & _ & L & _).
  exists inp. split; [exact L|].
  destruct (Z.eq_dec (Active inp) 0) as [A|A]; [exact A|].
  exfalso. apply N. now exists inp.
Qed.

(** ** The change of input *)

Lemma changeInput_frame (n : Z) (st st' : State) :
  changeInput n st = Done st' ->
  CurrentSettings st' = CurrentSettings st
  /\ eeprom st' = eeprom st
  /\ CurrentInput (CurrentRuntimeSettings st') = n
  /\ CurrentAttenuation (CurrentRuntimeSettings st')
     = CurrentAttenuation (CurrentRuntimeSettings st)
  /\ Muted (CurrentRuntimeSettings st') = Muted (CurrentRuntimeSettings st)
  /\ InputLastVol (CurrentRuntimeSettings st') = InputLastVol (CurrentRuntimeSettings st)
  /\ (n = CurrentInput (CurrentRuntimeSettings st) -> st' = st)
  /\ (n <> CurrentInput (CurrentRuntimeSettings st) ->
      PrevSelectedInput (CurrentRuntimeSettings st') = CurrentInput (CurrentRuntimeSettings st)
      /\ (RecallSetLevel (CurrentSettings st) = 0 ->
          CurrentVolume (CurrentRuntimeSettings st')
          = CurrentVolume (CurrentRuntimeSettings st))
      /\ (RecallSetLevel (CurrentSettings st) <> 0 ->
          lookup (InputLastVol (CurrentRuntimeSettings st)) n
          = Some (CurrentVolume (CurrentRuntimeSettings st')))).
Proof.
  unfold changeInput.
  destruct (Z.eqb_spec (CurrentInput (CurrentRuntimeSettings st)) n) as [E|E].
  - intros H. injection H as <-. repeat split; try congruence.
  - destruct (Z.eqb_spec (RecallSetLevel (CurrentSettings st)) 0) as [R|R].
    + intros H. injection H as <-. fields. repeat split; try congruence.
    + fields. destruct (lookup (InputLastVol (CurrentRuntimeSettings st)) n) as [v|] eqn:L;
        [|discriminate].
      intros H. injection H as <-. fields. repeat split; try congruence.
Qed.

Lemma changeInput_done (n : Z) (st : State) :
  wellFormed st -> 0 <= n <= 5 -> exists st', changeInput n st = Done st'.
Proof.
  intros W Hn. unfold changeInput.
  destruct (CurrentInput (CurrentRuntimeSettings st) =? n); [now eexists|].
  destruct (RecallSetLevel (CurrentSettings st) =? 0); [now eexists|].
  fields. destruct (wellFormed_input st n W Hn) as (_ & v & _ & L). rewrite L. now eexists.
Qed.

Lemma lookup_index (st : State) (i : Z) (inp : InputSettings) :
  wellFormed st -> lookup (Input (CurrentSettings st)) i = Some inp -> 0 <= i <= 5.
Proof.
  intros (L1 & _) L. apply lookup_range in L. lia.
Qed.

Lemma changeInput_remembered (n : Z) (st : State) :
  remembered st -> active st n ->
  exists st',
    changeInput n st = Done st'
    /\ remembered st' /\ CurrentSettings st' = CurrentSettings st.
Proof.
  intros (W & R & A & V & Lim) An.
  assert (Hn : 0 <= n <= 5).
  { destruct An as (inp & L & _). exact (lookup_index st n inp W L). }
  destruct (changeInput_done n st W Hn) as [st' E]. exists st'. split; [exact E|].
  destruct (changeInput_frame n st st' E) as (S' & _ & C' & _ & _ & I' & Same & Other).
  destruct (Z.eq_dec n (CurrentInput (CurrentRuntimeSettings st))) as [e|ne].
  - rewrite (Same e). split; [|reflexivity].
    exact (conj W (conj R (conj A (conj V Lim)))).
  - destruct (Other ne) as (_ & _ & Rec). specialize (Rec R).
    destruct W as (W1 & W2 & W3). split; [|exact S'].
    unfold remembered, wellFormed, active. rewrite S', C', I'.
    split; [split; [exact W1|split; [exact W2|exact Hn]]|].
    split; [exact R|]. split; [exact An|]. split; [exact Rec|exact Lim].
Qed.

Lemma first_up (cur : Z) :
  0 <= cur <= 5 -> (if cur =? 5 then 0 else byte (cur + 1)) = (cur + 1) mod 6.
Proof.
  intros H. destruct (Z.eqb_spec cur 5) as [->|]; [reflexivity|].
  now rewrite byte_small, Z.mod_small by lia.
Qed.

Lemma inputRight_finds (fuel : nat) (st : State) :
  wellFormed st -> (exists i, 0 <= i <= 5 /\ active st i) -> (5 <= fuel)%nat ->
  exists d,
    1 <= d <= 6
    /\ nextActiveUp fuel (Input (CurrentSettings st))
         (if CurrentInput (CurrentRuntimeSettings st) =? 5 then 0
          else byte (CurrentInput (CurrentRuntimeSettings st) + 1))
       = Done ((CurrentInput (CurrentRuntimeSettings st) + d) mod 6)
    /\ active st ((CurrentInput (CurrentRuntimeSettings st) + d) mod 6)
    /\ forall j, 1 <= j < d ->
         ~ active st ((CurrentInput (CurrentRuntimeSettings st) + j) mod 6).
Proof.
  intros W (i & Hi & Ai) Hf.
  assert (Hc : 0 <= CurrentInput (CurrentRuntimeSettings st) <= 5) by apply W.
  set (cur := CurrentInput (CurrentRuntimeSettings st)) in *.
  rewrite first_up by exact Hc.
  assert (E : forall j, ((cur + 1) mod 6 + j) mod 6 = (cur + (j + 1)) mod 6).
  { intros j. rewrite Zplus_mod_idemp_l. f_equal. lia. }
  destruct (least_witness (fun d => active st ((cur + (d + 1)) mod 6)) 6
              (fun d => active_decidable st _)) as [None|(d & Hd & Pd & Md)].
  - exfalso. apply (None ((i - (cur + 1)) mod 6)).
    + pose proof (Z.mod_pos_bound (i - (cur + 1)) 6). lia.
    + replace ((cur + ((i - (cur + 1)) mod 6 + 1)) mod 6) with i; [exact Ai|].
      rewrite <- E, Zplus_mod_idemp_r, Zplus_mod_idemp_l.
      replace (cur + 1 + (i - (cur + 1))) with i by lia. now rewrite Z.mod_small by lia.
  - exists (d + 1). split; [lia|]. split; [|split; [exact Pd|]].
    + rewrite <- E. replace d with (Z.of_nat (Z.to_nat d)) by lia.
      apply nextActiveUp_finds.
      * pose proof (Z.mod_pos_bound (cur + 1) 6). lia.
      * intros j Hj. rewrite E. apply (inactive_input st); [exact W| |apply Md; lia].
        pose proof (Z.mod_pos_bound (cur + (j + 1)) 6). lia.
      * rewrite E. replace (Z.of_nat (Z.to_nat d)) with d by lia. exact Pd.
      * lia.
    + intros j Hj. replace j with (j - 1 + 1) by lia. apply Md. lia.
Qed.

Lemma remembered_current (st : State) :
  remembered st ->
  exists inp,
    lookup (Input (CurrentSettings st)) (CurrentInput (CurrentRuntimeSettings st)) = Some inp
    /\ Active inp <> 0
    /\ 0 <= MinVol inp <= CurrentVolume (CurrentRuntimeSettings st)
    /\ CurrentVolume (CurrentRuntimeSettings st) <= MaxVol inp <= 255.
Proof.
  intros (W & R & (inp & L & A) & V & Lim). exists inp.
  destruct (Lim _ _ _ L V) as [H1 H2]. repeat split; (assumption || lia).
Qed.

Lemma moved_remembered (v : Z) (l : list Z) (st : State) (inp : InputSettings) :
  remembered st ->
  lookup (Input (CurrentSettings st)) (CurrentInput (CurrentRuntimeSettings st)) = Some inp ->
  MinVol inp <= v <= MaxVol inp ->
  store (InputLastVol (CurrentRuntimeSettings st))
        (CurrentInput (CurrentRuntimeSettings st)) v = Some l ->
  remembered (moved v l st).
Proof.
  intros (W & R & A & V & Lim) L Hv El.
  destruct (moved_wellFormed v l st W El) as [W1 _].
  split; [exact W1|]. unfold moved, active in *. fields.
  split; [exact R|]. split; [exact A|]. split; [exact (store_same _ _ _ _ El)|].
  intros i inp' w Li Lw.
  destruct (Z.eq_dec i (CurrentInput (CurrentRuntimeSettings st))) as [->|ne].
  - rewrite (store_same _ _ _ _ El) in Lw. injection Lw as <-.
    assert (inp' = inp) by congruence. subst inp'.
    destruct (Lim _ _ _ L V). lia.
  - rewrite (store_other _ _ _ _ _ El) in Lw by congruence. exact (Lim _ _ _ Li Lw).
Qed.

Lemma normalMode_remembered (fuel : nat) (k : UserInput) (st : State) :
  remembered st -> k <> KEY_BACK ->
  (forall st', normalMode fuel k st = Done st' ->
               remembered st' /\ CurrentSettings st' = CurrentSettings st)
  /\ ((5 <= fuel)%nat -> k <> KEY_LEFT -> exists st', normalMode fuel k st = Done st').
Proof.
  intros Rm Hb.
  pose proof Rm as (W & R & A & V & Lim).
  destruct (remembered_current st Rm) as (inp & L & Act & Hlo & Hhi).
  assert (Direct : forall n, 0 <= n <= 5 ->
            (forall st', inputDirect n st = Done st' ->
                         remembered st' /\ CurrentSettings st' = CurrentSettings st)
            /\ exists st', inputDirect n st = Done st').
  { intros n Hn. unfold inputDirect.
    destruct (wellFormed_input st n W Hn) as (inpn & _ & Ln & _). rewrite Ln.
    destruct (Z.eqb_spec (Active inpn) 0) as [An|An].
    - split; [|now exists st]. intros st' H. injection H as <-. now split.
    - destruct (changeInput_remembered n st Rm) as (st1 & E1 & R1 & S1);
        [now exists inpn|].
      split; [|now exists st1]. intros st' H. rewrite E1 in H. injection H as <-.
      now split. }
  destruct k; cbn [normalMode]; try contradiction;
    try (split; [intros st' H; injection H as <-; now split|intros _ _; now exists st]);
    try (destruct (Direct 0 ltac:(lia)) as [D1 D2]; split; [exact D1|intros _ _; exact D2]);
    try (destruct (Direct 1 ltac:(lia)) as [D1 D2]; split; [exact D1|intros _ _; exact D2]);
    try (destruct (Direct 2 ltac:(lia)) as [D1 D2]; split; [exact D1|intros _ _; exact D2]);
    try (destruct (Direct 3 ltac:(lia)) as [D1 D2]; split; [exact D1|intros _ _; exact D2]);
    try (destruct (Direct 4 ltac:(lia)) as [D1 D2]; split; [exact D1|intros _ _; exact D2]);
    try (destruct (Direct 5 ltac:(lia)) as [D1 D2]; split; [exact D1|intros _ _; exact D2]).
  - (* KEY_UP *)
    destruct (volumeUp_cases st inp W L ltac:(lia) ltac:(lia))
      as [[E _] | (_ & Hlt & l & El & E)]; rewrite E.
    + split; [intros st' H; injection H as <-; now split|intros _ _; now exists st].
    + split; [|intros _ _; now eexists].
      intros st' H. injection H as <-. split; [|reflexivity].
      apply (moved_remembered _ _ _ inp Rm L); [lia|exact El].
  - (* KEY_DOWN *)
    destruct (volumeDown_cases st inp W L ltac:(lia) ltac:(lia))
      as [[E _] | (_ & Hlt & l & El & E)]; rewrite E.
    + split; [intros st' H; injection H as <-; now split|intros _ _; now exists st].
    + split; [|intros _ _; now eexists].
      intros st' H. injection H as <-. split; [|reflexivity].
      apply (moved_remembered _ _ _ inp Rm L); [lia|exact El].
  - (* KEY_RIGHT *)
    unfold inputRight. split.
    + intros st'.
      destruct (nextActiveUp fuel (Input (CurrentSettings st)) _) as [n| |] eqn:En;
        try discriminate.
      intros H. destruct (nextActiveUp_done _ _ _ _ En) as (inpn & Ln & An).
      destruct (changeInput_remembered n st Rm) as (st1 & E1 & R1 & S1);
        [now exists inpn|].
      rewrite E1 in H. injection H as <-. now split.
    + intros Hf _.
      destruct (inputRight_finds fuel st W) as (d & Hd & En & Ad & _);
        [exists (CurrentInput (CurrentRuntimeSettings st)); split;
           [apply W|now exists inp]|exact Hf|].
      rewrite En.
      destruct (changeInput_remembered _ st Rm Ad) as (st1 & E1 & _). now exists st1.
  - (* KEY_LEFT *)
    unfold inputLeft. split; [|intros _ N; contradiction].
    intros st'.
    destruct (nextActiveDown fuel (Input (CurrentSettings st)) _ _) as [n| |] eqn:En;
      try discriminate.
    intros H. destruct (nextActiveDown_done _ _ _ _ _ En) as (inpn & Ln & An).
    destruct (changeInput_remembered n st Rm) as (st1 & E1 & R1 & S1);
      [now exists inpn|].
    rewrite E1 in H. injection H as <-. now split.
  - (* KEY_MUTE *)
    split; [|intros _ _; now eexists].
    intros st' H. injection H as <-. split; [|reflexivity].
    unfold remembered, wellFormed, active in *. fields. tauto.
Qed.

(** X12.  With the volume remembered per input ([RecallSetLevel]), the keys
    of normal mode keep what is remembered: the current input stays an active
    one, the volume remembered for each input stays within the limits of that
    input, and the current volume is the one remembered for the current input,
    hence within [MinVol, MaxVol].  Without [KEY_LEFT] every sequence of keys
    is handled to its end, each search taking at most five steps. *)
Theorem remembered_volumes_kept (fuel : nat) (keys : list UserInput) (st : State) :
  remembered st ->
  Forall (fun k => k <> KEY_BACK) keys ->
  (forall st',
     normalModeAll fuel keys st = Done st' ->
     remembered st' /\ CurrentSettings st' = CurrentSettings st
     /\ exists inp,
          lookup (Input (CurrentSettings st')) (CurrentInput (CurrentRuntimeSettings st'))
          = Some inp
          /\ Active inp <> 0
          /\ MinVol inp <= CurrentVolume (CurrentRuntimeSettings st') <= MaxVol inp)
  /\ ((5 <= fuel)%nat -> Forall (fun k => k <> KEY_LEFT) keys ->
      exists st', normalModeAll fuel keys st = Done st').
Proof.
  intros Rm Hb. revert st Rm.
  induction Hb as [|k keys Hk _ IH]; intros st Rm.
  - cbn [normalModeAll]. split; [|intros _ _; now exists st].
    intros st' H. injection H as <-. split; [exact Rm|]. split; [reflexivity|].
    destruct (remembered_current st Rm) as (inp & L & A & H1 & H2).
    exists inp. repeat split; (assumption || lia).
  - cbn [normalModeAll].
    destruct (normalMode_remembered fuel k st Rm Hk) as [P T]. split.
    + intros st'. destruct (normalMode fuel k st) as [st1| |]; try discriminate.
      destruct (P st1 eq_refl) as [R1 S1]. intros H.
      destruct (proj1 (IH st1 R1) st' H) as (R' & S' & I').
      split; [exact R'|]. split; [congruence|exact I'].
    + intros Hf Hl. inversion Hl as [|k' keys' Hk' Hl']; subst.
      destruct (T Hf Hk') as [st1 E1]. rewrite E1.
      rewrite E1 in P. destruct (P st1 eq_refl) as [R1 _].
      exact (proj2 (IH st1 R1) Hf Hl').
Qed.

Lemma defaultState_remembered : remembered defaultState.
Proof.
  unfold remembered, wellFormed, active. cbn.
  split; [lia|]. split; [discriminate|]. split; [exists defaultInput; split;
    [reflexivity|discriminate]|]. split; [reflexivity|].
  intros i inp v L1 L2.
  assert (Hi : 0 <= i < 6) by exact (lookup_range _ _ _ L1).
  assert (C : i = 0 \/ i = 1 \/ i = 2 \/ i = 3 \/ i = 4 \/ i = 5) by lia.
  destruct C as [-> | [-> | [-> | [-> | [-> | ->]]]]];
    cbn in L1, L2; injection L1 as <-; injection L2 as <-; cbn; lia.
Qed.

Lemma remembered_volumes_kept_witness :
  let keys := KEY_UP :: KEY_RIGHT :: KEY_UP :: KEY_3 :: KEY_MUTE :: KEY_DOWN :: nil in
  (forall st',
     normalModeAll 5 keys defaultState = Done st' ->
     remembered st' /\ CurrentSettings st' = CurrentSettings defaultState
     /\ exists inp,
          lookup (Input (CurrentSettings st')) (CurrentInput (CurrentRuntimeSettings st'))
          = Some inp
          /\ Active inp <> 0
          /\ MinVol inp <= CurrentVolume (CurrentRuntimeSettings st') <= MaxVol inp)
  /\ ((5 <= 5)%nat -> Forall (fun k => k <> KEY_LEFT) keys ->
      exists st', normalModeAll 5 keys defaultState = Done st').
Proof.
  intros keys. apply remembered_volumes_kept; [exact defaultState_remembered|].
  repeat (apply Forall_cons; [discriminate|]). apply Forall_nil.
Defined.

(** X13.  [KEY_RIGHT] selects the next active input in the order 1, 2, ...,
    6, 1, ...: when some input is active the search ends within five steps,
    the input selected is [d] places after the current one for the least
    [d >= 1] at which an input is active, [d = 6] being the current one. *)
Theorem key_right_selects_next_active (fuel : nat) (st : State) :
  wellFormed st -> (exists i, 0 <= i <= 5 /\ active st i) -> (5 <= fuel)%nat ->
  exists d st',
    1 <= d <= 6
    /\ normalMode fuel KEY_RIGHT st = Done st'
    /\ CurrentInput (CurrentRuntimeSettings st')
       = (CurrentInput (CurrentRuntimeSettings st) + d) mod 6
    /\ active st (CurrentInput (CurrentRuntimeSettings st'))
    /\ forall j, 1 <= j < d ->
         ~ active st ((CurrentInput (CurrentRuntimeSettings st) + j) mod 6).
Proof.
  intros W Hi Hf.
  destruct (inputRight_finds fuel st W Hi Hf) as (d & Hd & En & Ad & Md).
  cbn [normalMode]. unfold inputRight. rewrite En.
  assert (Hn : 0 <= (CurrentInput (CurrentRuntimeSettings st) + d) mod 6 <= 5).
  { pose proof (Z.mod_pos_bound (CurrentInput (CurrentRuntimeSettings st) + d) 6). lia. }
  destruct (changeInput_done _ st W Hn) as [st' E].
  destruct (changeInput_frame _ st st' E) as (_ & _ & C' & _).
  exists d, st'. rewrite C'. repeat split; try assumption; lia.
Qed.

Lemma key_right_selects_next_active_witness :
  let st := withInactive (1 :: 2 :: 5 :: nil) defaultState in
  exists d st',
    1 <= d <= 6
    /\ normalMode 5 KEY_RIGHT st = Done st'
    /\ CurrentInput (CurrentRuntimeSettings st')
       = (CurrentInput (CurrentRuntimeSettings st) + d) mod 6
    /\ active st (CurrentInput (CurrentRuntimeSettings st'))
    /\ forall j, 1 <= j < d ->
         ~ active st ((CurrentInput (CurrentRuntimeSettings st) + j) mod 6).
Proof.
  intros st. apply key_right_selects_next_active.
  - unfold wellFormed. cbn. lia.
  - exists 3. split; [lia|]. eexists. split; [reflexivity|]. discriminate.
  - lia.
Defined.

(** X14.  At the first input [KEY_LEFT] never ends when the sixth input is
    switched off, whatever the other inputs are: the loop tests
    [CurrentInput], not [nextInput], and sets [nextInput] to 5 again. *)
Theorem key_left_hangs_at_first_input (fuel : nat) (st : State) (inp : InputSettings) :
  CurrentInput (CurrentRuntimeSettings st) = 0 ->
  lookup (Input (CurrentSettings st)) 5 = Some inp -> Active inp = 0 ->
  normalMode fuel KEY_LEFT st = OutOfFuel.
Proof.
  intros C L A. cbn [normalMode]. unfold inputLeft. rewrite C. cbn [Z.eqb].
  assert (H : nextActiveDown fuel (Input (CurrentSettings st)) 0 5 = OutOfFuel).
  { induction fuel as [|fuel IH]; cbn [nextActiveDown]; rewrite L, A; [reflexivity|].
    cbn [Z.eqb]. exact IH. }
  now rewrite H.
Qed.

Lemma key_left_hangs_at_first_input_witness :
  normalMode 1000 KEY_LEFT (withInactive (5 :: nil) defaultState) = OutOfFuel.
Proof.
  apply (key_left_hangs_at_first_input 1000 _ (set_Active 0 defaultInput)); reflexivity.
Defined.

(** X15.  At another input [KEY_LEFT] selects the nearest active input below
    the current one; when no input below is active the search does not turn
    round to the sixth input but leaves the array at index 255. *)
Theorem key_left_below_current (fuel : nat) (st : State) :
  wellFormed st -> 1 <= CurrentInput (CurrentRuntimeSettings st) -> (5 <= fuel)%nat ->
  (forall m,
     0 <= m < CurrentInput (CurrentRuntimeSettings st) -> active st m ->
     (forall j, m < j < CurrentInput (CurrentRuntimeSettings st) -> ~ active st j) ->
     exists st',
       normalMode fuel KEY_LEFT st = Done st'
       /\ CurrentInput (CurrentRuntimeSettings st') = m)
  /\ ((forall j, 0 <= j < CurrentInput (CurrentRuntimeSettings st) -> ~ active st j) ->
      normalMode fuel KEY_LEFT st = OutOfBounds).
Proof.
  intros W H1 Hf.
  assert (Hc : 0 <= CurrentInput (CurrentRuntimeSettings st) <= 5) by apply W.
  set (cur := CurrentInput (CurrentRuntimeSettings st)) in *.
  cbn [normalMode]. unfold inputLeft. fold cur.
  destruct (Z.eqb_spec cur 0) as [|_]; [lia|]. split.
  - intros m Hm Am Hj.
    rewrite byte_small by lia.
    assert (E : nextActiveDown fuel (Input (CurrentSettings st)) cur (cur - 1) = Done m).
    { assert (Em : cur - 1 - Z.of_nat (Z.to_nat (cur - 1 - m)) = m) by lia.
      rewrite <- Em at 1.
      apply nextActiveDown_finds; try lia.
      - intros j Hj'. apply (inactive_input st); [exact W|lia|apply Hj; lia].
      - rewrite Em. exact Am. }
    rewrite E. destruct (changeInput_done m st W ltac:(lia)) as [st' E'].
    exists st'. split; [exact E'|].
    now destruct (changeInput_frame m st st' E') as (_ & _ & C' & _).
  - intros Hj.
    rewrite (nextActiveDown_leaves _ cur (Z.to_nat cur)); try lia; try reflexivity.
    + apply W.
    + intros j Hj'. apply (inactive_input st); [exact W|lia|apply Hj; lia].
Qed.

Lemma key_left_below_current_witness :
  let st := set_runtime (set_CurrentInput 3 defaultRuntimeSettings)
              (withInactive (0 :: 1 :: 2 :: nil) defaultState) in
  (forall m,
     0 <= m < CurrentInput (CurrentRuntimeSettings st) -> active st m ->
     (forall j, m < j < CurrentInput (CurrentRuntimeSettings st) -> ~ active st j) ->
     exists st',
       normalMode 5 KEY_LEFT st = Done st'
       /\ CurrentInput (CurrentRuntimeSettings st') = m)
  /\ ((forall j, 0 <= j < CurrentInput (CurrentRuntimeSettings st) -> ~ active st j) ->
      normalMode 5 KEY_LEFT st = OutOfBounds).
Proof.
  intros st. apply key_left_below_current.
  - unfold wellFormed. cbn. lia.
  - cbn. lia.
  - lia.
Defined.

Lemma muted_volume_keys (fuel : nat) (ks : list UserInput) (st : State) :
  Muted (CurrentRuntimeSettings st) = true ->
  Forall (fun k => k = KEY_UP \/ k = KEY_DOWN) ks ->
  normalModeAll fuel ks st = Done st.
Proof.
  intros M H. induction H as [|k ks Hk _ IH]; [reflexivity|].
  cbn [normalModeAll].
  destruct Hk as [-> | ->]; cbn [normalMode]; unfold volumeUp, volumeDown;
    rewrite M; exact IH.
Qed.

Lemma normalModeAll_app (fuel : nat) (ks1 ks2 : list UserInput) (st st1 : State) :
  normalModeAll fuel ks1 st = Done st1 ->
  normalModeAll fuel (ks1 ++ ks2) st = normalModeAll fuel ks2 st1.
Proof.
  revert st. induction ks1 as [|k ks1 IH]; intros st H; cbn [app normalModeAll] in *.
  - now injection H as <-.
  - destruct (normalMode fuel k st) as [st0| |]; try discriminate. now apply IH.
Qed.

(** X16.  While muted the volume keys do nothing: [KEY_MUTE], any number of
    [KEY_UP] and [KEY_DOWN], and [KEY_MUTE] again leave every variable as it
    was. *)
Theorem mute_holds_the_volume (fuel : nat) (ks : list UserInput) (st : State) :
  Muted (CurrentRuntimeSettings st) = false ->
  Forall (fun k => k = KEY_UP \/ k = KEY_DOWN) ks ->
  normalModeAll fuel (KEY_MUTE :: ks ++ KEY_MUTE :: nil) st = Done st.
Proof.
  intros M H. cbn [normalModeAll normalMode].
  rewrite (normalModeAll_app fuel ks _ (toggleMute st) (toggleMute st)).
  - cbn [normalModeAll normalMode]. f_equal.
    destruct st as [cs rt e a i]. destruct rt as [ci cv ca m l p].
    cbn in M. subst m. reflexivity.
  - apply muted_volume_keys; [|exact H]. unfold toggleMute. fields. now rewrite M.
Qed.

Lemma mute_holds_the_volume_witness :
  normalModeAll 0
    (KEY_MUTE :: (KEY_UP :: KEY_UP :: KEY_DOWN :: nil) ++ KEY_MUTE :: nil) defaultState
  = Done defaultState.
Proof.
  apply mute_holds_the_volume; [reflexivity|].
  repeat (apply Forall_cons; [tauto|]). apply Forall_nil.
Defined.

(** X17.  Changing the input does not set the attenuation: after
    [KEY_LEFT], [KEY_RIGHT] or [KEY_1] to [KEY_6] the settings, the remembered
    volumes, the mute state and [CurrentAttenuation] are as before, also when
    the input has changed and [CurrentVolume] has become the volume
    remembered for the new input. *)
Theorem input_keys_keep_attenuation (fuel : nat) (k : UserInput) (st st' : State) :
  In k (KEY_LEFT :: KEY_RIGHT :: KEY_1 :: KEY_2 :: KEY_3 :: KEY_4 :: KEY_5 :: KEY_6 :: nil) ->
  normalMode fuel k st = Done st' ->
  CurrentSettings st' = CurrentSettings st
  /\ CurrentAttenuation (CurrentRuntimeSettings st')
     = CurrentAttenuation (CurrentRuntimeSettings st)
  /\ Muted (CurrentRuntimeSettings st') = Muted (CurrentRuntimeSettings st)
  /\ InputLastVol (CurrentRuntimeSettings st') = InputLastVol (CurrentRuntimeSettings st)
  /\ (CurrentInput (CurrentRuntimeSettings st') <> CurrentInput (CurrentRuntimeSettings st) ->
      PrevSelectedInput (CurrentRuntimeSettings st') = CurrentInput (CurrentRuntimeSettings st)
      /\ active st (CurrentInput (CurrentRuntimeSettings st'))
      /\ (RecallSetLevel (CurrentSettings st) <> 0 ->
          lookup (InputLastVol (CurrentRuntimeSettings st))
                 (CurrentInput (CurrentRuntimeSettings st'))
          = Some (CurrentVolume (CurrentRuntimeSettings st')))).
Proof.
  intros Hk H.
  assert (Change : exists n,
            changeInput n st = Done st'
            /\ (n <> CurrentInput (CurrentRuntimeSettings st) -> active st n)).
  { assert (Direct : forall n, inputDirect n st = Done st' ->
              exists n, changeInput n st = Done st'
                        /\ (n <> CurrentInput (CurrentRuntimeSettings st) -> active st n)).
    { intros n. unfold inputDirect.
      destruct (lookup (Input (CurrentSettings st)) n) as [inp|] eqn:L; [|discriminate].
      destruct (Z.eqb_spec (Active inp) 0) as [A|A].
      - intros E. injection E as <-.
        exists (CurrentInput (CurrentRuntimeSettings st)). split; [|tauto].
        unfold changeInput. now rewrite Z.eqb_refl.
      - intros E. exists n. split; [exact E|]. intros _. now exists inp. }
    cbn [In] in Hk.
    destruct Hk as [<- | [<- | [<- | [<- | [<- | [<- | [<- | [<- | []]]]]]]]];
      cbn [normalMode] in H; try (now apply (Direct _ H)).
    - unfold inputLeft in H.
      destruct (nextActiveDown fuel _ _ _) as [n| |] eqn:En; try discriminate.
      exists n. split; [exact H|]. intros _.
      exact (nextActiveDown_done _ _ _ _ _ En).
    - unfold inputRight in H.
      destruct (nextActiveUp fuel _ _) as [n| |] eqn:En; try discriminate.
      exists n. split; [exact H|]. intros _.
      exact (nextActiveUp_done _ _ _ _ En). }
  destruct Change as (n & E & An).
  destruct (changeInput_frame n st st' E) as (S' & _ & C' & A' & M' & I' & _ & Other).
  rewrite C'. split; [exact S'|]. split; [exact A'|]. split; [exact M'|].
  split; [exact I'|].
  intros Hn. destruct (Other Hn) as (P & _ & Rec).
  split; [exact P|]. split; [exact (An Hn)|exact Rec].
Qed.

Lemma input_keys_keep_attenuation_witness :
  let st := set_runtime (set_InputLastVol (0 :: 0 :: 17 :: 0 :: 0 :: 0 :: nil)
                           (set_CurrentAttenuation 120 defaultRuntimeSettings))
              defaultState in
  let st' := set_runtime
               {| CurrentInput := 2; CurrentVolume := 17; CurrentAttenuation := 120;
                  Muted := false; InputLastVol := 0 :: 0 :: 17 :: 0 :: 0 :: 0 :: nil;
                  PrevSelectedInput := 0 |} defaultState in
  CurrentSettings st' = CurrentSettings st
  /\ CurrentAttenuation (CurrentRuntimeSettings st')
     = CurrentAttenuation (CurrentRuntimeSettings st)
  /\ Muted (CurrentRuntimeSettings st') = Muted (CurrentRuntimeSettings st)
  /\ InputLastVol (CurrentRuntimeSettings st') = InputLastVol (CurrentRuntimeSettings st)
  /\ (CurrentInput (CurrentRuntimeSettings st') <> CurrentInput (CurrentRuntimeSettings st) ->
      PrevSelectedInput (CurrentRuntimeSettings st') = CurrentInput (CurrentRuntimeSettings st)
      /\ active st (CurrentInput (CurrentRuntimeSettings st'))
      /\ (RecallSetLevel (CurrentSettings st) <> 0 ->
          lookup (InputLastVol (CurrentRuntimeSettings st))
                 (CurrentInput (CurrentRuntimeSettings st'))
          = Some (CurrentVolume (CurrentRuntimeSettings st')))).
Proof.
  intros st st'.
  apply (input_keys_keep_attenuation 0 KEY_3 st st'); [cbn; tauto|reflexivity].
Defined.

(** ** The menu commands *)

Lemma completed_returns (r : result bool) (b : bool) (st' : State) (rest : list UserInput) :
  completed r = Returns b st' rest -> b = true /\ exists b0, r = Returns b0 st' rest.
Proof.
  destruct r as [b0 st0 rest0| |]; cbn; try discriminate.
  intros H. injection H as <- <- <-. split; [reflexivity|now exists b0].
Qed.

Lemma finishEdit_returns (Value : reference) (st : State)
    (r : option (option Z * list UserInput)) (b : bool) (st' : State)
    (rest : list UserInput) :
  finishEdit Value st r = Returns b st' rest ->
  (b = false /\ st' = st /\ r = Some (None, rest))
  \/ (b = true
      /\ exists v st1,
           assign Value v st = Some st1
           /\ st' = writeSettingsToEEPROM st1
           /\ r = Some (Some v, rest)).
Proof.
  unfold finishEdit. destruct r as [[[v|] rest0]|]; try discriminate.
  - destruct (assign Value v st) as [st1|] eqn:A; [|discriminate].
    intros H. injection H as <- <- <-. right. split; [reflexivity|]. now exists v, st1.
  - intros H. injection H as <- <- <-. left. auto.
Qed.

Lemma member_edited (I : State -> Prop) (get : Settings -> Z)
    (set : Z -> Settings -> Settings) (st : State)
    (r : option (option Z * list UserInput)) (b : bool) (st' : State)
    (rest : list UserInput) :
  finishEdit (member get set) st r = Returns b st' rest ->
  I st ->
  (forall v, r = Some (Some v, rest) ->
             I (writeSettingsToEEPROM (set_settings (set v (CurrentSettings st)) st))) ->
  I st'.
Proof.
  intros H I0 I1.
  destruct (finishEdit_returns _ _ _ _ _ _ H) as [(_ & -> & _) | (_ & v & st1 & A & -> & R)];
    [exact I0|].
  cbn [assign member] in A. injection A as <-. now apply I1.
Qed.

Lemma input_edited (I : State -> Prop) (n : Z) (get : InputSettings -> Z)
    (set : Z -> InputSettings -> InputSettings) (st : State)
    (r : option (option Z * list UserInput)) (b : bool) (st' : State)
    (rest : list UserInput) :
  finishEdit (inputMember n get set) st r = Returns b st' rest ->
  I st ->
  (forall v inp l,
     r = Some (Some v, rest) ->
     lookup (Input (CurrentSettings st)) n = Some inp ->
     store (Input (CurrentSettings st)) n (set v inp) = Some l ->
     I (writeSettingsToEEPROM (set_settings (set_Input l (CurrentSettings st)) st))) ->
  I st'.
Proof.
  intros H I0 I1.
  destruct (finishEdit_returns _ _ _ _ _ _ H) as [(_ & -> & _) | (_ & v & st1 & A & -> & R)];
    [exact I0|].
  cbn [assign inputMember] in A.
  destruct (lookup (Input (CurrentSettings st)) n) as [inp|] eqn:L; [|discriminate].
  destruct (store (Input (CurrentSettings st)) n (set v inp)) as [l|] eqn:S; [|discriminate].
  injection A as <-. now apply (I1 v inp l).
Qed.

Lemma forInputs_six (f : InputSettings -> InputSettings) (inputs : list InputSettings) :
  length inputs = 6%nat -> forInputs f 0 6 inputs = Some (map f inputs).
Proof.
  destruct inputs as [|a [|b [|c [|d [|e [|g [|h t]]]]]]]; cbn [length]; intros H;
    try discriminate H.
  reflexivity.
Qed.

Lemma lookup_map {A B : Type} (f : A -> B) (l : list A) (i : Z) :
  lookup (map f l) i = option_map f (lookup l i).
Proof.
  unfold lookup. destruct (i <? 0); [reflexivity|]. apply nth_error_map.
Qed.

Lemma clamp_limits (v : Z) (inp : InputSettings) :
  Active (clampMinVol v (clampMaxVol v inp)) = Active inp
  /\ MaxVol (clampMinVol v (clampMaxVol v inp)) = Z.min (MaxVol inp) v
  /\ MinVol (clampMinVol v (clampMaxVol v inp)) = Z.min (MinVol inp) v.
Proof.
  unfold clampMinVol, clampMaxVol.
  destruct (Z.ltb_spec v (MaxVol inp)); fields;
    destruct (Z.ltb_spec v (MinVol inp)); fields; repeat split; lia.
Qed.

(** The state after an accepted number of steps [v]. *)
Lemma steps_accepted (keys rest : list UserInput) (v : Z) (st : State) :
  wellFormed st ->
  editNumericLoop (VolumeSteps (CurrentSettings st)) 1 179 keys = Some (Some v, rest) ->
  exists st',
    processMenuCommand mnuCmdVOL_STEPS keys st = Returns true st' rest
    /\ VolumeSteps (CurrentSettings st') = v
    /\ MinAttenuation (CurrentSettings st') = MinAttenuation (CurrentSettings st)
    /\ MaxAttenuation (CurrentSettings st') = MaxAttenuation (CurrentSettings st)
    /\ RecallSetLevel (CurrentSettings st') = RecallSetLevel (CurrentSettings st)
    /\ Input (CurrentSettings st')
       = map (fun inp => clampMinVol v (clampMaxVol v inp)) (Input (CurrentSettings st))
    /\ MaxStartVolume (CurrentSettings st') = Z.min (MaxStartVolume (CurrentSettings st)) v
    /\ CurrentVolume (CurrentRuntimeSettings st')
       = Z.min (CurrentVolume (CurrentRuntimeSettings st)) v
    /\ CurrentInput (CurrentRuntimeSettings st') = CurrentInput (CurrentRuntimeSettings st)
    /\ InputLastVol (CurrentRuntimeSettings st') = InputLastVol (CurrentRuntimeSettings st)
    /\ (CurrentVolume (CurrentRuntimeSettings st) <= v ->
        storedSettings (eeprom st') = set_VolumeSteps v (CurrentSettings st))
    /\ (v < CurrentVolume (CurrentRuntimeSettings st) ->
        storedSettings (eeprom st') = CurrentSettings st'
        /\ storedRuntimeSettings (eeprom st') = CurrentRuntimeSettings st'
        /\ (Muted (CurrentRuntimeSettings st) = false -> attenuationSet st')).
Proof.
  intros (L1 & L2 & Hc) Hk.
  cbn [processMenuCommand]. unfold editNumericValue. cbn [load member].
  rewrite Hk. cbn [finishEdit assign member]. unfold validateVolumeSteps. fields.
  rewrite forInputs_six by exact L1.
  rewrite forInputs_six by (rewrite length_map; exact L1).
  rewrite map_map. unfold attenuationSet.
  destruct (Z.ltb_spec v (MaxStartVolume (CurrentSettings st)));
    destruct (Z.ltb_spec v (CurrentVolume (CurrentRuntimeSettings st)));
    destruct (Muted (CurrentRuntimeSettings st)) eqn:M;
    fields; (eexists; split; [reflexivity|]); fields;
    repeat match goal with
           | |- _ /\ _ => split
           end;
    try reflexivity; try lia; try (intros; exfalso; lia);
    try (intros _; repeat split; try reflexivity; intros; discriminate).
Qed.

(** X18.  An accepted number of steps is a limit of every volume: after
    [KEY_SELECT] in the editor of the steps, [MaxVol] and [MinVol] of every
    input, [MaxStartVolume] and the current volume are the smaller of their
    old value and the new number of steps; nothing else of the inputs
    changes. *)
Theorem accepted_steps_limit_volumes (keys rest : list UserInput) (v : Z) (st : State) :
  wellFormed st ->
  editNumericLoop (VolumeSteps (CurrentSettings st)) 1 179 keys = Some (Some v, rest) ->
  exists st',
    processMenuCommand mnuCmdVOL_STEPS keys st = Returns true st' rest
    /\ wellFormed st'
    /\ VolumeSteps (CurrentSettings st') = v
    /\ MaxStartVolume (CurrentSettings st') = Z.min (MaxStartVolume (CurrentSettings st)) v
    /\ CurrentVolume (CurrentRuntimeSettings st')
       = Z.min (CurrentVolume (CurrentRuntimeSettings st)) v
    /\ forall i inp,
         lookup (Input (CurrentSettings st)) i = Some inp ->
         exists inp',
           lookup (Input (CurrentSettings st')) i = Some inp'
           /\ Active inp' = Active inp
           /\ MaxVol inp' = Z.min (MaxVol inp) v
           /\ MinVol inp' = Z.min (MinVol inp) v.
Proof.
  intros W Hk.
  destruct (steps_accepted keys rest v st W Hk)
    as (st' & E & S & _ & _ & _ & I & M & V & C & L & _).
  exists st'. split; [exact E|]. split.
  - destruct W as (L1 & L2 & Hc). unfold wellFormed.
    rewrite I, C, L, length_map. auto.
  - split; [exact S|]. split; [exact M|]. split; [exact V|].
    intros i inp Li. rewrite I, lookup_map, Li. cbn [option_map].
    eexists. split; [reflexivity|]. apply clamp_limits.
Qed.

Lemma accepted_steps_limit_volumes_witness :
  let keys := repeat KEY_LEFT 20 ++ KEY_SELECT :: nil in
  exists st',
    processMenuCommand mnuCmdVOL_STEPS keys defaultState = Returns true st' nil
    /\ wellFormed st'
    /\ VolumeSteps (CurrentSettings st') = 40
    /\ MaxStartVolume (CurrentSettings st')
       = Z.min (MaxStartVolume (CurrentSettings defaultState)) 40
    /\ CurrentVolume (CurrentRuntimeSettings st')
       = Z.min (CurrentVolume (CurrentRuntimeSettings defaultState)) 40
    /\ forall i inp,
         lookup (Input (CurrentSettings defaultState)) i = Some inp ->
         exists inp',
           lookup (Input (CurrentSettings st')) i = Some inp'
           /\ Active inp' = Active inp
           /\ MaxVol inp' = Z.min (MaxVol inp) 40
           /\ MinVol inp' = Z.min (MinVol inp) 40.
Proof.
  intros keys. apply accepted_steps_limit_volumes; [|reflexivity].
  unfold wellFormed. cbn. lia.
Defined.

(** X19.  The [break] of the case [mnuCmdVOL_STEPS] is inside its [if]:
    leaving the editor of the steps with [KEY_BACK] opens the editor of the
    minimum attenuation on the keys that follow, and [n] times [KEY_RIGHT] and
    [KEY_SELECT] after it change [MinAttenuation]. *)
Theorem cancelled_steps_edit_attenuation (ks rest : list UserInput) (n : nat) (st : State) :
  Forall (fun k => k <> KEY_SELECT /\ k <> KEY_BACK) ks ->
  0 <= MinAttenuation (CurrentSettings st) <= MaxAttenuation (CurrentSettings st) ->
  MaxAttenuation (CurrentSettings st) <= 255 ->
  (forall keys,
     processMenuCommand mnuCmdVOL_STEPS (ks ++ KEY_BACK :: keys) st
     = processMenuCommand mnuCmdMIN_ATT keys st)
  /\ processMenuCommand mnuCmdVOL_STEPS
       (ks ++ KEY_BACK :: repeat KEY_RIGHT n ++ KEY_SELECT :: rest) st
     = Returns true
         (writeSettingsToEEPROM
            (set_settings
               (set_MinAttenuation
                  (Z.min (MinAttenuation (CurrentSettings st) + Z.of_nat n)
                         (MaxAttenuation (CurrentSettings st)))
                  (CurrentSettings st)) st))
         rest.
Proof.
  intros Hks Hm Hx.
  assert (F : forall keys,
             processMenuCommand mnuCmdVOL_STEPS (ks ++ KEY_BACK :: keys) st
             = processMenuCommand mnuCmdMIN_ATT keys st).
  { intros keys. cbn [processMenuCommand]. unfold editNumericValue at 1.
    cbn [load member]. now rewrite editNumericLoop_back. }
  split; [exact F|]. rewrite F.
  cbn [processMenuCommand]. unfold editMinAttenuation, editNumericValue.
  cbn [load member].
  rewrite (editNumericLoop_rights _ 0 _ n rest ltac:(lia) Hx Hm).
  reflexivity.
Qed.

Lemma cancelled_steps_edit_attenuation_witness :
  (forall keys,
     processMenuCommand mnuCmdVOL_STEPS ((KEY_RIGHT :: nil) ++ KEY_BACK :: keys) defaultState
     = processMenuCommand mnuCmdMIN_ATT keys defaultState)
  /\ processMenuCommand mnuCmdVOL_STEPS
       ((KEY_RIGHT :: nil) ++ KEY_BACK :: repeat KEY_RIGHT 3 ++ KEY_SELECT :: nil)
       defaultState
     = Returns true
         (writeSettingsToEEPROM
            (set_settings
               (set_MinAttenuation
                  (Z.min (MinAttenuation (CurrentSettings defaultState) + Z.of_nat 3)
                         (MaxAttenuation (CurrentSettings defaultState)))
                  (CurrentSettings defaultState)) defaultState))
         nil.
Proof.
  apply cancelled_steps_edit_attenuation; cbn; try lia.
  apply Forall_cons; [split; discriminate|apply Forall_nil].
Defined.

(** X20.  The limits that follow an accepted number of steps reach the
    EEPROM only with a current volume above the new number: otherwise the
    settings stored are those written by the editor, before the limits were
    applied, and differ from the current ones as soon as an input had a larger
    [MaxVol]. *)
Theorem validated_limits_not_stored (keys rest : list UserInput) (v : Z) (st : State) :
  wellFormed st ->
  editNumericLoop (VolumeSteps (CurrentSettings st)) 1 179 keys = Some (Some v, rest) ->
  CurrentVolume (CurrentRuntimeSettings st) <= v ->
  exists st',
    processMenuCommand mnuCmdVOL_STEPS keys st = Returns true st' rest
    /\ storedSettings (eeprom st') = set_VolumeSteps v (CurrentSettings st)
    /\ ((exists i inp, lookup (Input (CurrentSettings st)) i = Some inp /\ v < MaxVol inp) ->
        storedSettings (eeprom st') <> CurrentSettings st').
Proof.
  intros W Hk Hv.
  destruct (steps_accepted keys rest v st W Hk)
    as (st' & E & _ & _ & _ & _ & I & _ & _ & _ & _ & St & _).
  exists st'. split; [exact E|]. split; [exact (St Hv)|].
  intros (i & inp & Li & Hi) Eq. rewrite (St Hv) in Eq.
  assert (L' : lookup (Input (CurrentSettings st')) i = Some inp).
  { rewrite <- Eq. exact Li. }
  rewrite I, lookup_map, Li in L'. cbn [option_map] in L'. injection L' as L'.
  pose proof (proj1 (proj2 (clamp_limits v inp))) as Mx. rewrite L' in Mx. lia.
Qed.

Lemma validated_limits_not_stored_witness :
  let keys := repeat KEY_LEFT 20 ++ KEY_SELECT :: nil in
  exists st',
    processMenuCommand mnuCmdVOL_STEPS keys defaultState = Returns true st' nil
    /\ storedSettings (eeprom st') = set_VolumeSteps 40 (CurrentSettings defaultState)
    /\ ((exists i inp,
           lookup (Input (CurrentSettings defaultState)) i = Some inp /\ 40 < MaxVol inp) ->
        storedSettings (eeprom st') <> CurrentSettings st').
Proof.
  intros keys. apply validated_limits_not_stored; [|reflexivity|cbn; lia].
  unfold wellFormed. cbn. lia.
Defined.

Lemma editNumericLoop_bounds (a b lo hi : Z) (keys rest : list UserInput) (v v' : Z) :
  0 <= a -> b <= 255 -> a <= lo -> hi <= b -> a <= v <= b ->
  editNumericLoop v lo hi keys = Some (Some v', rest) ->
  a <= v' <= b.
Proof.
  intros Ha Hb Hlo Hhi. revert v.
  induction keys as [|k keys IH]; intros v Hv; cbn [editNumericLoop]; [discriminate|].
  assert (R : a <= (if v <? hi then byte (v + 1) else v) <= b).
  { destruct (Z.ltb_spec v hi); rewrite ?byte_small by lia; lia. }
  assert (L : a <= (if lo <? v then byte (v - 1) else v) <= b).
  { destruct (Z.ltb_spec lo v); rewrite ?byte_small by lia; lia. }
  destruct k; try (now apply IH); try discriminate.
  intros H. injection H as <- _. exact Hv.
Qed.

Lemma validateVolumeSteps_frame (st st' : State) :
  validateVolumeSteps st = Done st' ->
  MinAttenuation (CurrentSettings st') = MinAttenuation (CurrentSettings st)
  /\ MaxAttenuation (CurrentSettings st') = MaxAttenuation (CurrentSettings st).
Proof.
  unfold validateVolumeSteps.
  destruct (forInputs _ 0 6 (Input (CurrentSettings st))) as [l1|]; [|discriminate].
  destruct (forInputs _ 0 6 l1) as [l2|]; [|discriminate].
  fields.
  destruct (VolumeSteps (CurrentSettings st) <? MaxStartVolume (CurrentSettings st));
    destruct (VolumeSteps (CurrentSettings st) <? CurrentVolume (CurrentRuntimeSettings st));
    destruct (Muted (CurrentRuntimeSettings st));
    fields; intros H; injection H as <-; fields; now split.
Qed.

(** The editors of a case, opened in a hypothesis. *)
Ltac open_case H :=
  cbn [processMenuCommand] in H;
  unfold editActive, editMaxVol, editMinVol, editMinAttenuation in H;
  repeat match type of H with
         | (if ?c then _ else _) = _ => destruct c eqn:?
         | match lookup ?l ?n with _ => _ end = _ => destruct (lookup l n) eqn:?
         | Invalid = _ => discriminate H
         | completed _ = _ =>
             apply completed_returns in H; destruct H as (_ & ? & H)
         end;
  unfold editNumericValue, editOptionValue in H;
  cbn [load member inputMember] in H;
  repeat match type of H with
         | match ?o with _ => _ end = _ =>
             match o with
             | lookup ?l ?n => destruct (lookup l n) eqn:?
             | context [lookup ?l ?n] => destruct (lookup l n) eqn:?
             end
         | Invalid = _ => discriminate H
         end.

(** X21.  No command of the menu takes the attenuation limits out of
    [0 <= MinAttenuation <= MaxAttenuation <= 90]. *)
Theorem attenuation_limits_kept (cmdId : MenuCommand) (keys rest : list UserInput)
    (st st' : State) (b : bool) :
  processMenuCommand cmdId keys st = Returns b st' rest ->
  0 <= MinAttenuation (CurrentSettings st) <= MaxAttenuation (CurrentSettings st) ->
  MaxAttenuation (CurrentSettings st) <= 90 ->
  0 <= MinAttenuation (CurrentSettings st') <= MaxAttenuation (CurrentSettings st')
  /\ MaxAttenuation (CurrentSettings st') <= 90.
Proof.
  intros H Hm Hx.
  set (I := fun s : State =>
              0 <= MinAttenuation (CurrentSettings s) <= MaxAttenuation (CurrentSettings s)
              /\ MaxAttenuation (CurrentSettings s) <= 90).
  change (I st'). assert (I0 : I st) by (split; assumption).
  assert (Min : forall ks r b0,
            finishEdit (member MinAttenuation set_MinAttenuation) st
              (editNumericLoop (MinAttenuation (CurrentSettings st)) 0
                 (MaxAttenuation (CurrentSettings st)) ks) = Returns b0 st' r -> I st').
  { intros ks r b0 E. apply (member_edited I _ _ _ _ _ _ _ E I0).
    intros v Ev. unfold I. fields.
    pose proof (editNumericLoop_bounds 0 (MaxAttenuation (CurrentSettings st))
                  0 (MaxAttenuation (CurrentSettings st)) _ _ _ _
                  ltac:(lia) ltac:(lia) ltac:(lia) ltac:(lia) Hm Ev). lia. }
  destruct cmdId;
    try (open_case H;
         first [ apply (member_edited I _ _ _ _ _ _ _ H I0)
               | apply (input_edited I _ _ _ _ _ _ _ _ H I0)
               | injection H as <- <- <-; exact I0 ];
         intros; unfold I; fields; lia).
  - (* mnuCmdVOL_STEPS *)
    cbn [processMenuCommand] in H. unfold editNumericValue at 1 in H.
    cbn [load member] in H.
    destruct (editNumericLoop (VolumeSteps (CurrentSettings st)) 1 179 keys)
      as [[[v|] r]|]; cbn [finishEdit assign member] in H; try discriminate H.
    + destruct (validateVolumeSteps _) as [st2| |] eqn:V; try discriminate H.
      injection H as <- <- <-.
      destruct (validateVolumeSteps_frame _ _ V) as [E1 E2].
      unfold I. rewrite E1, E2. fields. lia.
    + unfold editMinAttenuation in H. apply completed_returns in H.
      destruct H as (_ & b0 & H). unfold editNumericValue in H. cbn [load member] in H.
      exact (Min _ _ _ H).
  - (* mnuCmdMIN_ATT *)
    open_case H. exact (Min _ _ _ H).
  - (* mnuCmdMAX_ATT *)
    open_case H. apply (member_edited I _ _ _ _ _ _ _ H I0).
    intros v Ev. unfold I. fields.
    pose proof (editNumericLoop_bounds (MinAttenuation (CurrentSettings st)) 90
                  (byte (MinAttenuation (CurrentSettings st) + 1)) 90 _ _
                  (MaxAttenuation (CurrentSettings st)) _
                  ltac:(lia) ltac:(lia)
                  ltac:(rewrite byte_small; lia) ltac:(lia) ltac:(lia) Ev). lia.
Qed.

Lemma attenuation_limits_kept_witness :
  let st' := writeSettingsToEEPROM
               (set_settings (set_MaxAttenuation 1 defaultSettings) defaultState) in
  0 <= MinAttenuation (CurrentSettings st') <= MaxAttenuation (CurrentSettings st')
  /\ MaxAttenuation (CurrentSettings st') <= 90.
Proof.
  intros st'.
  apply (attenuation_limits_kept mnuCmdMAX_ATT (repeat KEY_LEFT 100 ++ KEY_SELECT :: nil)
           nil defaultState st' true); [reflexivity|cbn; lia|cbn; lia].
Defined.

(** X22.  The editor of the minimum attenuation goes up to the maximum, and
    with the two equal no volume step has an attenuation: whatever the
    volume, [setVolume] then stores the mute code 223. *)
Theorem equal_limits_mute_every_step (n : nat) (rest : list UserInput) (st : State) :
  0 <= MinAttenuation (CurrentSettings st) <= MaxAttenuation (CurrentSettings st) ->
  MaxAttenuation (CurrentSettings st) <= 255 ->
  1 <= VolumeSteps (CurrentSettings st) <= 255 ->
  MaxAttenuation (CurrentSettings st) - MinAttenuation (CurrentSettings st) <= Z.of_nat n ->
  exists st',
    processMenuCommand mnuCmdMIN_ATT (repeat KEY_RIGHT n ++ KEY_SELECT :: rest) st
    = Returns true st' rest
    /\ MinAttenuation (CurrentSettings st') = MaxAttenuation (CurrentSettings st)
    /\ MaxAttenuation (CurrentSettings st') = MaxAttenuation (CurrentSettings st)
    /\ forall vol,
         CurrentAttenuation
           (CurrentRuntimeSettings
              (setVolume (set_runtime (set_CurrentVolume vol (CurrentRuntimeSettings st')) st')))
         = MUTE.
Proof.
  intros Hm Hx Hs Hn.
  cbn [processMenuCommand]. unfold editMinAttenuation, editNumericValue.
  cbn [load member].
  rewrite (editNumericLoop_rights _ 0 _ n rest ltac:(lia) Hx Hm).
  cbn [finishEdit assign member completed].
  eexists. split; [reflexivity|]. fields.
  replace (Z.min (MinAttenuation (CurrentSettings st) + Z.of_nat n)
                 (MaxAttenuation (CurrentSettings st)))
    with (MaxAttenuation (CurrentSettings st)) by lia.
  split; [reflexivity|]. split; [reflexivity|]. intros vol.
  set (m := MaxAttenuation (CurrentSettings st)) in *.
  set (steps := VolumeSteps (CurrentSettings st)) in *.
  apply (getAttenuation_mute steps vol m m 1 steps).
  - unfold derived, uint8. rewrite Z.sub_diag.
    rewrite round_pow2_zero_range by lia. repeat split; lia.
  - left. lia.
Qed.

Lemma equal_limits_mute_every_step_witness :
  exists st',
    processMenuCommand mnuCmdMIN_ATT (repeat KEY_RIGHT 60 ++ KEY_SELECT :: nil) defaultState
    = Returns true st' nil
    /\ MinAttenuation (CurrentSettings st') = MaxAttenuation (CurrentSettings defaultState)
    /\ MaxAttenuation (CurrentSettings st') = MaxAttenuation (CurrentSettings defaultState)
    /\ forall vol,
         CurrentAttenuation
           (CurrentRuntimeSettings
              (setVolume (set_runtime (set_CurrentVolume vol (CurrentRuntimeSettings st')) st')))
         = MUTE.
Proof.
  apply equal_limits_mute_every_step; cbn; lia.
Defined.

Lemma input_stored_active (st : State) (n : Z) (inp inp' : InputSettings)
    (l : list InputSettings) :
  wellFormed st -> active st (CurrentInput (CurrentRuntimeSettings st)) ->
  lookup (Input (CurrentSettings st)) n = Some inp ->
  store (Input (CurrentSettings st)) n inp' = Some l ->
  (n = CurrentInput (CurrentRuntimeSettings st) -> Active inp' = Active inp) ->
  let st' := writeSettingsToEEPROM (set_settings (set_Input l (CurrentSettings st)) st) in
  wellFormed st'
  /\ CurrentInput (CurrentRuntimeSettings st') = CurrentInput (CurrentRuntimeSettings st)
  /\ active st' (CurrentInput (CurrentRuntimeSettings st')).
Proof.
  intros (L1 & L2 & Hc) (inp0 & L0 & A0) L S Hn st'. subst st'.
  unfold wellFormed, active. fields. rewrite (store_length _ _ _ _ S).
  repeat split; try assumption; try lia.
  destruct (Z.eq_dec n (CurrentInput (CurrentRuntimeSettings st))) as [e|ne].
  - exists inp'. rewrite <- e. split; [exact (store_same _ _ _ _ S)|].
    rewrite (Hn e). rewrite <- e in L0. congruence.
  - exists inp0. split; [|exact A0]. now rewrite (store_other _ _ _ _ _ S) by exact ne.
Qed.

(** X23.  No command of the menu switches the current input off or changes
    it: [mnuCmdINPUTn_ACTIVE] opens its editor for another input only, so an
    active current input is active after every command. *)
Theorem current_input_stays_active (cmdId : MenuCommand) (keys rest : list UserInput)
    (st st' : State) (b : bool) :
  processMenuCommand cmdId keys st = Returns b st' rest ->
  wellFormed st -> active st (CurrentInput (CurrentRuntimeSettings st)) ->
  wellFormed st'
  /\ CurrentInput (CurrentRuntimeSettings st') = CurrentInput (CurrentRuntimeSettings st)
  /\ active st' (CurrentInput (CurrentRuntimeSettings st')).
Proof.
  intros H W A.
  set (I := fun s : State =>
              wellFormed s
              /\ CurrentInput (CurrentRuntimeSettings s) = CurrentInput (CurrentRuntimeSettings st)
              /\ active s (CurrentInput (CurrentRuntimeSettings s))).
  change (I st'). assert (I0 : I st) by (unfold I; auto).
  assert (Member : forall get set r b0 rest0,
            finishEdit (member get set) st r = Returns b0 st' rest0 ->
            (forall v, Input (set v (CurrentSettings st)) = Input (CurrentSettings st)) ->
            I st').
  { intros get set r b0 rest0 E Hset.
    apply (member_edited I _ _ _ _ _ _ _ E I0).
    intros v _. unfold I, wellFormed, active in *. fields. rewrite Hset. exact I0. }
  assert (Inp : forall n get set r b0 rest0,
            finishEdit (inputMember n get set) st r = Returns b0 st' rest0 ->
            (n = CurrentInput (CurrentRuntimeSettings st) ->
             forall v inp, Active (set v inp) = Active inp) ->
            I st').
  { intros n get set r b0 rest0 E Hset.
    apply (input_edited I _ _ _ _ _ _ _ _ E I0).
    intros v inp l _ L S.
    apply (input_stored_active st n inp (set v inp) l W A L S).
    intros e. now apply Hset. }
  destruct cmdId;
    try (open_case H;
         first [ apply (Member _ _ _ _ _ H); intros; reflexivity
               | apply (Inp _ _ _ _ _ _ H);
                 first [ intros _ v inp; reflexivity
                       | intros e; exfalso;
                         match goal with
                         | Q : (_ =? _) = false |- _ => apply Z.eqb_neq in Q; congruence
                         end ]
               | injection H as <- <- <-; exact I0 ]).
  - (* mnuCmdVOL_STEPS *)
    pose proof H as H0.
    cbn [processMenuCommand] in H. unfold editNumericValue at 1 in H.
    cbn [load member] in H.
    destruct (editNumericLoop (VolumeSteps (CurrentSettings st)) 1 179 keys)
      as [[[v|] r]|] eqn:EL; cbn [finishEdit assign member] in H; try discriminate H.
    + destruct (steps_accepted keys r v st W EL)
        as (st2 & E2 & _ & _ & _ & _ & Inp2 & _ & _ & C2 & L2 & _).
      rewrite E2 in H0. injection H0 as <- <- <-.
      destruct W as (W1 & W2 & W3). destruct A as (inp & La & Aa).
      unfold I, wellFormed, active. rewrite Inp2, C2, L2, length_map, lookup_map, La.
      repeat split; try assumption; try lia.
      eexists. split; [reflexivity|]. now rewrite (proj1 (clamp_limits v inp)).
    + unfold editMinAttenuation in H. apply completed_returns in H.
      destruct H as (_ & b0 & H). unfold editNumericValue in H. cbn [load member] in H.
      apply (Member _ _ _ _ _ H); intros; reflexivity.
Qed.

Lemma current_input_stays_active_witness :
  let st' := writeSettingsToEEPROM
               (set_settings
                  (set_Input (defaultInput :: defaultInput :: set_Active 0 defaultInput
                              :: defaultInput :: defaultInput :: defaultInput :: nil)
                     defaultSettings) defaultState) in
  wellFormed st'
  /\ CurrentInput (CurrentRuntimeSettings st')
     = CurrentInput (CurrentRuntimeSettings defaultState)
  /\ active st' (CurrentInput (CurrentRuntimeSettings st')).
Proof.
  intros st'.
  apply (current_input_stays_active mnuCmdINPUT3_ACTIVE
           (KEY_RIGHT :: KEY_SELECT :: nil) nil defaultState st' true).
  - reflexivity.
  - unfold wellFormed. cbn. lia.
  - eexists. split; [reflexivity|]. discriminate.
Defined.

Lemma previous_key_never_received_witness :
  let code c := {| address := 36; command := c |} in
  let cs := {| IR_ONOFF := code 1; IR_UP := code 2; IR_DOWN := code 3;
               IR_REPEAT := code 0; IR_LEFT := code 4; IR_RIGHT := code 5;
               IR_SELECT := code 6; IR_BACK := code 7; IR_MUTE := code 8;
               IR_PREVIOUS := code 9; IR_1 := code 10; IR_2 := code 11;
               IR_3 := code 12; IR_4 := code 13; IR_5 := code 14; IR_6 := code 15 |} in
  let s := {| e1value := 0; e1last := 0; e2value := 0; e2last := 0;
              lastReceivedInput := KEY_NONE |} in
  fst (receiveInput cs (irPoll (Some (code 9))) s) <> KEY_PREVIOUS
  /\ (lastReceivedInput s <> KEY_PREVIOUS ->
      lastReceivedInput (snd (receiveInput cs (irPoll (Some (code 9))) s)) <> KEY_PREVIOUS).
Proof.
  intros code cs s. apply previous_key_never_received.
Defined.

End ControllerProofs.

(** * The supply voltage *)

Module PowerProofs.
Import Power.

Lemma reading_table :
  Interval.all 0 3 (fun h =>
    Interval.all 0 255 (fun l => reading l h =? l + 256 * h)) = true.
Proof. vm_cast_no_check (eq_refl true). Qed.

Lemma reading_value (ADCL ADCH : Z) :
  0 <= ADCL <= 255 -> 0 <= ADCH <= 3 -> reading ADCL ADCH = ADCL + 256 * ADCH.
Proof.
  intros Hl Hh. pose proof reading_table as T.
  apply (Interval_all_spec _ _ _ T ADCH) in Hh.
  apply (Interval_all_spec _ _ _ Hh ADCL) in Hl.
  now apply Z.eqb_eq.
Qed.

(** X24.  In millivolts the supply is 1126400 over the ten-bit reading of
    the 1.1 V reference: a power loss is detected exactly for the readings 245
    to 375 (3003 to 4597 mV), and the power-loss state is left exactly for the
    readings up to 239 (4700 mV and more); a deeper drop, 376 and above, is
    not a power loss for the test. *)
Theorem power_loss_readings (ADCL ADCH : Z) :
  0 <= ADCL <= 255 -> 0 <= ADCH <= 3 -> 1 <= reading ADCL ADCH ->
  (powerLoss ADCL ADCH = true <-> 245 <= reading ADCL ADCH <= 375)
  /\ (powerBack ADCL ADCH = true <-> reading ADCL ADCH <= 239).
Proof.
  intros Hl Hh H1. unfold powerLoss, powerBack, millivolts.
  rewrite (reading_value ADCL ADCH Hl Hh) in *.
  set (r := ADCL + 256 * ADCH) in *.
  assert (Hr : 1 <= r <= 1023) by (subst r; lia).
  rewrite Z.quot_div_nonneg by lia.
  assert (D : forall t, 0 < t -> (t <= 1126400 / r <-> t * r <= 1126400)).
  { intros t Ht. split; intros H.
    - pose proof (Z.mul_div_le 1126400 r ltac:(lia)). nia.
    - apply Z.div_le_lower_bound; lia. }
  split.
  - rewrite andb_true_iff, !Z.ltb_lt.
    pose proof (D 3001 ltac:(lia)). pose proof (D 4600 ltac:(lia)). lia.
  - rewrite negb_true_iff, Z.ltb_ge.
    pose proof (D 4700 ltac:(lia)). lia.
Qed.

Lemma power_loss_readings_witness :
  (powerLoss 44 1 = true <-> 245 <= reading 44 1 <= 375)
  /\ (powerBack 44 1 = true <-> reading 44 1 <= 239).
Proof.
  apply power_loss_readings; cbn; lia.
Defined.

End PowerProofs.

(** * The temperature bar *)

Module BarProofs.
Import Bar.

Lemma same_eq (a b : list Z) : same a b = true -> a = b.
Proof.
  revert b. induction a as [|x a IH]; intros [|y b]; cbn [same];
    try discriminate; [reflexivity|].
  intros H. apply andb_prop in H. destruct H as [E H].
  apply Z.eqb_eq in E. subst y. f_equal. now apply IH.
Qed.

Lemma bar_table :
  Interval.all 0 255 (fun nb =>
    same (bar 4 nb) (picture (Z.min nb 20))
    && (Z.of_nat (length (bar 4 nb)) =? 4)
    && (shown (bar 4 nb) =? Z.min nb 20)
    && sorted (bar 4 nb)) = true.
Proof. vm_cast_no_check (eq_refl true). Qed.

(** X25.  The bar of four characters is the picture of [nb_columns]
    columns, 20 at most: a full box (208) for every five columns, then one
    partial box (212 down to 209 for one to four columns) when columns are
    left, then blanks.  So it shows that number of columns, the fuller
    characters first. *)
Theorem bar_shows_columns (nb_columns : Z) :
  0 <= nb_columns <= 255 ->
  bar 4 nb_columns = picture (Z.min nb_columns 20)
  /\ length (bar 4 nb_columns) = 4%nat
  /\ shown (bar 4 nb_columns) = Z.min nb_columns 20
  /\ sorted (bar 4 nb_columns) = true.
Proof.
  intros H. pose proof bar_table as T.
  apply (Interval_all_spec _ _ _ T nb_columns) in H.
  apply andb_prop in H. destruct H as [H H4].
  apply andb_prop in H. destruct H as [H H3].
  apply andb_prop in H. destruct H as [H1 H2].
  apply Z.eqb_eq in H2, H3.
  apply same_eq in H1.
  repeat split; try assumption. lia.
Qed.

Lemma bar_shows_columns_witness :
  bar 4 13 = picture (Z.min 13 20)
  /\ length (bar 4 13) = 4%nat
  /\ shown (bar 4 13) = Z.min 13 20
  /\ sorted (bar 4 13) = true.
Proof.
  apply bar_shows_columns. lia.
Defined.

End BarProofs.

(** * The EEPROM addresses *)

Module EepromProofs.
Import Eeprom.

Lemma upto_length (n : nat) : forall lo, length (Interval.upto lo n) = n.
Proof. induction n as [|n IH]; intros lo; cbn; [reflexivity|now rewrite IH]. Qed.

Lemma upto_nth (n : nat) : forall lo i d,
  (i < n)%nat -> nth i (Interval.upto lo n) d = lo + Z.of_nat i.
Proof.
  induction n as [|n IH]; intros lo i d Hi; [lia|].
  destruct i as [|i]; cbn [Interval.upto nth]; [lia|].
  rewrite IH by lia. lia.
Qed.

Lemma map_upto_ext (f g : Z -> Z) (n : nat) (lo : Z) :
  (forall a, lo <= a < lo + Z.of_nat n -> f a = g a) ->
  map f (Interval.upto lo n) = map g (Interval.upto lo n).
Proof.
  revert lo. induction n as [|n IH]; intros lo H; cbn [Interval.upto map]; [reflexivity|].
  f_equal; [apply H; lia|]. apply IH. intros a Ha. apply H. lia.
Qed.

Lemma read_write_same (addr : Z) (values old : list Z) (m : memory) :
  0 <= addr -> addr + Z.of_nat (length values) <= capacity ->
  eeprom_read addr (length values) old (eeprom_write addr values m) = values.
Proof.
  intros H0 Hc. unfold eeprom_read, eeprom_write.
  destruct (Z.ltb_spec capacity (addr + Z.of_nat (length values))) as [|_]; [lia|].
  apply (nth_ext _ _ (if (addr <=? 0) && (0 <? addr + Z.of_nat (length values))
                      then nth (Z.to_nat (0 - addr)) values 0 else m 0) 0).
  - now rewrite length_map, upto_length.
  - intros i Hi. rewrite length_map, upto_length in Hi.
    rewrite (map_nth (fun a => if (addr <=? a) && (a <? addr + Z.of_nat (length values))
                               then nth (Z.to_nat (a - addr)) values 0 else m a)
               (Interval.upto addr (length values)) 0 i).
    rewrite upto_nth by exact Hi.
    destruct (Z.leb_spec addr (addr + Z.of_nat i)) as [_|]; [|lia].
    destruct (Z.ltb_spec (addr + Z.of_nat i) (addr + Z.of_nat (length values))) as [_|];
      [|lia].
    cbn [andb]. f_equal. lia.
Qed.

Lemma read_write_apart (a1 : Z) (n1 : nat) (a2 : Z) (values old : list Z) (m : memory) :
  a1 + Z.of_nat n1 <= a2 \/ a2 + Z.of_nat (length values) <= a1 ->
  eeprom_read a1 n1 old (eeprom_write a2 values m) = eeprom_read a1 n1 old m.
Proof.
  intros H. unfold eeprom_read, eeprom_write.
  destruct (capacity <? a1 + Z.of_nat n1); [reflexivity|].
  destruct (capacity <? a2 + Z.of_nat (length values)); [reflexivity|].
  apply map_upto_ext. intros a Ha.
  destruct (Z.leb_spec a2 a); destruct (Z.ltb_spec a (a2 + Z.of_nat (length values)));
    cbn [andb]; try reflexivity. lia.
Qed.

Section LayoutProofs.
(** The sizes of the two unions. *)
Variables ns nr : nat.

(** X26.  The three images do not overlap in the EEPROM: each read gives
    back what the matching write has stored, and a write of one image changes
    nothing of what the reads of the other two give. *)
Theorem eeprom_images_apart (s : Images) :
  sized ns nr s ->
  (CurrentSettings (readSettingsFromEEPROM ns (writeSettingsToEEPROM ns s))
   = CurrentSettings s
   /\ CurrentRuntimeSettings
        (readRuntimeSettingsFromEEPROM ns nr (writeRuntimeSettingsToEEPROM ns nr s))
      = CurrentRuntimeSettings s
   /\ CurrentSettings (readUserSettingsFromEEPROM ns nr (writeUserSettingsToEEPROM ns nr s))
      = CurrentSettings s)
  /\ (CurrentSettings (readSettingsFromEEPROM ns (writeRuntimeSettingsToEEPROM ns nr s))
      = CurrentSettings (readSettingsFromEEPROM ns s)
      /\ CurrentSettings (readSettingsFromEEPROM ns (writeUserSettingsToEEPROM ns nr s))
         = CurrentSettings (readSettingsFromEEPROM ns s))
  /\ (CurrentRuntimeSettings (readRuntimeSettingsFromEEPROM ns nr (writeSettingsToEEPROM ns s))
      = CurrentRuntimeSettings (readRuntimeSettingsFromEEPROM ns nr s)
      /\ CurrentRuntimeSettings
           (readRuntimeSettingsFromEEPROM ns nr (writeUserSettingsToEEPROM ns nr s))
         = CurrentRuntimeSettings (readRuntimeSettingsFromEEPROM ns nr s))
  /\ (CurrentSettings (readUserSettingsFromEEPROM ns nr (writeSettingsToEEPROM ns s))
      = CurrentSettings (readUserSettingsFromEEPROM ns nr s)
      /\ CurrentSettings (readUserSettingsFromEEPROM ns nr (writeRuntimeSettingsToEEPROM ns nr s))
         = CurrentSettings (readUserSettingsFromEEPROM ns nr s)).
Proof.
  intros (Ls & Lr & Hc).
  unfold writeSettingsToEEPROM, readSettingsFromEEPROM, writeRuntimeSettingsToEEPROM,
    readRuntimeSettingsFromEEPROM, writeUserSettingsToEEPROM, readUserSettingsFromEEPROM.
  cbn [CurrentSettings CurrentRuntimeSettings eeprom].
  rewrite !firstn_all2 by lia.
  assert (Es : forall a old m,
            0 <= a -> a + Z.of_nat ns <= capacity ->
            eeprom_read a ns old (eeprom_write a (CurrentSettings s) m) = CurrentSettings s).
  { intros a old m. rewrite <- Ls. apply read_write_same. }
  assert (Er : forall a old m,
            0 <= a -> a + Z.of_nat nr <= capacity ->
            eeprom_read a nr old (eeprom_write a (CurrentRuntimeSettings s) m)
            = CurrentRuntimeSettings s).
  { intros a old m. rewrite <- Lr. apply read_write_same. }
  repeat split;
    first [ apply Es; lia | apply Er; lia | apply read_write_apart; lia ].
Qed.

End LayoutProofs.

Lemma eeprom_images_apart_witness :
  let s := {| CurrentSettings := 60 :: 0 :: 60 :: 1 :: nil;
              CurrentRuntimeSettings := 2 :: 17 :: nil;
              eeprom := fun _ => 255 |} in
  (CurrentSettings (readSettingsFromEEPROM 4 (writeSettingsToEEPROM 4 s)) = CurrentSettings s
   /\ CurrentRuntimeSettings
        (readRuntimeSettingsFromEEPROM 4 2 (writeRuntimeSettingsToEEPROM 4 2 s))
      = CurrentRuntimeSettings s
   /\ CurrentSettings (readUserSettingsFromEEPROM 4 2 (writeUserSettingsToEEPROM 4 2 s))
      = CurrentSettings s)
  /\ (CurrentSettings (readSettingsFromEEPROM 4 (writeRuntimeSettingsToEEPROM 4 2 s))
      = CurrentSettings (readSettingsFromEEPROM 4 s)
      /\ CurrentSettings (readSettingsFromEEPROM 4 (writeUserSettingsToEEPROM 4 2 s))
         = CurrentSettings (readSettingsFromEEPROM 4 s))
  /\ (CurrentRuntimeSettings (readRuntimeSettingsFromEEPROM 4 2 (writeSettingsToEEPROM 4 s))
      = CurrentRuntimeSettings (readRuntimeSettingsFromEEPROM 4 2 s)
      /\ CurrentRuntimeSettings
           (readRuntimeSettingsFromEEPROM 4 2 (writeUserSettingsToEEPROM 4 2 s))
         = CurrentRuntimeSettings (readRuntimeSettingsFromEEPROM 4 2 s))
  /\ (CurrentSettings (readUserSettingsFromEEPROM 4 2 (writeSettingsToEEPROM 4 s))
      = CurrentSettings (readUserSettingsFromEEPROM 4 2 s)
      /\ CurrentSettings (readUserSettingsFromEEPROM 4 2 (writeRuntimeSettingsToEEPROM 4 2 s))
         = CurrentSettings (readUserSettingsFromEEPROM 4 2 s)).
Proof.
  intros s. apply eeprom_images_apart.
  unfold sized, capacity. cbn. lia.
Defined.

End EepromProofs.

(** * The padding of display lines *)

Module LcdProofs.
Import Lcd.

Lemma cstring_nonzero (buf : list Z) : Forall (fun c => c <> 0) (cstring buf).
Proof.
  induction buf as [|c t IH]; cbn [cstring]; [constructor|].
  destruct (Z.eqb_spec c 0); constructor; assumption.
Qed.

Lemma cstring_app (a b : list Z) :
  Forall (fun c => c <> 0) a -> cstring (a ++ b) = a ++ cstring b.
Proof.
  induction 1 as [|c a Hc _ IH]; cbn [app cstring]; [reflexivity|].
  destruct (Z.eqb_spec c 0); [contradiction|]. now rewrite IH.
Qed.

Lemma cstring_terminated (a b : list Z) :
  Forall (fun c => c <> 0) a -> cstring (a ++ 0 :: b) = a.
Proof.
  intros H. rewrite cstring_app by exact H. cbn. apply app_nil_r.
Qed.

Lemma repeat_nonzero (chr : Z) (n : nat) : chr <> 0 -> Forall (fun c => c <> 0) (repeat chr n).
Proof. intros H. induction n; cbn; constructor; assumption. Qed.

Lemma firstn_nonzero (n : nat) (l : list Z) :
  Forall (fun c => c <> 0) l -> Forall (fun c => c <> 0) (firstn n l).
Proof.
  intros H. revert n. induction H as [|c l Hc _ IH]; intros [|n]; cbn [firstn];
    constructor; auto.
Qed.

Lemma skipn_skipn_add {A : Type} (n m : nat) (l : list A) :
  skipn n (skipn m l) = skipn (m + n) l.
Proof.
  revert l. induction m as [|m IH]; intros l; [reflexivity|].
  destruct l as [|x l]; cbn [skipn Nat.add]; [now rewrite skipn_nil|apply IH].
Qed.

Lemma overwrite_fits (offset : nat) (bytes buf : list Z) :
  (offset + length bytes <= length buf)%nat ->
  overwrite offset bytes buf
  = Some (firstn offset buf ++ bytes ++ skipn (offset + length bytes) buf).
Proof.
  intros H. unfold overwrite.
  destruct (Nat.ltb_spec (length buf) (offset + length bytes)); [lia|reflexivity].
Qed.

(** A buffer that starts with [body], a terminator or not, and goes on as
    [dest] did. *)
Lemma written_prefix (prefix dest : list Z) :
  (length prefix <= length dest)%nat ->
  skipn (length prefix) (prefix ++ skipn (length prefix) dest) = skipn (length prefix) dest
  /\ length (prefix ++ skipn (length prefix) dest) = length dest.
Proof.
  intros H. split.
  - rewrite skipn_app, skipn_all, Nat.sub_diag. reflexivity.
  - rewrite length_app, length_skipn. lia.
Qed.

Section DisplayProofs.
Variable LCD_COLS : Z.
Hypothesis cols : 0 <= LCD_COLS <= 255.

Lemma rpad_fitting (dest str : list Z) (chr width : Z) :
  let w := Z.min width LCD_COLS in
  chr <> 0 -> 0 <= width <= 255 ->
  strlen str <= w ->
  (Z.to_nat w < length dest)%nat ->
  rpad LCD_COLS dest str chr width
  = Some ((cstring str ++ repeat chr (Z.to_nat (w - strlen str)) ++ 0 :: nil)
          ++ skipn (Z.to_nat (w + 1)) dest).
Proof.
  intros w Hchr Hwidth Hlen Hdest.
  pose proof (cstring_nonzero str) as Hs.
  unfold strlen in *. set (s := cstring str) in *.
  assert (Hw : (if LCD_COLS <? width then LCD_COLS else width) = w).
  { subst w. destruct (Z.ltb_spec LCD_COLS width); lia. }
  assert (Hw0 : 0 <= w <= LCD_COLS) by (subst w; lia).
  unfold rpad. rewrite Hw. unfold strlen. fold s.
  rewrite ControllerProofs.byte_small by lia.
  destruct (Z.ltb_spec (Z.of_nat (length s)) w) as [Lt|Ge].
  - destruct (Z.ltb_spec (Z.of_nat (length s)) LCD_COLS) as [_|]; [|lia].
    cbn [andb]. unfold strcpy. fold s.
    rewrite overwrite_fits by (rewrite length_app; cbn [length]; lia).
    cbn [firstn app Nat.add]. rewrite length_app. cbn [length].
    unfold strcat, padc.
    rewrite ControllerProofs.byte_small by lia.
    destruct (Z.ltb_spec LCD_COLS (w - Z.of_nat (length s))) as [|_]; [lia|].
    rewrite (cstring_terminated (repeat chr _) nil) by now apply repeat_nonzero.
    rewrite <- app_assoc. cbn [app].
    rewrite (cstring_terminated s) by exact Hs.
    rewrite overwrite_fits
      by (rewrite !length_app, repeat_length; cbn [length]; rewrite length_skipn; lia).
    rewrite firstn_app, firstn_all, Nat.sub_diag. cbn [firstn]. rewrite app_nil_r.
    rewrite length_app, repeat_length. cbn [length].
    rewrite (skipn_app _ s), (skipn_all2 s) by lia. cbn [app].
    replace (length s + (Z.to_nat (w - Z.of_nat (length s)) + 1) - length s)%nat
      with (S (Z.to_nat (w - Z.of_nat (length s)))) by lia.
    cbn [skipn]. rewrite skipn_skipn_add.
    replace (length s + 1 + Z.to_nat (w - Z.of_nat (length s)))%nat
      with (Z.to_nat (w + 1)) by lia.
    now rewrite <- !app_assoc.
  - destruct (Z.of_nat (length s) <? LCD_COLS); cbn [andb]; unfold strncpy; fold s.
    + assert (E : Z.of_nat (length s) = w) by lia.
      rewrite firstn_all2 by lia.
      replace (Z.to_nat (w + 1) - length s)%nat with 1%nat by lia.
      replace (Z.to_nat (w - Z.of_nat (length s))) with 0%nat by lia.
      cbn [repeat app].
      rewrite overwrite_fits by (rewrite length_app; cbn [length]; lia).
      cbn [firstn app Nat.add]. rewrite length_app. cbn [length].
      replace (length s + 1)%nat with (Z.to_nat (w + 1)) by lia.
      now rewrite <- app_assoc.
    + assert (E : Z.of_nat (length s) = w) by lia.
      rewrite firstn_all2 by lia.
      replace (Z.to_nat (w + 1) - length s)%nat with 1%nat by lia.
      replace (Z.to_nat (w - Z.of_nat (length s))) with 0%nat by lia.
      cbn [repeat app].
      rewrite overwrite_fits by (rewrite length_app; cbn [length]; lia).
      cbn [firstn app Nat.add]. rewrite length_app. cbn [length].
      replace (length s + 1)%nat with (Z.to_nat (w + 1)) by lia.
      now rewrite <- app_assoc.
Qed.

(** X27.  A string that fits is padded to the width: with at most
    [min(width, LCD_COLS)] characters in [str], [rpad] leaves in [dest] the
    string followed by the padding character up to exactly that width and a
    terminator, and writes nothing behind them. *)
Theorem rpad_pads_to_width (dest str : list Z) (chr width : Z) :
  let w := Z.min width LCD_COLS in
  chr <> 0 -> 0 <= width <= 255 ->
  strlen str <= w ->
  (Z.to_nat w < length dest)%nat ->
  exists d,
    rpad LCD_COLS dest str chr width = Some d
    /\ cstring d = cstring str ++ repeat chr (Z.to_nat (w - strlen str))
    /\ Z.of_nat (length (cstring d)) = w
    /\ skipn (Z.to_nat (w + 1)) d = skipn (Z.to_nat (w + 1)) dest
    /\ length d = length dest.
Proof.
  intros w Hchr Hwidth Hlen Hdest.
  rewrite (rpad_fitting dest str chr width Hchr Hwidth Hlen Hdest). fold w.
  eexists. split; [reflexivity|].
  pose proof (cstring_nonzero str) as Hs.
  assert (Hw0 : 0 <= w) by (subst w; lia).
  unfold strlen in *. set (s := cstring str) in *.
  set (n := Z.to_nat (w - Z.of_nat (length s))).
  assert (C : cstring ((s ++ repeat chr n ++ 0 :: nil) ++ skipn (Z.to_nat (w + 1)) dest)
              = s ++ repeat chr n).
  { rewrite <- !app_assoc, app_assoc. cbn [app].
    apply cstring_terminated, Forall_app. split; [exact Hs|now apply repeat_nonzero]. }
  assert (P : length (s ++ repeat chr n ++ 0 :: nil) = Z.to_nat (w + 1)).
  { rewrite !length_app, repeat_length. cbn [length]. lia. }
  rewrite C. split; [reflexivity|]. split.
  - rewrite length_app, repeat_length. lia.
  - rewrite <- P. apply written_prefix. lia.
Qed.

(** X28.  A string longer than the width is neither cut nor terminated:
    [rpad] copies [min(width, LCD_COLS) + 1] of its characters and no zero
    byte, so that the string in [dest] runs on into what [dest] held behind
    them. *)
Theorem rpad_long_string_unterminated (dest str : list Z) (chr width : Z) :
  let w := Z.min width LCD_COLS in
  0 <= width <= 255 ->
  w < strlen str <= 255 ->
  (Z.to_nat w < length dest)%nat ->
  exists d,
    rpad LCD_COLS dest str chr width = Some d
    /\ d = firstn (Z.to_nat (w + 1)) (cstring str) ++ skipn (Z.to_nat (w + 1)) dest
    /\ cstring d
       = firstn (Z.to_nat (w + 1)) (cstring str)
         ++ cstring (skipn (Z.to_nat (w + 1)) dest)
    /\ w < Z.of_nat (length (cstring d)).
Proof.
  intros w Hwidth Hlen Hdest.
  pose proof (cstring_nonzero str) as Hs.
  unfold strlen in *. set (s := cstring str) in *.
  assert (Hw : (if LCD_COLS <? width then LCD_COLS else width) = w).
  { subst w. destruct (Z.ltb_spec LCD_COLS width); lia. }
  assert (Hw0 : 0 <= w <= LCD_COLS) by (subst w; lia).
  unfold rpad. rewrite Hw. unfold strlen. fold s.
  rewrite ControllerProofs.byte_small by lia.
  destruct (Z.ltb_spec (Z.of_nat (length s)) w) as [|_]; [lia|].
  rewrite andb_false_r. unfold strncpy. fold s.
  replace (Z.to_nat (w + 1) - length s)%nat with 0%nat by lia.
  cbn [repeat]. rewrite app_nil_r.
  assert (F : length (firstn (Z.to_nat (w + 1)) s) = Z.to_nat (w + 1)).
  { rewrite length_firstn. lia. }
  rewrite overwrite_fits by (rewrite F; lia).
  cbn [firstn app Nat.add]. rewrite F.
  eexists. split; [reflexivity|]. split; [reflexivity|].
  assert (N : Forall (fun c => c <> 0) (firstn (Z.to_nat (w + 1)) s)).
  { now apply firstn_nonzero. }
  rewrite cstring_app by exact N. split; [reflexivity|].
  rewrite length_app, F. lia.
Qed.

End DisplayProofs.

Lemma rpad_pads_to_width_witness :
  let dest := repeat 255 21 in
  let str := 73 :: 110 :: 112 :: 117 :: 116 :: 0 :: 88 :: nil in
  exists d,
    rpad 20 dest str 32 18 = Some d
    /\ cstring d = cstring str ++ repeat 32 (Z.to_nat (Z.min 18 20 - strlen str))
    /\ Z.of_nat (length (cstring d)) = Z.min 18 20
    /\ skipn (Z.to_nat (Z.min 18 20 + 1)) d = skipn (Z.to_nat (Z.min 18 20 + 1)) dest
    /\ length d = length dest.
Proof.
  intros dest str.
  apply (rpad_pads_to_width 20 ltac:(lia) dest str 32 18); cbn; lia.
Defined.

Lemma rpad_long_string_unterminated_witness :
  let dest := repeat 255 21 in
  let str := 73 :: 110 :: 112 :: 117 :: 116 :: 0 :: nil in
  exists d,
    rpad 20 dest str 32 3 = Some d
    /\ d = firstn (Z.to_nat (Z.min 3 20 + 1)) (cstring str)
           ++ skipn (Z.to_nat (Z.min 3 20 + 1)) dest
    /\ cstring d
       = firstn (Z.to_nat (Z.min 3 20 + 1)) (cstring str)
         ++ cstring (skipn (Z.to_nat (Z.min 3 20 + 1)) dest)
    /\ Z.min 3 20 < Z.of_nat (length (cstring d)).
Proof.
  intros dest str.
  apply (rpad_long_string_unterminated 20 ltac:(lia) dest str 32 3); cbn; lia.
Defined.

End LcdProofs.

(** * The editor of input names *)

Module NameEditorProofs.
Import Controller.
Import NameEditor.

Lemma trimLeft_suffix (s : list Z) : exists p, s = p ++ trimLeft s.
Proof.
  induction s as [|c t [p IH]]; [now exists nil|]. cbn [trimLeft].
  destruct (isspace c); [|now exists nil].
  exists (c :: p). cbn [app]. now rewrite <- IH.
Qed.

Lemma trimLeft_head (s : list Z) : trimLeft s <> nil -> isspace (hd 0 (trimLeft s)) = false.
Proof.
  induction s as [|c t IH]; cbn [trimLeft]; [congruence|].
  destruct (isspace c) eqn:E; [exact IH|]. intros _. exact E.
Qed.

Lemma trimLeft_Forall (P : Z -> Prop) (s : list Z) : Forall P s -> Forall P (trimLeft s).
Proof.
  intros H. destruct (trimLeft_suffix s) as [p E]. rewrite E in H.
  now apply Forall_app in H.
Qed.

Lemma trimLeft_length (s : list Z) : (length (trimLeft s) <= length s)%nat.
Proof.
  destruct (trimLeft_suffix s) as [p E]. rewrite E at 2. rewrite length_app. lia.
Qed.

Lemma trim_Forall (P : Z -> Prop) (s : list Z) : Forall P s -> Forall P (trim s).
Proof.
  intros H. unfold trim. apply Forall_rev, trimLeft_Forall, Forall_rev.
  now apply trimLeft_Forall.
Qed.

Lemma trim_length (s : list Z) : (length (trim s) <= length s)%nat.
Proof.
  unfold trim. rewrite length_rev.
  pose proof (trimLeft_length (rev (trimLeft s))) as H1. rewrite length_rev in H1.
  pose proof (trimLeft_length s). lia.
Qed.

Lemma trim_ends (s : list Z) :
  trim s <> nil -> isspace (hd 0 (trim s)) = false /\ isspace (last (trim s) 0) = false.
Proof.
  unfold trim. intros N.
  set (u := trimLeft s) in *. set (v := trimLeft (rev u)) in *.
  assert (Nv : v <> nil).
  { intros E. apply N. now rewrite E. }
  split.
  - destruct (trimLeft_suffix (rev u)) as [p E]. fold v in E.
    assert (Eu : u = rev v ++ rev p).
    { rewrite <- (rev_involutive u), E, rev_app_distr. reflexivity. }
    assert (Nu : u <> nil).
    { intros Z0. rewrite Z0 in Eu. destruct (rev v); [now apply N|discriminate]. }
    pose proof (trimLeft_head s Nu) as Hd. fold u in Hd. rewrite Eu in Hd.
    destruct (rev v) as [|c t]; [now contradiction N|exact Hd].
  - pose proof (trimLeft_head (rev u) Nv) as Hd. fold v in Hd.
    destruct v as [|c t]; [contradiction|]. cbn [hd] in Hd.
    cbn [rev]. now rewrite last_last.
Qed.

Lemma firstn_Forall (P : Z -> Prop) (n : nat) (s : list Z) :
  Forall P s -> Forall P (firstn n s).
Proof.
  intros H. revert n. induction H as [|c l Hc _ IH]; intros [|n]; cbn [firstn];
    constructor; auto.
Qed.

Lemma moveArrow_kept (old : list Z) (k : UserInput) (e : Editor) :
  kept old e -> kept old (moveArrow k e).
Proof.
  intros (Hx & Hl & Hf). unfold moveArrow, kept.
  repeat match goal with
         | |- context [if ?b then _ else _] => destruct b eqn:?
         end;
    cbn [arrowX newInputName]; repeat split; try assumption; lia.
Qed.

Lemma append_kept (old : list Z) (c : Z) (e : Editor) :
  kept old e -> (length (newInputName e) < 10)%nat -> keyboard c ->
  kept old (append c e).
Proof.
  intros (Hx & Hl & Hf) Hn Hc. unfold kept, append. cbn [arrowX newInputName].
  rewrite length_app. cbn [length]. repeat split; try lia.
  apply Forall_app. split; [exact Hf|]. constructor; [now right|constructor].
Qed.

Lemma select_kept (old : list Z) (e e' : Editor) :
  kept old e -> select e = Some e' -> kept old e'.
Proof.
  intros K. pose proof K as (Hx & Hl & Hf). unfold select.
  destruct (arrowPointingUpDown e =? 1).
  - destruct (Z.eqb_spec (arrowX e) 17) as [E17|N17].
    { intros H. injection H as <-. exact K. }
    destruct (Z.eqb_spec (arrowX e) 18) as [E18|N18].
    { intros H. injection H as <-.
      destruct (0 <? length (newInputName e))%nat; [|exact K].
      unfold kept, dropLast. cbn [arrowX newInputName].
      rewrite length_firstn. repeat split; try lia. now apply firstn_Forall. }
    destruct (Z.eqb_spec (arrowX e) 19) as [E19|N19]; [discriminate|].
    destruct (Nat.ltb_spec (length (newInputName e)) 10) as [Hn|Hn].
    + intros H. injection H as <-. apply append_kept; [exact K|exact Hn|].
      unfold keyboard.
      destruct (Z.ltb_spec 6 (arrowX e)); [lia|]. destruct (isUpperCase e); lia.
    + intros H. injection H as <-. exact K.
  - destruct (Nat.ltb_spec (length (newInputName e)) 10) as [Hn|Hn].
    + destruct (Z.eqb_spec (arrowX e) 0) as [E0|N0].
      * intros H. injection H as <-. apply append_kept; [exact K|exact Hn|]. now left.
      * destruct (isUpperCase e); intros H; injection H as <-;
          (apply append_kept; [exact K|exact Hn|]); unfold keyboard; lia.
    + intros H. injection H as <-. exact K.
Qed.

Lemma editLoop_kept (old : list Z) (keys : list UserInput) :
  forall e, kept old e ->
    match editLoop e keys with
    | Saved Name _ => well_formed old Name
    | NotSaved _ => True
    | Waiting => ~ In KEY_BACK keys
    | Overflow => False
    end.
Proof.
  induction keys as [|k keys IH]; intros e K; cbn [editLoop]; [tauto|].
  assert (Go : forall e', kept old e' -> k <> KEY_BACK ->
            match editLoop e' keys with
            | Saved Name _ => well_formed old Name
            | NotSaved _ => True
            | Waiting => ~ In KEY_BACK (k :: keys)
            | Overflow => False
            end).
  { intros e' K' Nk. specialize (IH e' K').
    destruct (editLoop e' keys); try exact IH.
    intros [H|H]; [congruence|contradiction]. }
  destruct k; try (apply Go; [exact K|discriminate]); try exact I.
  - (* KEY_SELECT *)
    destruct (select e) as [e'|] eqn:S.
    + apply Go; [exact (select_kept old e e' K S)|discriminate].
    + destruct K as (Hx & Hl & Hf).
      pose proof (trim_length (newInputName e)) as Tl.
      pose proof (trim_Forall _ _ Hf) as Tf.
      destruct (trim (newInputName e)) as [|c t] eqn:T; [exact I|].
      assert (N : trim (newInputName e) <> nil) by (rewrite T; discriminate).
      destruct (trim_ends _ N) as [Th Tt]. rewrite T in Th, Tt.
      unfold saveName.
      destruct (Nat.ltb_spec 11 (length (c :: t))) as [|_]; [lia|].
      exists (c :: t). repeat split; try assumption; try (cbn [length] in *; lia).
      rewrite firstn_all2 by (rewrite length_app, repeat_length; lia).
      now rewrite <- app_assoc.
  - (* KEY_RIGHT *)
    apply Go; [now apply moveArrow_kept|discriminate].
  - (* KEY_LEFT *)
    apply Go; [now apply moveArrow_kept|discriminate].
Qed.

(** X29.  [editInputName] saves well-formed names only: ten characters and
    the terminator, the name first and blanks behind it, the name beginning
    and ending with a character that is not white space, each character from
    the old name or a blank, a letter or a digit; it never writes outside
    [Name], and it does not wait beyond a [KEY_BACK]. *)
Theorem saved_names_well_formed (Name : list Z) (keys : list UserInput) :
  (length (Lcd.cstring Name) <= 10)%nat ->
  match editInputName Name keys with
  | Saved Name' _ =>
      exists s,
        Name' = s ++ repeat 32 (10 - length s) ++ 0 :: nil
        /\ (1 <= length s <= 10)%nat
        /\ isspace (hd 0 s) = false
        /\ isspace (last s 0) = false
        /\ Forall (fun c => In c (Lcd.cstring Name) \/ keyboard c) s
  | NotSaved _ => True
  | Waiting => ~ In KEY_BACK keys
  | Overflow => False
  end.
Proof.
  intros Hl. unfold editInputName.
  apply (editLoop_kept (Lcd.cstring Name)).
  unfold kept. cbn [arrowX newInputName].
  pose proof (trim_length (Lcd.cstring Name)).
  repeat split; try lia.
  apply trim_Forall, Forall_forall. intros c Hc. now left.
Qed.

Lemma saved_names_well_formed_witness :
  let Name := 73 :: 110 :: 32 :: 49 :: 32 :: 32 :: 32 :: 32 :: 32 :: 32 :: 0 :: nil in
  let keys := KEY_RIGHT :: KEY_RIGHT :: KEY_SELECT :: repeat KEY_RIGHT 17
              ++ KEY_SELECT :: nil in
  match editInputName Name keys with
  | Saved Name' _ =>
      exists s,
        Name' = s ++ repeat 32 (10 - length s) ++ 0 :: nil
        /\ (1 <= length s <= 10)%nat
        /\ isspace (hd 0 s) = false
        /\ isspace (last s 0) = false
        /\ Forall (fun c => In c (Lcd.cstring Name) \/ keyboard c) s
  | NotSaved _ => True
  | Waiting => ~ In KEY_BACK keys
  | Overflow => False
  end.
Proof.
  intros Name keys. apply saved_names_well_formed. cbn. lia.
Defined.

End NameEditorProofs.

(** * Standby *)

Module StandbyProofs.

Import Controller Standby.

Lemma isOnOff_true (k : UserInput) : isOnOff k = true -> k = KEY_ONOFF.
Proof. destruct k; simpl; congruence. Qed.

Lemma isOnOff_false (k : UserInput) : isOnOff k = false -> k <> KEY_ONOFF.
Proof. destruct k; simpl; congruence. Qed.

Lemma andThen_returns {A B : Type} (e : ending A)
    (k : A -> Machine -> list Call -> ending B) (b : B) (m : Machine)
    (rest : list Call) :
  andThen e k = Returns b m rest ->
  exists a m1 rest1, e = Returns a m1 rest1 /\ k a m1 rest1 = Returns b m rest.
Proof.
  destruct e as [a m1 rest1| | |]; simpl; try discriminate.
  intros H. exists a, m1, rest1. split; [reflexivity|exact H].
Qed.

Lemma andThen_fuel {A B : Type} (e : ending A)
    (k : A -> Machine -> list Call -> ending B) :
  e <> OutOfFuel ->
  (forall a m rest, e = Returns a m rest -> k a m rest <> OutOfFuel) ->
  andThen e k <> OutOfFuel.
Proof.
  destruct e as [a m1 rest1| | |]; simpl; intros He Hk; try discriminate.
  - apply Hk. reflexivity.
  - congruence.
Qed.

(** One unfolding of each function. *)
Lemma getUserInput_step (fuel : nat) (c : Call) (rest : list Call) (m : Machine) :
  getUserInput (S fuel) (c :: rest) m =
  let (receivedInput, s) := receiveInput (codes m) (found c) (inputState m) in
  let m := set_inputState s m in
  andThen
    (if isOnOff receivedInput then
       if millis_cancel c <? uint32 (last_KEY_ONOFF m + 5000)
       then Returns KEY_NONE m rest
       else
         let m := set_last_KEY_ONOFF (millis_onoff c) m in
         if awake m then
           andThen
             (standbyLoop fuel rest
                (goingToSleep (set_appMode APP_STANDBY_MODE m)))
             (fun _ m rest => Returns receivedInput m rest)
         else Restart
     else Returns receivedInput m rest)
    (fun receivedInput m rest =>
       let m := screenSaver receivedInput c m in
       if inactive c m then
         andThen
           (standbyLoop fuel rest
              (goingToSleep (set_appMode APP_STANDBY_MODE m)))
           (fun _ m rest => Returns receivedInput m rest)
       else Returns receivedInput m rest).
Proof. reflexivity. Qed.

Lemma standbyLoop_step (fuel : nat) (calls : list Call) (m : Machine) :
  standbyLoop (S fuel) calls m =
  andThen (getUserInput fuel calls m)
    (fun k m rest =>
       if isOnOff k then Returns tt m rest else standbyLoop fuel rest m).
Proof. reflexivity. Qed.

(** What a call returns is not [KEY_ONOFF], and it has used one of the calls;
    the loop of [toStandbyMode] does not end. *)
Lemma never_returns (fuel : nat) :
  (forall calls m k m' rest,
      getUserInput fuel calls m = Returns k m' rest ->
      k <> KEY_ONOFF /\ exists c, calls = c :: rest)
  /\ (forall calls m u m' rest,
        standbyLoop fuel calls m <> Returns u m' rest).
Proof.
  induction fuel as [|fuel [IHg IHl]].
  - split; intros; simpl; discriminate.
  - split.
    + intros calls m k m' rest0.
      destruct calls as [|c rest]; [simpl; discriminate|].
      rewrite getUserInput_step.
      destruct (receiveInput (codes m) (found c) (inputState m)) as [r s].
      cbv zeta. intros H.
      apply andThen_returns in H. destruct H as (a & m1 & rest1 & He & Hk).
      assert (Ha : a <> KEY_ONOFF /\ rest1 = rest).
      { destruct (isOnOff r) eqn:Er.
        - destruct (millis_cancel c <? _).
          + inversion He; subst. split; [discriminate|reflexivity].
          + destruct (awake _).
            * apply andThen_returns in He.
              destruct He as (u & m2 & rest2 & Hl & _).
              exfalso. exact (IHl _ _ _ _ _ Hl).
            * discriminate.
        - inversion He; subst. split; [apply isOnOff_false; exact Er|reflexivity]. }
      destruct Ha as [Ha ->].
      destruct (inactive c (screenSaver a c m1)).
      * apply andThen_returns in Hk.
        destruct Hk as (u & m2 & rest2 & Hl & _).
        exfalso. exact (IHl _ _ _ _ _ Hl).
      * inversion Hk; subst. split; [exact Ha|exists c; reflexivity].
    + intros calls m u m' rest H.
      rewrite standbyLoop_step in H.
      apply andThen_returns in H. destruct H as (k & m1 & rest1 & Hg & Hk).
      destruct (IHg _ _ _ _ _ Hg) as [Hne _].
      destruct (isOnOff k) eqn:Ek.
      * apply isOnOff_true in Ek. contradiction.
      * exact (IHl _ _ _ _ _ Hk).
Qed.

(** The fuel that is enough: two for each call. *)
Lemma enough_fuel (fuel : nat) :
  (forall calls m, (2 * length calls + 1 <= fuel)%nat ->
      getUserInput fuel calls m <> OutOfFuel)
  /\ (forall calls m, (2 * length calls + 2 <= fuel)%nat ->
        standbyLoop fuel calls m <> OutOfFuel).
Proof.
  induction fuel as [|fuel [IHg IHl]].
  - split; intros; lia.
  - split.
    + intros calls m Hf.
      destruct calls as [|c rest]; [simpl; discriminate|].
      cbn [length] in Hf.
      rewrite getUserInput_step.
      destruct (receiveInput (codes m) (found c) (inputState m)) as [r s].
      cbv zeta.
      assert (Hl : forall m0 (K : unit -> Machine -> list Call -> ending UserInput),
                 andThen (standbyLoop fuel rest m0) K <> OutOfFuel).
      { intros m0 K. apply andThen_fuel.
        - apply IHl. lia.
        - intros a m1 rest1 E. exfalso.
          exact (proj2 (never_returns fuel) _ _ _ _ _ E). }
      apply andThen_fuel.
      * destruct (isOnOff r); [|discriminate].
        destruct (millis_cancel c <? _); [discriminate|].
        destruct (awake _); [apply Hl|discriminate].
      * intros a m1 rest1 E.
        assert (rest1 = rest) as ->.
        { destruct (isOnOff r); [|congruence].
          destruct (millis_cancel c <? _); [congruence|].
          destruct (awake _); [|discriminate].
          apply andThen_returns in E.
          destruct E as (u & m2 & rest2 & E & _).
          exfalso. exact (proj2 (never_returns fuel) _ _ _ _ _ E). }
        destruct (inactive c (screenSaver a c m1)); [apply Hl|discriminate].
    + intros calls m Hf.
      rewrite standbyLoop_step.
      apply andThen_fuel.
      * apply IHg. lia.
      * intros k m1 rest1 E.
        destruct (proj1 (never_returns fuel) _ _ _ _ _ E) as [Hne [c ->]].
        cbn [length] in Hf.
        destruct (isOnOff k) eqn:Ek.
        -- apply isOnOff_true in Ek. contradiction.
        -- apply IHl. lia.
Qed.

(** A double click of the second encoder sends the controller to standby; a
    second one two seconds later is cancelled, a third one restarts the
    sketch. *)
Example double_clicks_restart :
  let code c := {| address := 36; command := c |} in
  let cs := {| IR_ONOFF := code 1; IR_UP := code 2; IR_DOWN := code 3;
               IR_REPEAT := code 0; IR_LEFT := code 4; IR_RIGHT := code 5;
               IR_SELECT := code 6; IR_BACK := code 7; IR_MUTE := code 8;
               IR_PREVIOUS := code 9; IR_1 := code 10; IR_2 := code 11;
               IR_3 := code 12; IR_4 := code 13; IR_5 := code 14; IR_6 := code 15 |} in
  let doubleClick t :=
    {| found := {| value1 := 0; button1 := Open; value2 := 0;
                   button2 := DoubleClicked; irData := None |};
       millis_cancel := t; millis_onoff := t; millis_saver := t;
       millis_input := t; millis_timer := t |} in
  let m := {| program := defaultState; codes := cs;
              timers := {| ScreenSaverActive := 1; DisplayTimeout := 30;
                           TriggerInactOffTimer := 0 |};
              inputState := {| e1value := 0; e1last := 0; e2value := 0;
                               e2last := 0; lastReceivedInput := KEY_NONE |};
              last_KEY_ONOFF := 0; ScreenSaverIsOn := false;
              mil_LastUserInput := 0 |} in
  getUserInput 8 (doubleClick 6000 :: nil) m = Idle
  /\ getUserInput 8 (doubleClick 6000 :: doubleClick 8000 :: nil) m = Idle
  /\ getUserInput 8
       (doubleClick 6000 :: doubleClick 8000 :: doubleClick 12000 :: nil) m
     = Restart
  /\ getUserInput 8 (doubleClick 4000 :: nil) m
     = Returns KEY_NONE m nil.
Proof. cbv zeta. repeat split; vm_compute; reflexivity. Qed.

(** X30. [getUserInput] never returns [KEY_ONOFF] to its caller: the key is
    cancelled (it comes within five seconds of the last one), or it sends the
    controller to standby, or it restarts the sketch.  So the loop
    [while (getUserInput() != KEY_ONOFF);] of [toStandbyMode] never ends and
    [toStandbyMode] never returns: with fuel enough for the calls it is given
    it ends by the restart, or it is still waiting when the calls are used
    up.  Standby is left only by restarting the sketch, and nothing that
    follows a call of [toStandbyMode] in [getUserInput] is ever run. *)
Theorem standby_left_only_by_restart (fuel : nat) (calls : list Call)
    (m : Machine) :
  (2 * length calls + 2 <= fuel)%nat ->
  (toStandbyMode fuel calls m = Restart \/ toStandbyMode fuel calls m = Idle)
  /\ getUserInput fuel calls m <> OutOfFuel
  /\ forall k m' rest,
       getUserInput fuel calls m = Returns k m' rest -> k <> KEY_ONOFF.
Proof.
  intros Hf. split; [|split].
  - unfold toStandbyMode.
    pose proof (proj2 (enough_fuel fuel) calls (goingToSleep m) Hf) as Hn.
    pose proof (proj2 (never_returns fuel) calls (goingToSleep m)) as Hr.
    destruct (standbyLoop fuel calls (goingToSleep m)) as [u m1 r1| | |].
    + exfalso. exact (Hr u m1 r1 eq_refl).
    + left. reflexivity.
    + right. reflexivity.
    + congruence.
  - apply (proj1 (enough_fuel fuel)). lia.
  - intros k m' rest H.
    exact (proj1 (proj1 (never_returns fuel) _ _ _ _ _ H)).
Qed.

Lemma standby_left_only_by_restart_witness :
  let code c := {| address := 36; command := c |} in
  let cs := {| IR_ONOFF := code 1; IR_UP := code 2; IR_DOWN := code 3;
               IR_REPEAT := code 0; IR_LEFT := code 4; IR_RIGHT := code 5;
               IR_SELECT := code 6; IR_BACK := code 7; IR_MUTE := code 8;
               IR_PREVIOUS := code 9; IR_1 := code 10; IR_2 := code 11;
               IR_3 := code 12; IR_4 := code 13; IR_5 := code 14; IR_6 := code 15 |} in
  let doubleClick t :=
    {| found := {| value1 := 0; button1 := Open; value2 := 0;
                   button2 := DoubleClicked; irData := None |};
       millis_cancel := t; millis_onoff := t; millis_saver := t;
       millis_input := t; millis_timer := t |} in
  let m := {| program := defaultState; codes := cs;
              timers := {| ScreenSaverActive := 1; DisplayTimeout := 30;
                           TriggerInactOffTimer := 0 |};
              inputState := {| e1value := 0; e1last := 0; e2value := 0;
                               e2last := 0; lastReceivedInput := KEY_NONE |};
              last_KEY_ONOFF := 0; ScreenSaverIsOn := false;
              mil_LastUserInput := 0 |} in
  let calls := doubleClick 6000 :: doubleClick 8000 :: doubleClick 12000 :: nil in
  (2 * length calls + 2 <= 8)%nat
  /\ (toStandbyMode 8 calls m = Restart \/ toStandbyMode 8 calls m = Idle)
  /\ getUserInput 8 calls m <> OutOfFuel
  /\ forall k m' rest,
       getUserInput 8 calls m = Returns k m' rest -> k <> KEY_ONOFF.
Proof.
  intros code cs doubleClick m calls.
  split; [cbn; lia|].
  apply (standby_left_only_by_restart 8 calls m). cbn; lia.
Defined.

End StandbyProofs.
